(** * cps-faceID: the per-camera monitor of [push-api/push.py]

    A shallow embedding of [SimpleCompreFaceAPI.recognize_face] and of
    [SimpleCameraMonitor] ([get_newest_images], [process_image],
    [update_live_status], [save_to_history], one iteration of [run_loop]).

    Conventions.
    - Python [float]s (clock readings, similarities, delays) are exact
      rationals [Q]: a literal such as [0.5], [0.7], [0.3] or [1.2] stands
      for its decimal value and arithmetic does not round.
    - Python [str] is [string] (the UTF-8 bytes; byte order is code point
      order, so [String.compare] is Python's [<] on [str]).
    - What the code asks of its surroundings (the directory listing, file
      stats, the clock, the HTTP exchange, the disk) is an explicit argument.
    - A raised [Exception] is the [Raise] branch of [outcome]. *)

From Stdlib Require Import ZArith QArith Bool List String Ascii Lia Lqa.
From Stdlib Require Import Sorting.Sorted Sorting.Permutation OrderedTypeEx.
From Stdlib Require Import DecimalString.
From Stdlib Require DecimalPos DecimalZ Nnat.
Import ListNotations.

Local Open Scope string_scope.
Local Open Scope list_scope.

(* ------------------------------------------------------------------ *)
(** ** Python values the code relies on *)

Module Py.

(** [needle in hay] on [str]. *)
Fixpoint str_in (needle hay : string) : bool :=
  String.prefix needle hay
  || match hay with
     | EmptyString => false
     | String _ rest => str_in needle rest
     end.

(** Truth value of an attribute that holds [None] or a [str]:
    [None] and [''] are false. *)
Definition truthy (o : option string) : bool :=
  match o with
  | Some (String _ _) => true
  | _ => false
  end.

(** [list.sort()] on a list of [str]: ascending in [<=].  (Two equal
    strings are the same value, so every sorting algorithm returns the
    same list; insertion is the simplest to run.) *)
Fixpoint insert (x : string) (l : list string) : list string :=
  match l with
  | [] => [x]
  | y :: rest => if String.leb x y then x :: l else y :: insert x rest
  end.

Fixpoint list_sort (l : list string) : list string :=
  match l with
  | [] => []
  | x :: rest => insert x (list_sort rest)
  end.

(** [str(n)] for an [int]. *)
Definition str_of_int (n : Z) : string := NilZero.string_of_int (Z.to_int n).

(** [sep.join(items)]. *)
Definition join (sep : string) (items : list string) : string :=
  String.concat sep items.

(** [l[-n:]] for [n > 0]. *)
Definition last_n {A : Type} (n : nat) (l : list A) : list A :=
  skipn (List.length l - n) l.

(** Result of a call that may raise an [Exception]. *)
Inductive outcome (A : Type) : Type :=
| Return (a : A)
| Raise (e : string).
Arguments Return {A} a.
Arguments Raise {A} e.

End Py.

Import Py.

(** Code that updates the monitor and the files it writes, and may raise:
  the state reached when the exception is raised is kept, as a handler
  further up sees it. *)
Module Eff.

Definition M (S A : Type) : Type := S -> outcome A * S.

Definition ret {S A : Type} (a : A) : M S A := fun s => (Return a, s).

Definition raise {S A : Type} (e : string) : M S A := fun s => (Raise e, s).

Definition lift {S A : Type} (c : outcome A) : M S A := fun s => (c, s).

Definition bind {S A B : Type} (c : M S A) (k : A -> M S B) : M S B :=
  fun s =>
    match c s with
    | (Return a, s') => k a s'
    | (Raise e, s') => (Raise e, s')
    end.

Definition get {S : Type} : M S S := fun s => (Return s, s).

Definition modify {S : Type} (f : S -> S) : M S unit := fun s => (Return tt, f s).

(** [for x in xs: body(x)] *)
Fixpoint for_each {S A : Type} (body : A -> M S unit) (xs : list A) : M S unit :=
  match xs with
  | [] => ret tt
  | x :: rest => bind (body x) (fun _ => for_each body rest)
  end.

End Eff.

Import Eff.

Notation "x <- c ;; k" := (Eff.bind c (fun x => k))
  (at level 61, c at next level, right associativity).
Notation "c ;;; k" := (Eff.bind c (fun _ => k))
  (at level 61, right associativity).

(* ------------------------------------------------------------------ *)
(** ** [get_newest_images] *)

(** What one call of [get_newest_images] sees of the file system. *)
Record Folder : Type := {
  (** [glob.glob(pattern)]: the matching paths, no path twice, in no
      particular order; empty for a folder that cannot be listed. *)
  glob_glob : list string;
  (** [time.time()] as read when the loop examines this path. *)
  time_time : string -> Q;
  (** [os.path.getmtime(p)]; [None] when it raises [OSError]
      (the file was removed after the listing). *)
  getmtime : string -> option Q;
  (** [os.path.getsize(p)]; [None] when it raises [OSError]. *)
  getsize : string -> option Z
}.

Section Scan.

(** [self.config['file_pattern']]; [None] when the key is missing, which
    raises [KeyError]. *)
Variable pattern : option string.
Variable fs : Folder.
Variable last_processed : option string.
Variable max_count : Z.

(** [self.last_processed and file_path == self.last_processed] *)
Definition is_last_processed (file_path : string) : bool :=
  truthy last_processed
  && match last_processed with
     | Some c => String.eqb file_path c
     | None => false
     end.

(** [file_path > self.last_processed], reached only when
    [self.last_processed] is a non-empty [str]. *)
Definition gt_last_processed (file_path : string) : bool :=
  match last_processed with
  | Some c => String.ltb c file_path
  | None => false
  end.

(** [not self.last_processed or last_processed_found or
     file_path > self.last_processed] *)
Definition is_new (last_processed_found : bool) (file_path : string) : bool :=
  negb (truthy last_processed) || last_processed_found
  || gt_last_processed file_path.

(** The [for file_path in files] loop, with its two local variables
    [new_files] and [last_processed_found]; [Return] on falling off the
    end or on [break]. *)
Fixpoint scan_loop (files new_files : list string)
         (last_processed_found : bool) : outcome (list string) :=
  match files with
  | [] => Return new_files
  | file_path :: rest =>
      if is_last_processed file_path
      then scan_loop rest new_files true
      else if is_new last_processed_found file_path
      then
        match getmtime fs file_path with
        | None => Raise "getmtime"
        | Some mtime =>
            let file_age := (time_time fs file_path - mtime)%Q in
            if Qle_bool 0.5 file_age
            then
              match getsize fs file_path with
              | None => Raise "getsize"
              | Some size =>
                  if (3000 <? size)%Z
                  then
                    let new_files' := new_files ++ [file_path] in
                    if (max_count <=? Z.of_nat (List.length new_files'))%Z
                    then Return new_files'
                    else scan_loop rest new_files' last_processed_found
                  else scan_loop rest new_files last_processed_found
              end
            else scan_loop rest new_files last_processed_found
        end
      else scan_loop rest new_files last_processed_found
  end.

(** The whole method: every exception ends in [return []]. *)
Definition get_newest_images : list string :=
  match pattern with
  | None => []
  | Some _ =>
      let files := glob_glob fs in
      match files with
      | [] => []
      | _ =>
          match scan_loop (list_sort files) [] false with
          | Return new_files => new_files
          | Raise _ => []
          end
      end
  end.

End Scan.

(* ------------------------------------------------------------------ *)
(** ** [SimpleCompreFaceAPI.recognize_face] *)

(** The JSON body of a recognition reply, as far as the code reads it.  A
    key read with [.get(key, default)] may be missing; so may ['subject'],
    which is read with [best['subject']]. *)
Record Subject : Type := {
  subject : option string;
  similarity : option Q
}.

Record Face : Type := {
  subjects : option (list Subject)
}.

Record Data : Type := {
  result : option (list Face)
}.

(** What happens inside the [try] of [recognize_face] for one image. *)
Inductive Exchange : Type :=
| OpenRaises (str_e : string)
    (** [open(image_path, 'rb')] raises, [str(e)] is the message *)
| PostTimeout
    (** [session.post] raises [requests.exceptions.Timeout] *)
| PostRaises (str_e : string)
    (** [session.post] raises any other [Exception] *)
| Response (status_code : Z) (text : string) (json : outcome Data).
    (** a response arrived; [json] is what [response.json()] gives *)

(** The returned [dict]: [{'success': True, 'data': ..}] (with
    ['no_face': True] on the sentinel) or [{'success': False, 'error': ..}]. *)
Inductive ApiResult : Type :=
| Success (data : Data) (no_face : bool)
| Failure (error : string).

Definition success (r : ApiResult) : bool :=
  match r with
  | Success _ _ => true
  | Failure _ => false
  end.

Definition recognize_face (net : string -> Exchange) (image_path : string)
  : ApiResult :=
  match net image_path with
  | OpenRaises str_e => Failure str_e
  | PostTimeout => Failure "Timeout"
  | PostRaises str_e => Failure str_e
  | Response status_code text json =>
      if (status_code =? 200)%Z
      then match json with
           | Return data => Success data false
           | Raise str_e => Failure str_e
           end
      else if str_in "No face is found" text
      then Success {| result := Some [] |} true
      else Failure (String.append "HTTP " (str_of_int status_code))
  end.

(* ------------------------------------------------------------------ *)
(** ** Published artifacts *)

Inductive Color : Type := green | red | gray | processing.

(** The message of a status, by the f-string that builds it. *)
Inductive Message : Type :=
| MsgStarted                        (** System gestartet - suche nach Bildern... *)
| MsgProcessing (filename : string) (** Verarbeite {filename}... *)
| MsgNoFaces                        (** Keine Gesichter erkannt *)
| MsgRecognized (names : string)    (** Erkannt: {', '.join(recognized)} *)
| MsgUnknown (unknown : nat)        (** {unknown} unbekannte Person(en) *)
| MsgApiSlow (duration : Q)         (** API langsam ({duration:.1f}s) *)
| MsgApiError                       (** API Fehler *)
| MsgHeartbeat (consecutive_empty : nat)
    (** Ueberwache... (keine neuen Bilder seit {consecutive_empty} Checks) *)
| MsgSystemError (str_e : string).  (** System Fehler: {str(e)} *)

Module LiveStatus.
  (** The record written to [live_status.json] (its two wall-clock stamps,
      which nothing reads back, are left out). *)
Record t : Type := {
    camera_id : string;
    status : Color;
    message : Message;
    recognized : list string;
    image_file : option string
  }.
End LiveStatus.

Module HistoryEntry.
Record t : Type := {
    timestamp : Q;
    camera : string;
    image : string;
    recognized : list string
  }.
End HistoryEntry.

(** [recognition_results.json] on disk. *)
Inductive HistoryFile : Type :=
| Absent                                  (** [os.path.exists] is false *)
| Unreadable                              (** [open] or [json.load] raises *)
| Stored (entries : list HistoryEntry.t).

(** [self.config], as far as the monitor reads it. *)
Record Config : Type := {
  folder_path : string;
  file_pattern : option string;    (** [None]: the key is missing *)
  check_interval : option Q        (** [None]: the key is missing *)
}.

(** The monitor's attributes and the two files it writes. *)
Record State : Type := {
  last_processed : option string;
  is_busy : bool;
  live_status_json : option LiveStatus.t;
  recognition_results_json : HistoryFile;
  (** every call of [update_live_status] so far, oldest first *)
  published : list LiveStatus.t
}.

(** What one loop iteration finds around it. *)
Record Env : Type := {
  current_time : Q;               (** [time.time()] at the top *)
  lock_acquired : bool;           (** [processing_lock.acquire(blocking=False)] *)
  folder : Folder;
  net : string -> Exchange;
  duration : string -> Q;         (** [time.time() - start_time] for an image *)
  datetime_now : string -> Q;     (** the stamp of an image's history entry *)
  writable : bool                 (** [open(.., 'w')] and [json.dump] succeed *)
}.

Section Monitor.

Variable camera_id : string.
Variable config : Config.

(** [update_live_status]: an I/O failure is logged, nothing is written. *)
Definition update_live_status (env : Env) (status_type : Color)
           (message : Message) (recognized : list string)
           (image_file : option string) : M State unit :=
  let live_status :=
    {| LiveStatus.camera_id := camera_id;
       LiveStatus.status := status_type;
       LiveStatus.message := message;
       LiveStatus.recognized := recognized;
       LiveStatus.image_file := image_file |} in
  modify (fun s =>
    {| last_processed := last_processed s;
       is_busy := is_busy s;
       live_status_json :=
         if writable env then Some live_status else live_status_json s;
       recognition_results_json := recognition_results_json s;
       published := published s ++ [live_status] |}).

(** The list part of [save_to_history]: append, keep the last 50. *)
Definition append_and_limit (all_results : list HistoryEntry.t)
           (result : HistoryEntry.t) : list HistoryEntry.t :=
  let all_results := all_results ++ [result] in
  if (50 <? List.length all_results)%nat
  then last_n 50 all_results
  else all_results.

Definition set_recognition_results (f : HistoryFile) (s : State) : State :=
  {| last_processed := last_processed s;
     is_busy := is_busy s;
     live_status_json := live_status_json s;
     recognition_results_json := f;
     published := published s |}.

(** [save_to_history]: any exception is logged and the file is left as
    it was. *)
Definition save_to_history (env : Env) (now : Q) (filename : string)
           (recognized : list string) : M State unit :=
  let result :=
    {| HistoryEntry.timestamp := now;
       HistoryEntry.camera := camera_id;
       HistoryEntry.image := filename;
       HistoryEntry.recognized := recognized |} in
  modify (fun s =>
    match recognition_results_json s with
    | Unreadable => s
    | Absent =>
        if writable env
        then set_recognition_results (Stored (append_and_limit [] result)) s
        else s
    | Stored all_results =>
        if writable env
        then set_recognition_results
               (Stored (append_and_limit all_results result)) s
        else s
    end).


(** [os.path.basename]: what follows the last [/]. *)
Fixpoint basename_from (acc path : string) : string :=
  match path with
  | EmptyString => acc
  | String c rest =>
      if Ascii.eqb c "/"
      then basename_from EmptyString rest
      else basename_from (String.append acc (String c EmptyString)) rest
  end.

Definition basename (path : string) : string := basename_from EmptyString path.

(** [x.get('similarity', 0)] *)
Definition get_similarity (x : Subject) : Q :=
  match similarity x with
  | Some q => q
  | None => 0
  end.

(** [max(subjects, key=lambda x: x.get('similarity', 0))] on a non-empty
    list: the running maximum is replaced only by a strictly greater key,
    so the first of several maximal subjects is returned. *)
Fixpoint max_from (best : Subject) (rest : list Subject) : Subject :=
  match rest with
  | [] => best
  | x :: rest' =>
      if negb (Qle_bool (get_similarity x) (get_similarity best))
      then max_from x rest'
      else max_from best rest'
  end.

(** [face.get('subjects', [])] *)
Definition get_subjects (face : Face) : list Subject :=
  match subjects face with
  | Some l => l
  | None => []
  end.

(** [result['data'].get('result', [])] *)
Definition get_result (data : Data) : list Face :=
  match result data with
  | Some l => l
  | None => []
  end.

(** The [for face in faces] loop with its locals [recognized] and
    [unknown]. *)
Fixpoint faces_loop (faces : list Face) (recognized : list string)
         (unknown : nat) : outcome (list string * nat) :=
  match faces with
  | [] => Return (recognized, unknown)
  | face :: rest =>
      match get_subjects face with
      | [] => faces_loop rest recognized (unknown + 1)
      | x :: xs =>
          let best := max_from x xs in
          if Qle_bool 0.7 (get_similarity best)
          then match subject best with
               | Some name => faces_loop rest (recognized ++ [name]) unknown
               | None => Raise "KeyError: 'subject'"
               end
          else faces_loop rest recognized (unknown + 1)
      end
  end.

Definition set_last_processed (image_path : string) (s : State) : State :=
  {| last_processed := Some image_path;
     is_busy := is_busy s;
     live_status_json := live_status_json s;
     recognition_results_json := recognition_results_json s;
     published := published s |}.

Definition process_image (env : Env) (image_path : string) : M State unit :=
  let filename := basename image_path in
  update_live_status env processing (MsgProcessing filename) []
                     (Some filename) ;;;
  let result := recognize_face (net env) image_path in
  let duration := duration env image_path in
  match result with
  | Success data _ =>
      let faces := get_result data in
      match faces with
      | [] => update_live_status env gray MsgNoFaces [] (Some filename)
      | _ =>
          counted <- lift (faces_loop faces [] 0) ;;
          let '(recognized, unknown) := counted in
          match recognized with
          | _ :: _ =>
              update_live_status env green
                (MsgRecognized (join ", " recognized)) recognized
                (Some filename) ;;;
              save_to_history env (datetime_now env image_path) filename
                              recognized
          | [] =>
              update_live_status env red (MsgUnknown unknown) []
                                 (Some filename)
          end
      end
  | Failure error =>
      if str_in "Timeout" error
      then update_live_status env gray (MsgApiSlow duration) []
                              (Some filename)
      else update_live_status env red MsgApiError [] (Some filename)
  end ;;;
  modify (set_last_processed image_path).

(* ------------------------------------------------------------------ *)
(** ** [run_loop] *)

(** [self.config.get('check_interval', 1.5)] *)
Definition get_check_interval : Q :=
  match check_interval config with
  | Some q => q
  | None => 1.5
  end.

(** The locals of [run_loop] that live across iterations. *)
Record Locals : Type := {
  consecutive_empty : nat;
  last_heartbeat : Q
}.

Definition initial_locals : Locals :=
  {| consecutive_empty := 0; last_heartbeat := 0 |}.

(** The argument of the [time.sleep] that ends a normal iteration. *)
Definition next_delay (check_interval : Q) (consecutive_empty : nat) : Q :=
  if (consecutive_empty =? 0)%nat then 0.2
  else if (consecutive_empty <? 3)%nat then check_interval * 0.3
  else if (consecutive_empty <? 10)%nat then check_interval
  else check_interval * 1.2.

Definition set_is_busy (b : bool) (s : State) : State :=
  {| last_processed := last_processed s;
     is_busy := b;
     live_status_json := live_status_json s;
     recognition_results_json := recognition_results_json s;
     published := published s |}.

(** The body of the [try] inside [while True], up to the sleep: the new
    locals and the delay to sleep. *)
Definition iteration (env : Env) (l : Locals) : M State (Locals * Q) :=
  l' <- (if lock_acquired env
         then
           s <- get ;;
           if negb (is_busy s)
           then
             modify (set_is_busy true) ;;;
             let new_images :=
               get_newest_images (file_pattern config) (folder env)
                                 (last_processed s) 3 in
             l' <- match new_images with
                   | _ :: _ =>
                       for_each (process_image env) new_images ;;;
                       ret {| consecutive_empty := 0;
                              last_heartbeat := last_heartbeat l |}
                   | [] =>
                       let consecutive_empty := (consecutive_empty l + 1)%nat in
                       if negb (Qle_bool (current_time env - last_heartbeat l) 30)
                       then
                         update_live_status env gray
                           (MsgHeartbeat consecutive_empty) [] None ;;;
                         ret {| consecutive_empty := consecutive_empty;
                                last_heartbeat := current_time env |}
                       else
                         ret {| consecutive_empty := consecutive_empty;
                                last_heartbeat := last_heartbeat l |}
                   end ;;
             modify (set_is_busy false) ;;;
             ret l'
           else ret l
         else ret l) ;;
  ret (l', next_delay get_check_interval (consecutive_empty l')).

(** One pass of [while True]: the [except Exception] handler publishes a
    red status and sleeps [check_interval]; the locals keep the values they
    had when the exception was raised. *)
Definition tick (env : Env) (l : Locals) (s : State) : Locals * Q * State :=
  match iteration env l s with
  | (Return (l', delay), s') => (l', delay, s')
  | (Raise str_e, s') =>
      (l, get_check_interval,
       snd (update_live_status env red (MsgSystemError str_e) [] None s'))
  end.

(** The status published before the loop is entered. *)
Definition start (env : Env) (s : State) : State :=
  snd (update_live_status env gray MsgStarted [] None s).

(** [n] passes of the loop on a clock that advances by the sleeps alone:
    the pass that starts at time [t] meets [world t].  Returns the locals,
    the clock and the state after the last sleep. *)
Fixpoint run_loop (n : nat) (world : Q -> Env) (t : Q) (l : Locals)
         (s : State) : Locals * Q * State :=
  match n with
  | O => (l, t, s)
  | S n' =>
      let '(l', delay, s') := tick (world t) l s in
      run_loop n' world (t + delay) l' s'
  end.

End Monitor.

(* ------------------------------------------------------------------ *)
(** ** Vocabulary of the statements *)

Definition str_lt (a b : string) : Prop := String.ltb a b = true.
Definition str_le (a b : string) : Prop := String.leb a b = true.

(** [sel] is [l] with some elements dropped. *)
Inductive subseq {A : Type} : list A -> list A -> Prop :=
| subseq_nil : subseq [] []
| subseq_skip : forall x sel l, subseq sel l -> subseq sel (x :: l)
| subseq_take : forall x sel l, subseq sel l -> subseq (x :: sel) (x :: l).

(** The path sorts strictly after the cursor, or the cursor is unset. *)
Definition after_cursor (last_processed : option string) (p : string) : Prop :=
  truthy last_processed = false
  \/ exists c, last_processed = Some c /\ str_lt c p.

Definition after_cursorb (last_processed : option string) (p : string) : bool :=
  negb (truthy last_processed) || gt_last_processed last_processed p.

(** The file is at least 0.5 s old and larger than 3000 bytes. *)
Definition stable (fs : Folder) (p : string) : Prop :=
  exists mtime size,
    getmtime fs p = Some mtime /\ getsize fs p = Some size
    /\ (0.5 <= time_time fs p - mtime)%Q /\ (3000 < size)%Z.

Definition stableb (fs : Folder) (p : string) : bool :=
  match getmtime fs p, getsize fs p with
  | Some mtime, Some size =>
      Qle_bool 0.5 (time_time fs p - mtime) && (3000 <? size)%Z
  | _, _ => false
  end.

(** Both stats of the path can be read. *)
Definition readable (fs : Folder) (p : string) : Prop :=
  getmtime fs p <> None /\ getsize fs p <> None.

(** The number of files after which the loop breaks: [max_count], and one
    when [max_count] is not positive (the test follows the append). *)
Definition batch_cap (max_count : Z) : nat := Z.to_nat (Z.max 1 max_count).

(** ** Folders used in the examples *)

(** A listing in which every path has the same stats. *)
Definition uniform_folder (files : list string) (now mtime : Q) (size : Z)
  : Folder :=
  {| glob_glob := files;
     time_time := fun _ => now;
     getmtime := fun _ => Some mtime;
     getsize := fun _ => Some size |}.

(** One capture of exactly 3000 bytes, written one second ago. *)
Definition folder_3000_bytes : Folder :=
  uniform_folder ["cam1_0001.jpg"] 100 99 3000.

(** Two captures of 4000 bytes: the first one second old, the second a
    tenth of a second. *)
Definition folder_fresh_second : Folder :=
  {| glob_glob := ["cam1_0002.jpg"; "cam1_0001.jpg"];
     time_time := fun _ => 100;
     getmtime := fun p => if String.eqb p "cam1_0001.jpg"
                          then Some 99 else Some 99.9;
     getsize := fun _ => Some 4000%Z |}.

(** ** Faces *)

(** The subject [max] picks for a face, when the face has subjects. *)
Definition best_subject (face : Face) : option Subject :=
  match get_subjects face with
  | [] => None
  | x :: xs => Some (max_from x xs)
  end.

(** The face has a subject and the best one reaches 0.7. *)
Definition is_recognized (face : Face) : bool :=
  match best_subject face with
  | Some best => Qle_bool 0.7 (get_similarity best)
  | None => false
  end.

(** The name the best subject of a face carries, if any. *)
Definition best_name (face : Face) : list string :=
  match best_subject face with
  | Some best =>
      match subject best with
      | Some name => [name]
      | None => []
      end
  | None => []
  end.

(** The names of the recognized faces, in the order of the faces. *)
Definition recognized_names (faces : list Face) : list string :=
  flat_map best_name (filter is_recognized faces).

(** The number of faces that are not recognized. *)
Definition unknown_count (faces : list Face) : nat :=
  List.length (filter (fun face => negb (is_recognized face)) faces).

(** Every subject that would be appended carries its ['subject'] key, as
    the service's reply format has it. *)
Definition names_present (faces : list Face) : Prop :=
  forall face best,
    In face faces -> best_subject face = Some best ->
    (0.7 <= get_similarity best)%Q -> subject best <> None.

Definition face_of (subjects : list (string * Q)) : Face :=
  {| subjects :=
       Some (map (fun ns => {| subject := Some (fst ns);
                               similarity := Some (snd ns) |}) subjects) |}.

(** ** History *)

(** The entries a history file holds; none when the file does not exist. *)
Definition entries_of (f : HistoryFile) : list HistoryEntry.t :=
  match f with
  | Stored entries => entries
  | _ => []
  end.

Definition entry_of (camera_id : string) (now : Q) (filename : string)
           (recognized : list string) : HistoryEntry.t :=
  {| HistoryEntry.timestamp := now;
     HistoryEntry.camera := camera_id;
     HistoryEntry.image := filename;
     HistoryEntry.recognized := recognized |}.

(** ** States and surroundings used in the examples *)

Definition empty_folder : Folder :=
  {| glob_glob := [];
     time_time := fun _ => 0;
     getmtime := fun _ => None;
     getsize := fun _ => None |}.

(** Surroundings in which the lock is free, the disk can be written, the
    clock reads [t], the folder is [fs] and every request is answered by
    [reply]. *)
Definition env_at (t : Q) (fs : Folder) (reply : string -> Exchange) : Env :=
  {| current_time := t;
     lock_acquired := true;
     folder := fs;
     net := reply;
     duration := fun _ => 0.1;
     datetime_now := fun _ => t;
     writable := true |}.

(** A monitor that has just been constructed, next to a given history. *)
Definition fresh_state (history : HistoryFile) : State :=
  {| last_processed := None;
     is_busy := false;
     live_status_json := None;
     recognition_results_json := history;
     published := [] |}.

(** Fifty earlier recognitions, stamped 1 to 50. *)
Definition fifty_entries : list HistoryEntry.t :=
  map (fun n => entry_of "ESP32-001" (inject_Z (Z.of_nat n)) "old.jpg" ["alice"])
      (seq 1 50).

Definition default_config : Config :=
  {| folder_path := "/home/pi/pull-api/camera_images/ESP32-001";
     file_pattern := Some "esp32-001_*.jpg";
     check_interval := Some 1.5 |}.

(** ** Reading the published statuses *)

(** The status published last. *)
Definition latest_status (s : State) : option LiveStatus.t :=
  List.last (map Some (published s)) None.

Definition latest_color (s : State) : option Color :=
  option_map LiveStatus.status (latest_status s).

(** The string has no occurrence of the character. *)
Fixpoint lacks (c : ascii) (s : string) : bool :=
  match s with
  | EmptyString => true
  | String a rest => negb (Ascii.eqb a c) && lacks c rest
  end.

(** A successful reply is well formed when the subjects whose names the
    loop reads have one; a failure always is. *)
Definition reply_well_formed (r : ApiResult) : Prop :=
  match r with
  | Success data _ => names_present (get_result data)
  | Failure _ => True
  end.

(** The message of [FileNotFoundError] for a capture under a folder named
    after its camera, [Timeout]. *)
Definition missing_file_path : string := "/data/Timeout/esp32-001_0001.jpg".

Definition missing_file_message : string :=
  "[Errno 2] No such file or directory: '/data/Timeout/esp32-001_0001.jpg'".

(** The reply of the service to an image without a face: status 400 and a
    body with the sentinel text. *)
Definition no_face_reply : Exchange :=
  Response 400 "No face is found in the given image" (Raise "not read").

(** ** Reading a run of the loop *)

(** The heartbeat status, by the value of the counter it reports. *)
Definition heartbeat_status (camera_id : string) (consecutive_empty : nat)
  : LiveStatus.t :=
  {| LiveStatus.camera_id := camera_id;
     LiveStatus.status := gray;
     LiveStatus.message := MsgHeartbeat consecutive_empty;
     LiveStatus.recognized := [];
     LiveStatus.image_file := None |}.

(** The counter values of the heartbeats among the published statuses. *)
Definition heartbeats_of (s : State) : list nat :=
  flat_map (fun st => match LiveStatus.message st with
                      | MsgHeartbeat n => [n]
                      | _ => []
                      end) (published s).

(** More than 30 s lie between the clock reading and the last heartbeat. *)
Definition heartbeat_due (now : Q) (l : Locals) : bool :=
  negb (Qle_bool (now - last_heartbeat l) 30).

(** The counter values at which [n] passes over an empty folder publish a
    heartbeat, when the first pass starts at [t] and the clock advances by
    the sleeps. *)
Fixpoint idle_heartbeats (baseline : Q) (n : nat) (t : Q) (l : Locals)
  : list nat :=
  match n with
  | O => []
  | S n' =>
      let count := (consecutive_empty l + 1)%nat in
      let t' := (t + next_delay baseline count)%Q in
      if heartbeat_due t l
      then count :: idle_heartbeats baseline n' t'
                      {| consecutive_empty := count; last_heartbeat := t |}
      else idle_heartbeats baseline n' t'
             {| consecutive_empty := count;
                last_heartbeat := last_heartbeat l |}
  end.

(** A world whose folder stays empty. *)
Definition idle_world (t : Q) : Env := env_at t empty_folder (fun _ => PostTimeout).

(** The same surroundings around another folder. *)
Definition with_folder (fs : Folder) (env : Env) : Env :=
  {| current_time := current_time env;
     lock_acquired := lock_acquired env;
     folder := fs;
     net := net env;
     duration := duration env;
     datetime_now := datetime_now env;
     writable := writable env |}.

(** The scan of this pass ends in its [except] clause: the pattern is
    missing from the configuration, or a stat raises on a file the loop
    examines. *)
Definition scan_fails (config : Config) (env : Env) (s : State) : Prop :=
  file_pattern config = None
  \/ exists e,
      scan_loop (folder env) (last_processed s) 3
                (list_sort (glob_glob (folder env))) [] false
      = Raise e.

(** A folder whose only capture is removed between the listing and the
    stat. *)
Definition folder_with_vanished_file : Folder :=
  {| glob_glob := ["/cam/esp32-001_0001.jpg"];
     time_time := fun _ => 100;
     getmtime := fun _ => None;
     getsize := fun _ => None |}.

(** ** Order on cursors *)

Definition cursor_le (a b : option string) : Prop :=
  match a, b with
  | None, _ => True
  | Some x, Some y => str_le x y
  | Some _, None => False
  end.

(** One call of [process_image] leaves the cursor alone or moves it to a
    path strictly after it. *)
Definition cursor_step (a b : option string) : Prop :=
  b = a \/ exists p, b = Some p /\ after_cursor a p.

Fixpoint cursor_chain (a : option string) (trace : list (option string))
  : Prop :=
  match trace with
  | [] => True
  | b :: rest => cursor_step a b /\ cursor_chain b rest
  end.

(** The cursor after each call of [process_image] in the batch loop, up to
    and including a call that raises. *)
Fixpoint cursor_trace (camera_id : string) (env : Env) (images : list string)
         (s : State) : list (option string) :=
  match images with
  | [] => []
  | image_path :: rest =>
      match process_image camera_id env image_path s with
      | (Return _, s') =>
          last_processed s' :: cursor_trace camera_id env rest s'
      | (Raise _, s') => [last_processed s']
      end
  end.

(** Three captures, one second old, 4000 bytes each, recognized as alice. *)
Definition folder_of_three : Folder :=
  uniform_folder ["/cam/c_0002.jpg"; "/cam/c_0003.jpg"; "/cam/c_0001.jpg"]
                 100 99 4000.

Definition alice_reply : Exchange :=
  Response 200 "" (Return {| result := Some [face_of [("alice", 0.82)]] |}).

(** A world whose folder always holds the same three captures. *)
Definition world_of_three (t : Q) : Env :=
  env_at t folder_of_three (fun _ => alice_reply).

(** What [last_processed_found] being set tells about the files still to
    come in a sorted listing: the cursor is set and none of them sorts
    before it. *)
Definition found_inv (last_processed : option string) (found : bool)
           (files : list string) : Prop :=
  found = true ->
  exists c, last_processed = Some c /\ truthy last_processed = true
            /\ Forall (str_le c) files.

(** ** Paths *)

(** [b.startswith('/')] *)
Definition starts_with_sep (b : string) : bool :=
  match b with
  | String c _ => Ascii.eqb c "/"
  | EmptyString => false
  end.

(** [a.endswith('/')] *)
Fixpoint ends_with_sep (a : string) : bool :=
  match a with
  | EmptyString => false
  | String c EmptyString => Ascii.eqb c "/"
  | String _ rest => ends_with_sep rest
  end.

(** [os.path.join(a, b)] on POSIX. *)
Definition path_join (a b : string) : string :=
  if starts_with_sep b then b
  else match a with
       | EmptyString => b
       | _ => if ends_with_sep a
              then String.append a b
              else String.append a (String "/" b)
       end.

(** The same surroundings with another service. *)
Definition with_net (reply : string -> Exchange) (env : Env) : Env :=
  {| current_time := current_time env;
     lock_acquired := lock_acquired env;
     folder := folder env;
     net := reply;
     duration := duration env;
     datetime_now := datetime_now env;
     writable := writable env |}.

(** A reply with status 200 and an empty [result] list. *)
Definition empty_result_reply : Exchange :=
  Response 200 "" (Return {| result := Some [] |}).

(** ** The images a run hands to [process_image] *)

(** The images of a batch on which [process_image] is called: all of them,
    or those up to and including the one on which it raises. *)
Fixpoint batch_calls (camera_id : string) (env : Env) (images : list string)
         (s : State) : list string :=
  match images with
  | [] => []
  | image_path :: rest =>
      match process_image camera_id env image_path s with
      | (Return _, s') => image_path :: batch_calls camera_id env rest s'
      | (Raise _, _) => [image_path]
      end
  end.

(** The calls of one pass: those of its batch when the pass gets the lock
    and the monitor is not busy, none otherwise. *)
Definition pass_calls (camera_id : string) (config : Config) (env : Env)
           (s : State) : list string :=
  if lock_acquired env && negb (is_busy s)
  then batch_calls camera_id env
         (get_newest_images (file_pattern config) (folder env)
                            (last_processed s) 3)
         (set_is_busy true s)
  else [].

(** The calls of [n] passes, in order. *)
Fixpoint run_calls (camera_id : string) (config : Config) (n : nat)
         (world : Q -> Env) (t : Q) (l : Locals) (s : State) : list string :=
  match n with
  | O => []
  | S n' =>
      let '(l', delay, s') := tick camera_id config (world t) l s in
      pass_calls camera_id config (world t) s
      ++ run_calls camera_id config n' world (t + delay) l' s'
  end.

(** The file names announced by the [processing] statuses published so
    far. *)
Definition announced (s : State) : list string :=
  flat_map (fun st => match LiveStatus.message st with
                      | MsgProcessing filename => [filename]
                      | _ => []
                      end) (published s).

(** [live_status.json] holds the status published last. *)
Definition file_is_current (s : State) : Prop :=
  live_status_json s = latest_status s.

(** A reply with a recognized face whose subject has no name. *)
Definition nameless_reply : Exchange :=
  Response 200 ""
    (Return {| result :=
                 Some [{| subjects :=
                            Some [{| subject := None;
                                     similarity := Some 0.9 |}] |}] |}).

(** A world with three captures and a service that sends nameless
    subjects. *)
Definition world_of_nameless (t : Q) : Env :=
  env_at t folder_of_three (fun _ => nameless_reply).

(** The images processed so far lie at or before the cursor, unless the
    monitor is stuck busy. *)
Definition calls_behind_cursor (s : State) (prev : list string) : Prop :=
  is_busy s = true
  \/ Forall (fun c => exists p, last_processed s = Some p
                                /\ p <> EmptyString /\ str_le c p) prev.

(** The captures of a folder that are old and large enough, in the order
    in which a scan lists them. *)
Definition stable_files (fs : Folder) : list string :=
  filter (stableb fs) (list_sort (glob_glob fs)).

(* ------------------------------------------------------------------ *)
(** ** The downloader of [pull-api/pull.py] *)

Module Pull.

(** A value loaded from YAML (or built as a Python literal). *)
#[warnings="-register-all"] Inductive yaml : Type :=
| YNull
| YBool (b : bool)
| YInt (n : Z)
| YFloat (q : Q)
| YStr (s : string)
| YList (items : list yaml)
| YDict (entries : list (yaml * yaml)).

(** [d.get(key)] for a [dict] and a [str] key: only a [str] key can be
    equal to it.  (A [dict] holds a key once.) *)
Fixpoint dict_get (key : string) (entries : list (yaml * yaml)) : option yaml :=
  match entries with
  | [] => None
  | (YStr k, v) :: rest =>
      if String.eqb k key then Some v else dict_get key rest
  | _ :: rest => dict_get key rest
  end.

(** [item == key] for a [str] key. *)
Definition is_str (key : string) (item : yaml) : bool :=
  match item with
  | YStr s => String.eqb s key
  | _ => false
  end.

(** [key in value] for a [str] key: a key of a [dict], an element of a
    [list], a substring of a [str]; [TypeError] for anything else. *)
Definition contains (key : string) (value : yaml) : outcome bool :=
  match value with
  | YDict entries =>
      Return (match dict_get key entries with Some _ => true | None => false end)
  | YList items => Return (existsb (is_str key) items)
  | YStr s => Return (str_in key s)
  | _ => Raise "TypeError"
  end.

(** The [for i, camera in enumerate(config['cameras'])] loop of
    [_validate_config]; [i] is the index of the first camera of the list. *)
Fixpoint validate_cameras (i : Z) (cameras : list yaml) : outcome unit :=
  match cameras with
  | [] => Return tt
  | camera :: rest =>
      match contains "name" camera with
      | Raise e => Raise e
      | Return false =>
          Raise (String.append "Kamera "
                   (String.append (str_of_int (i + 1)) ": 'name' fehlt"))
      | Return true =>
          match contains "ip" camera with
          | Raise e => Raise e
          | Return false =>
              Raise (String.append "Kamera "
                       (String.append (str_of_int (i + 1)) ": 'ip' fehlt"))
          | Return true => validate_cameras (i + 1) rest
          end
      end
  end.

Definition _validate_config (config : yaml) : outcome unit :=
  match config with
  | YDict entries =>
      match dict_get "cameras" entries with
      | None => Raise "'cameras' Sektion fehlt in der Konfiguration"
      | Some (YList cameras) =>
          match cameras with
          | [] => Raise "Mindestens eine Kamera muss konfiguriert sein"
          | _ => validate_cameras 0 cameras
          end
      | Some _ => Raise "'cameras' muss eine Liste sein"
      end
  | _ => Raise "Konfiguration muss ein Dictionary sein"
  end.

(** The camera entry [create_simple_config] builds for the [i]-th
    address. *)
Definition simple_camera (i : Z) (ip : yaml) : yaml :=
  YDict [(YStr "name", YStr (String.append "Kamera_" (str_of_int i)));
         (YStr "ip", ip);
         (YStr "port", YInt 80);
         (YStr "endpoint", YStr "/api/capture");
         (YStr "enabled", YBool true);
         (YStr "folder", YStr (String.append "camera_" (str_of_int i)))].

(** [for i, ip in enumerate(cameras_ips, i)] *)
Fixpoint simple_cameras (i : Z) (cameras_ips : list yaml) : list yaml :=
  match cameras_ips with
  | [] => []
  | ip :: rest => simple_camera i ip :: simple_cameras (i + 1) rest
  end.

(** The configuration [create_simple_config] writes. *)
Definition create_simple_config (cameras_ips : list yaml) : yaml :=
  YDict [(YStr "global_settings",
          YDict [(YStr "interval", YInt 2);
                 (YStr "max_images", YInt 5);
                 (YStr "timeout", YInt 10);
                 (YStr "base_folder", YStr "camera_images")]);
         (YStr "cameras", YList (simple_cameras 1 cameras_ips))].

(** [s.endswith(suffix)] *)
Definition ends_with (suffix s : string) : bool :=
  (String.length suffix <=? String.length s)%nat
  && String.eqb (String.substring (String.length s - String.length suffix)
                                  (String.length suffix) s)
                suffix.

(** [l[k:]] for any [int] [k]: a negative [k] counts from the end. *)
Definition slice_from {A : Type} (k : Z) (l : list A) : list A :=
  let len := Z.of_nat (List.length l) in
  let start := if (k <? 0)%Z then Z.max 0 (len + k) else Z.min k len in
  skipn (Z.to_nat start) l.

(** [image_files.sort(key=lambda x: x[1], reverse=True)]: newest first,
    and files of equal time in the order they had (the sort is stable). *)
Fixpoint insert_newest_first (x : string * Q) (l : list (string * Q))
  : list (string * Q) :=
  match l with
  | [] => [x]
  | y :: rest =>
      if Qle_bool (snd y) (snd x) then x :: l
      else y :: insert_newest_first x rest
  end.

Fixpoint sort_newest_first (l : list (string * Q)) : list (string * Q) :=
  match l with
  | [] => []
  | x :: rest => insert_newest_first x (sort_newest_first rest)
  end.

(** What [_cleanup_old_images] sees of a folder. *)
Record Directory : Type := {
  (** [os.listdir(folder_path)]; [None] when it raises *)
  listdir : option (list string);
  (** [os.path.getctime(filepath)]; [None] when it raises *)
  getctime : string -> option Q;
  (** whether [os.remove(filepath)] succeeds *)
  removable : string -> bool
}.

(** [s[:-n]] for a string of at least [n] characters. *)
Definition drop_last (n : nat) (s : string) : string :=
  String.substring 0 (String.length s - n) s.

(** [s.replace(old, new)] for a non-empty [old], left to right, without
    overlaps; [skip] characters of an occurrence are still to be passed. *)
Fixpoint replace_from (skip : nat) (old new s : string) : string :=
  match s with
  | EmptyString => EmptyString
  | String c rest =>
      match skip with
      | S k => replace_from k old new rest
      | O =>
          if String.prefix old s
          then String.append new
                 (replace_from (String.length old - 1) old new rest)
          else String c (replace_from 0 old new rest)
      end
  end.

Definition replace (old new s : string) : string := replace_from 0 old new s.

(** A [datetime]: its fields are within their calendar ranges. *)
Record datetime : Type := {
  year : N;
  month : N;
  day : N;
  hour : N;
  minute : N;
  second : N;
  microsecond : N
}.

(** The decimal digit [d] as a character. *)
Definition digit (d : N) : ascii := ascii_of_N (48 + d).

(** A number below [10 ^ width] written with [width] digits, zeros in
    front. *)
Fixpoint zero_padded (width : nat) (n : N) : string :=
  match width with
  | O => EmptyString
  | S w =>
      String.append (zero_padded w (n / 10))
                    (String (digit (n mod 10)) EmptyString)
  end.

(** [now.strftime("%Y%m%d_%H%M%S_%f")] for a year of four digits. *)
Definition strftime (now : datetime) : string :=
  String.append (zero_padded 4 (year now))
    (String.append (zero_padded 2 (month now))
       (String.append (zero_padded 2 (day now))
          (String "_"
             (String.append (zero_padded 2 (hour now))
                (String.append (zero_padded 2 (minute now))
                   (String.append (zero_padded 2 (second now))
                      (String "_" (zero_padded 6 (microsecond now))))))))).

(** The UTF-8 bytes of the three umlauts the file name replaces. *)
Definition a_umlaut : string :=
  String (ascii_of_nat 195) (String (ascii_of_nat 164) EmptyString).
Definition o_umlaut : string :=
  String (ascii_of_nat 195) (String (ascii_of_nat 182) EmptyString).
Definition u_umlaut : string :=
  String (ascii_of_nat 195) (String (ascii_of_nat 188) EmptyString).

Section WithLower.

(** [str.lower] *)
Variable str_lower : string -> string.

(** [file.lower().endswith(('.jpg', '.jpeg', '.png'))] *)
Definition is_image (file : string) : bool :=
  ends_with ".jpg" (str_lower file)
  || ends_with ".jpeg" (str_lower file)
  || ends_with ".png" (str_lower file).

(** The first loop of [_cleanup_old_images]: the images of the listing with
    their creation times. *)
Fixpoint collect_images (dir : Directory) (folder_path : string)
         (files : list string) (image_files : list (string * Q))
  : outcome (list (string * Q)) :=
  match files with
  | [] => Return image_files
  | file :: rest =>
      if is_image file
      then
        let filepath := path_join folder_path file in
        match getctime dir filepath with
        | None => Raise "getctime"
        | Some creation_time =>
            collect_images dir folder_path rest
                           (image_files ++ [(filepath, creation_time)])
        end
      else collect_images dir folder_path rest image_files
  end.

(** The second loop: remove until a removal raises. *)
Fixpoint remove_all (dir : Directory) (files_to_delete : list (string * Q))
  : list string :=
  match files_to_delete with
  | [] => []
  | (filepath, _) :: rest =>
      if removable dir filepath
      then filepath :: remove_all dir rest
      else []
  end.

(** [_cleanup_old_images]: the paths it removes, in order.  Any exception
    ends the method. *)
Definition _cleanup_old_images (dir : Directory) (folder_path : string)
           (max_images : Z) : list string :=
  match listdir dir with
  | None => []
  | Some files =>
      match collect_images dir folder_path files [] with
      | Raise _ => []
      | Return image_files =>
          let image_files := sort_newest_first image_files in
          if (max_images <=? Z.of_nat (List.length image_files))%Z
          then remove_all dir (slice_from (max_images - 1) image_files)
          else []
      end
  end.

Definition _generate_filename (camera_name : string) (now : datetime)
  : string :=
  let timestamp := drop_last 3 (strftime now) in
  let safe_name :=
    replace u_umlaut "ue"
      (replace o_umlaut "oe"
         (replace a_umlaut "ae"
            (replace " " "_" (str_lower camera_name)))) in
  String.append safe_name
    (String "_" (String.append timestamp ".jpg")).

End WithLower.

End Pull.

(** ** Reading a downloader configuration *)

(** The camera entry mentions the key: [key in camera] is true. *)
Definition camera_mentions (key : string) (camera : Pull.yaml) : Prop :=
  Pull.contains key camera = Return true.

(** The entry passes both tests of the validation loop. *)
Definition camera_described (camera : Pull.yaml) : Prop :=
  camera_mentions "name" camera /\ camera_mentions "ip" camera.

(** [camera.get(key)] when the camera is a [dict]. *)
Definition camera_field (key : string) (camera : Pull.yaml)
  : option Pull.yaml :=
  match camera with
  | Pull.YDict entries => Pull.dict_get key entries
  | _ => None
  end.

(** The message of the loop for the camera at index [i] (from 0) and a
    missing key. *)
Definition missing_key_message (i : nat) (key : string) : string :=
  String.append "Kamera "
    (String.append (str_of_int (Z.of_nat i + 1))
       (String.append ": '" (String.append key "' fehlt"))).

(** ** Reading a cleanup *)

(** The paths of the images of a listing, in listing order. *)
Definition image_paths (str_lower : string -> string) (folder_path : string)
           (files : list string) : list string :=
  map (path_join folder_path) (filter (Pull.is_image str_lower) files).

(** The first path was created no earlier than the second. *)
Definition created_no_earlier (dir : Pull.Directory) (k r : string) : Prop :=
  forall tk tr,
    Pull.getctime dir k = Some tk -> Pull.getctime dir r = Some tr ->
    (tr <= tk)%Q.

(** Every image of the listing has a creation time and can be removed. *)
Definition cleanup_unhindered (str_lower : string -> string)
           (dir : Pull.Directory) (folder_path : string)
           (files : list string) : Prop :=
  forall p, In p (image_paths str_lower folder_path files) ->
            Pull.getctime dir p <> None /\ Pull.removable dir p = true.

(** A folder with four captures created at times 1 to 4 and a text file. *)
Definition directory_of_four : Pull.Directory :=
  {| Pull.listdir := Some ["c2.jpg"; "notes.txt"; "c4.jpg"; "c1.jpg"; "c3.png"];
     Pull.getctime := fun p =>
       if String.eqb p "cam/c1.jpg" then Some 1
       else if String.eqb p "cam/c2.jpg" then Some 2
       else if String.eqb p "cam/c3.png" then Some 3
       else Some 4;
     Pull.removable := fun _ => true |}.

(** ** Reading a file name *)

(** The fields of a [datetime] are in range, the year has four digits. *)
Definition valid_datetime (d : Pull.datetime) : Prop :=
  (1000 <= Pull.year d <= 9999
   /\ 1 <= Pull.month d <= 12
   /\ 1 <= Pull.day d <= 31
   /\ Pull.hour d <= 23
   /\ Pull.minute d <= 59
   /\ Pull.second d <= 59
   /\ Pull.microsecond d <= 999999)%N.

(** What a file name keeps of the time: the date and the time of day to
    the millisecond. *)
Definition stamp_key (d : Pull.datetime) : list N :=
  [Pull.year d; Pull.month d; Pull.day d; Pull.hour d; Pull.minute d;
   Pull.second d; (Pull.microsecond d / 1000)%N].

(** Comparison of two keys, first field first. *)
Fixpoint lex_compare (a b : list N) : comparison :=
  match a, b with
  | [], [] => Eq
  | [], _ :: _ => Lt
  | _ :: _, [] => Gt
  | x :: a', y :: b' =>
      match (x ?= y)%N with
      | Eq => lex_compare a' b'
      | c => c
      end
  end.

Definition new_year_2025 : Pull.datetime :=
  {| Pull.year := 2025; Pull.month := 1; Pull.day := 1; Pull.hour := 0;
     Pull.minute := 0; Pull.second := 0; Pull.microsecond := 1999 |}.

Definition last_second_2024 : Pull.datetime :=
  {| Pull.year := 2024; Pull.month := 12; Pull.day := 31; Pull.hour := 23;
     Pull.minute := 59; Pull.second := 59; Pull.microsecond := 999999 |}.

(** Five captures written at time 99, listed out of order, in a folder
    whose clock is the time of the pass; one of them is too small. *)
Definition aging_folder (t : Q) : Folder :=
  {| glob_glob := ["/cam/c_0004.jpg"; "/cam/c_0002.jpg"; "/cam/c_0005.jpg";
                   "/cam/c_0003.jpg"; "/cam/c_0001.jpg"];
     time_time := fun _ => t;
     getmtime := fun _ => Some 99;
     getsize := fun p => if String.eqb p "/cam/c_0003.jpg"
                         then Some 2000%Z else Some 4000%Z |}.

Definition aging_world (t : Q) : Env :=
  env_at t (aging_folder t) (fun _ => alice_reply).

(** The captures of [aging_folder] that are large enough. *)
Definition large_enough (p : string) : bool :=
  negb (String.eqb p "/cam/c_0003.jpg").

(** Four captures in a folder whose clock is the time of the pass; the
    first by name was written last, at 99.8, the others at 99. *)
Definition late_folder (t : Q) : Folder :=
  {| glob_glob := ["/cam/c_0001.jpg"; "/cam/c_0002.jpg"; "/cam/c_0003.jpg";
                   "/cam/c_0004.jpg"];
     time_time := fun _ => t;
     getmtime := fun p => if String.eqb p "/cam/c_0001.jpg"
                          then Some 99.8 else Some 99;
     getsize := fun _ => Some 4000%Z |}.

Definition late_world (t : Q) : Env :=
  env_at t (late_folder t) (fun _ => alice_reply).

(** ** Reading the statuses of an image *)

(** The status that announces an image. *)
Definition processing_status (camera_id image_path : string) : LiveStatus.t :=
  {| LiveStatus.camera_id := camera_id;
     LiveStatus.status := processing;
     LiveStatus.message := MsgProcessing (basename image_path);
     LiveStatus.recognized := [];
     LiveStatus.image_file := Some (basename image_path) |}.

(** ** Reading the history over a run *)







(** ** The endpoint of the recognition service *)

(** [s.rstrip(c)] for one character [c]: the trailing [c]s are removed. *)
Fixpoint rstrip (c : ascii) (s : string) : string :=
  match s with
  | EmptyString => EmptyString
  | String a rest =>
      match rstrip c rest with
      | EmptyString =>
          if Ascii.eqb a c then EmptyString else String a EmptyString
      | stripped => String a stripped
      end
  end.

(** [SimpleCompreFaceAPI.__init__]: the address the images are posted to. *)
Definition endpoint (api_url : string) : string :=
  let api_url := rstrip "/" api_url in
  String.append api_url "/api/v1/recognition/recognize".

(** [n] slashes. *)
Fixpoint slashes (n : nat) : string :=
  match n with
  | O => EmptyString
  | S k => String "/" (slashes k)
  end.

(* ------------------------------------------------------------------ *)
(** * Properties *)

(** ** Order on paths *)

Lemma compare_refl (a : string) : String.compare a a = Eq.
Proof. apply (proj2 (String_as_OT.cmp_eq a a)). reflexivity. Qed.

Lemma ltb_irrefl (a : string) : String.ltb a a = false.
Proof. unfold String.ltb. rewrite compare_refl. reflexivity. Qed.

Lemma ltb_trans (a b c : string) : str_lt a b -> str_lt b c -> str_lt a c.
Proof.
  unfold str_lt, String.ltb. intros Hab Hbc.
  destruct (String.compare a b) eqn:Eab; try discriminate.
  destruct (String.compare b c) eqn:Ebc; try discriminate.
  apply String_as_OT.cmp_lt in Eab, Ebc.
  pose proof (String_as_OT.lt_trans _ _ _ Eab Ebc) as Hac.
  apply String_as_OT.cmp_lt in Hac. unfold String_as_OT.cmp in Hac.
  rewrite Hac. reflexivity.
Qed.

Lemma leb_iff (a b : string) : str_le a b <-> a = b \/ str_lt a b.
Proof.
  unfold str_le, str_lt, String.leb, String.ltb. split.
  - destruct (String.compare a b) eqn:E; intros H; try discriminate.
    + left. apply String.compare_eq_iff. exact E.
    + right. reflexivity.
  - intros [-> | H].
    + rewrite compare_refl. reflexivity.
    + destruct (String.compare a b); try discriminate; reflexivity.
Qed.

Lemma leb_trans (a b c : string) : str_le a b -> str_le b c -> str_le a c.
Proof.
  intros Hab Hbc. apply leb_iff in Hab, Hbc. apply leb_iff.
  destruct Hab as [-> | Hab]; [exact Hbc|].
  destruct Hbc as [<- | Hbc]; [right; exact Hab|].
  right. eapply ltb_trans; eassumption.
Qed.

Lemma leb_false_ltb (a b : string) : String.leb a b = false -> str_lt b a.
Proof.
  unfold str_lt, String.leb, String.ltb. rewrite (String.compare_antisym a b).
  destruct (String.compare b a); simpl; intros H; try discriminate; reflexivity.
Qed.

Lemma le_neq_lt (a b : string) : str_le a b -> a <> b -> str_lt a b.
Proof. intros H N. apply leb_iff in H. destruct H; [contradiction|assumption]. Qed.

Lemma lt_le (a b : string) : str_lt a b -> str_le a b.
Proof. intros H. apply leb_iff. right. exact H. Qed.

Lemma lt_neq (a b : string) : str_lt a b -> a <> b.
Proof.
  intros H ->. unfold str_lt in H. rewrite ltb_irrefl in H. discriminate.
Qed.

(** ** [list_sort] sorts *)

Lemma insert_perm (x : string) (l : list string) :
  Permutation (insert x l) (x :: l).
Proof.
  induction l as [|y l IH]; simpl.
  - apply Permutation_refl.
  - destruct (String.leb x y).
    + apply Permutation_refl.
    + eapply Permutation_trans; [apply perm_skip, IH | apply perm_swap].
Qed.

Lemma list_sort_perm (l : list string) : Permutation (list_sort l) l.
Proof.
  induction l as [|x l IH]; simpl.
  - constructor.
  - eapply Permutation_trans; [apply insert_perm | apply perm_skip, IH].
Qed.

Lemma insert_sorted (x : string) (l : list string) :
  StronglySorted str_le l -> StronglySorted str_le (insert x l).
Proof.
  induction 1 as [|y l Hs IH Hall]; simpl.
  - constructor; constructor.
  - destruct (String.leb x y) eqn:E.
    + constructor.
      * constructor; assumption.
      * constructor; [exact E|].
        eapply Forall_impl; [|exact Hall].
        intros z Hz. eapply leb_trans; [exact E | exact Hz].
    + constructor; [exact IH|].
      eapply Permutation_Forall.
      * apply Permutation_sym, insert_perm.
      * constructor; [|exact Hall].
        apply lt_le, leb_false_ltb, E.
Qed.

Lemma list_sort_sorted (l : list string) : StronglySorted str_le (list_sort l).
Proof.
  induction l as [|x l IH]; simpl.
  - constructor.
  - apply insert_sorted, IH.
Qed.

Lemma sorted_nodup_strict (l : list string) :
  StronglySorted str_le l -> NoDup l -> StronglySorted str_lt l.
Proof.
  induction 1 as [|x l Hs IH Hall]; intros Hnd.
  - constructor.
  - inversion Hnd as [|? ? Hnotin Hnd']; subst.
    constructor; [apply IH, Hnd'|].
    rewrite Forall_forall in Hall |- *. intros y Hy.
    apply le_neq_lt; [apply Hall, Hy|].
    intros ->. contradiction.
Qed.

Lemma list_sort_strict (l : list string) :
  NoDup l -> StronglySorted str_lt (list_sort l).
Proof.
  intros Hnd. apply sorted_nodup_strict; [apply list_sort_sorted|].
  eapply Permutation_NoDup; [apply Permutation_sym, list_sort_perm | exact Hnd].
Qed.

(** ** Subsequences *)

Lemma subseq_Forall {A : Type} (P : A -> Prop) (sel l : list A) :
  subseq sel l -> Forall P l -> Forall P sel.
Proof.
  induction 1; intros Hall; inversion Hall; subst; auto.
Qed.

Lemma subseq_sorted {A : Type} (R : A -> A -> Prop) (sel l : list A) :
  subseq sel l -> StronglySorted R l -> StronglySorted R sel.
Proof.
  induction 1 as [| x sel l Hsub IH | x sel l Hsub IH]; intros Hs.
  - constructor.
  - inversion Hs; subst. auto.
  - inversion Hs; subst. constructor; [auto|].
    eapply subseq_Forall; eassumption.
Qed.

Lemma subseq_In {A : Type} (sel l : list A) (x : A) :
  subseq sel l -> In x sel -> In x l.
Proof.
  induction 1; simpl; intros Hin; auto.
  destruct Hin; auto.
Qed.

Lemma subseq_nil_l {A : Type} (l : list A) : subseq [] l.
Proof. induction l; constructor; assumption. Qed.

(** ** The scan loop *)

Section ScanFacts.

Variable fs : Folder.
Variable last_processed : option string.
Variable max_count : Z.

Lemma is_last_processed_true (p : string) :
  is_last_processed last_processed p = true ->
  last_processed = Some p /\ truthy last_processed = true.
Proof.
  unfold is_last_processed. intros H. apply andb_prop in H as [Ht He].
  destruct last_processed as [c|]; [|discriminate].
  apply String.eqb_eq in He. subst. split; [reflexivity | exact Ht].
Qed.

Lemma found_inv_after_cursor (p : string) (rest : list string) :
  is_last_processed last_processed p = true ->
  StronglySorted str_le (p :: rest) ->
  found_inv last_processed true rest.
Proof.
  intros H Hs _. apply is_last_processed_true in H as [Hc Ht].
  exists p. repeat split; try assumption.
  inversion Hs; assumption.
Qed.

Lemma found_inv_tail (found : bool) (p : string) (rest : list string) :
  found_inv last_processed found (p :: rest) ->
  found_inv last_processed found rest.
Proof.
  intros H Hf. destruct (H Hf) as (c & Hc & Ht & Hall).
  exists c. repeat split; try assumption. inversion Hall; assumption.
Qed.

Lemma is_new_after_cursorb (found : bool) (p : string) (rest : list string) :
  found_inv last_processed found (p :: rest) ->
  is_last_processed last_processed p = false ->
  is_new last_processed found p = after_cursorb last_processed p.
Proof.
  intros Hinv Hnl. unfold is_new, after_cursorb.
  destruct found.
  - destruct (Hinv eq_refl) as (c & Hc & Ht & Hall).
    pose proof (Forall_inv Hall) as Hle.
    unfold is_last_processed in Hnl. rewrite Ht in Hnl. rewrite Hc in Hnl.
    simpl in Hnl.
    assert (Hne : c <> p).
    { intros ->. rewrite String.eqb_refl in Hnl. discriminate. }
    pose proof (le_neq_lt _ _ Hle Hne) as Hlt. unfold str_lt in Hlt.
    unfold gt_last_processed. rewrite Ht, Hc, Hlt. reflexivity.
  - rewrite orb_false_r. reflexivity.
Qed.

Lemma after_cursorb_spec (p : string) :
  after_cursorb last_processed p = true <-> after_cursor last_processed p.
Proof.
  unfold after_cursorb, after_cursor, gt_last_processed. split.
  - intros H. apply orb_prop in H as [H | H].
    + left. apply negb_true_iff. exact H.
    + destruct last_processed as [c|]; [|discriminate].
      right. exists c. split; [reflexivity | exact H].
  - intros [H | (c & -> & H)].
    + rewrite H. reflexivity.
    + unfold str_lt in H. rewrite H. apply orb_true_r.
Qed.

Lemma stableb_spec (p : string) : stableb fs p = true <-> stable fs p.
Proof.
  unfold stableb, stable. split.
  - destruct (getmtime fs p) as [mtime|]; [|discriminate].
    destruct (getsize fs p) as [size|]; [|discriminate].
    intros H. apply andb_prop in H as [Ha Hb].
    exists mtime, size. repeat split.
    + apply Qle_bool_iff. exact Ha.
    + apply Z.ltb_lt. exact Hb.
  - intros (mtime & size & -> & -> & Ha & Hb).
    apply andb_true_intro. split.
    + apply Qle_bool_iff. exact Ha.
    + apply Z.ltb_lt. exact Hb.
Qed.

Lemma scan_loop_sound (files : list string) :
  forall (new_files : list string) (found : bool) (out : list string),
    StronglySorted str_le files ->
    found_inv last_processed found files ->
    scan_loop fs last_processed max_count files new_files found = Return out ->
    exists sel,
      out = new_files ++ sel /\ subseq sel files
      /\ Forall (fun p => after_cursor last_processed p /\ stable fs p) sel.
Proof.
  induction files as [|p rest IH]; intros acc found out Hs Hinv Hrun;
    simpl in Hrun.
  - injection Hrun as <-. exists []. rewrite app_nil_r.
    repeat split; constructor.
  - assert (Hs' : StronglySorted str_le rest) by (inversion Hs; assumption).
    pose proof (found_inv_tail _ _ _ Hinv) as Hinv'.
    assert (Hskip : forall fnd, found_inv last_processed fnd rest ->
              scan_loop fs last_processed max_count rest acc fnd = Return out ->
              exists sel, out = acc ++ sel /\ subseq sel (p :: rest)
                /\ Forall (fun q => after_cursor last_processed q /\ stable fs q) sel).
    { intros fnd Hf Hr. destruct (IH _ _ _ Hs' Hf Hr) as (sel & -> & Hsub & Hall).
      exists sel. repeat split; [apply subseq_skip|]; assumption. }
    destruct (is_last_processed last_processed p) eqn:Hlast.
    { apply (Hskip true); [|exact Hrun].
      eapply found_inv_after_cursor; eassumption. }
    rewrite (is_new_after_cursorb _ _ _ Hinv Hlast) in Hrun.
    destruct (after_cursorb last_processed p) eqn:Hafter; [|eauto].
    destruct (getmtime fs p) as [mtime|] eqn:Hm; [|discriminate].
    destruct (Qle_bool 0.5 (time_time fs p - mtime)) eqn:Hage; [|eauto].
    destruct (getsize fs p) as [size|] eqn:Hsz; [|discriminate].
    destruct (3000 <? size)%Z eqn:Hbig; [|eauto].
    assert (Hp : after_cursor last_processed p /\ stable fs p).
    { split; [apply after_cursorb_spec, Hafter|].
      apply stableb_spec. unfold stableb. rewrite Hm, Hsz, Hage, Hbig.
      reflexivity. }
    destruct (max_count <=? Z.of_nat (List.length (acc ++ [p])))%Z.
    + injection Hrun as <-. exists [p]. repeat split.
      * apply subseq_take, subseq_nil_l.
      * constructor; [exact Hp | constructor].
    + destruct (IH _ _ _ Hs' Hinv' Hrun) as (sel & -> & Hsub & Hall).
      exists (p :: sel). rewrite <- app_assoc. repeat split.
      * apply subseq_take. exact Hsub.
      * constructor; assumption.
Qed.

Lemma scan_loop_complete (files : list string) :
  forall (new_files : list string) (found : bool),
    StronglySorted str_le files ->
    found_inv last_processed found files ->
    Forall (readable fs) files ->
    (List.length new_files < batch_cap max_count)%nat ->
    scan_loop fs last_processed max_count files new_files found
    = Return (new_files
              ++ firstn (batch_cap max_count - List.length new_files)
                   (filter (fun p => after_cursorb last_processed p
                                     && stableb fs p) files)).
Proof.
  induction files as [|p rest IH]; intros acc found Hs Hinv Hread Hlen; simpl.
  - rewrite firstn_nil, app_nil_r. reflexivity.
  - assert (Hs' : StronglySorted str_le rest) by (inversion Hs; assumption).
    pose proof (found_inv_tail _ _ _ Hinv) as Hinv'.
    inversion Hread as [|? ? [Hrm Hrs] Hread']; subst.
    destruct (is_last_processed last_processed p) eqn:Hlast.
    { assert (Hno : after_cursorb last_processed p = false).
      { apply is_last_processed_true in Hlast as [Hc Ht].
        unfold after_cursorb, gt_last_processed. rewrite Ht, Hc.
        simpl. apply ltb_irrefl. }
      rewrite Hno. simpl. apply IH; try assumption.
      eapply found_inv_after_cursor; eassumption. }
    rewrite (is_new_after_cursorb _ _ _ Hinv Hlast).
    destruct (after_cursorb last_processed p) eqn:Hafter; simpl; [|auto].
    unfold stableb.
    destruct (getmtime fs p) as [mtime|]; [|congruence].
    destruct (getsize fs p) as [size|]; [|congruence].
    destruct (Qle_bool 0.5 (time_time fs p - mtime)); simpl; [|auto].
    destruct (3000 <? size)%Z; [|auto].
    rewrite length_app. simpl.
    unfold batch_cap in *.
    destruct (max_count <=? Z.of_nat (List.length acc + 1))%Z eqn:Hcap.
    + apply Z.leb_le in Hcap.
      replace (Z.to_nat (Z.max 1 max_count) - List.length acc)%nat
        with 1%nat by lia.
      simpl. reflexivity.
    + apply Z.leb_gt in Hcap.
      rewrite IH; try assumption.
      * rewrite length_app. simpl. rewrite <- app_assoc. simpl.
        replace (Z.to_nat (Z.max 1 max_count) - List.length acc)%nat
          with (S (Z.to_nat (Z.max 1 max_count) - (List.length acc + 1)))%nat
          by lia.
        reflexivity.
      * rewrite length_app. simpl. lia.
Qed.

End ScanFacts.

(** ** [get_newest_images] *)

Lemma get_newest_images_sound pattern fs last_processed max_count :
  exists sel,
    get_newest_images pattern fs last_processed max_count = sel
    /\ subseq sel (list_sort (glob_glob fs))
    /\ Forall (fun p => after_cursor last_processed p /\ stable fs p) sel.
Proof.
  unfold get_newest_images.
  destruct pattern as [pat|];
    [|exists []; repeat split; [apply subseq_nil_l | constructor]].
  destruct (glob_glob fs) as [|f files] eqn:Hglob;
    [exists []; repeat split; constructor|].
  destruct (scan_loop fs last_processed max_count (list_sort (f :: files)) [] false)
    as [out|e] eqn:Hrun;
    [|exists []; repeat split; [apply subseq_nil_l | constructor]].
  apply scan_loop_sound in Hrun.
  - destruct Hrun as (sel & -> & Hsub & Hall). exists sel. auto.
  - apply list_sort_sorted.
  - intros Hf. discriminate.
Qed.

Lemma get_newest_images_complete pattern fs last_processed max_count :
  pattern <> None ->
  Forall (readable fs) (glob_glob fs) ->
  get_newest_images pattern fs last_processed max_count
  = firstn (batch_cap max_count)
      (filter (fun p => after_cursorb last_processed p && stableb fs p)
              (list_sort (glob_glob fs))).
Proof.
  intros Hpat Hread. unfold get_newest_images.
  destruct pattern as [pat|]; [|congruence].
  destruct (glob_glob fs) as [|f files] eqn:Hglob.
  - simpl. rewrite firstn_nil. reflexivity.
  - rewrite scan_loop_complete.
    + simpl. rewrite Nat.sub_0_r. reflexivity.
    + apply list_sort_sorted.
    + intros Hf. discriminate.
    + eapply Permutation_Forall; [apply Permutation_sym, list_sort_perm|].
      exact Hread.
    + unfold batch_cap. simpl. lia.
Qed.

(** C2, as the claim words it, fails at the size boundary: a capture of
    exactly 3000 bytes (so not smaller than 3000 bytes), one second old, with
    the cursor unset and alone in its folder, is not selected. *)
Lemma scan_rejects_3000_bytes :
  In "cam1_0001.jpg" (glob_glob folder_3000_bytes)
  /\ getsize folder_3000_bytes "cam1_0001.jpg" = Some 3000%Z
  /\ ~ (3000 < 3000)%Z
  /\ (exists mtime, getmtime folder_3000_bytes "cam1_0001.jpg" = Some mtime
        /\ (0.5 <= time_time folder_3000_bytes "cam1_0001.jpg" - mtime)%Q)
  /\ after_cursor None "cam1_0001.jpg"
  /\ get_newest_images (Some "cam1_*.jpg") folder_3000_bytes None 3 = [].
Proof.
  repeat split.
  - left. reflexivity.
  - lia.
  - exists 99%Q. split; [reflexivity|]. vm_compute. discriminate.
  - left. reflexivity.
Qed.

(** C2 (amended): a selected file is listed, sorts strictly after the cursor
    (or the cursor is unset), is at least 0.5 s old and is larger than 3000
    bytes; and when the pattern is configured and every listed file can be
    stat-ed, the candidates are exactly the first [batch_cap] such files of
    the sorted listing, so that each such file is selected unless the batch
    is already full. *)
Theorem get_newest_images_filter pattern fs last_processed max_count :
  (forall p,
      In p (get_newest_images pattern fs last_processed max_count) ->
      In p (glob_glob fs) /\ after_cursor last_processed p /\ stable fs p)
  /\ (pattern <> None ->
      Forall (readable fs) (glob_glob fs) ->
      get_newest_images pattern fs last_processed max_count
      = firstn (batch_cap max_count)
          (filter (fun p => after_cursorb last_processed p && stableb fs p)
                  (list_sort (glob_glob fs)))
      /\ forall p,
          In p (glob_glob fs) -> after_cursor last_processed p ->
          stable fs p ->
          In p (get_newest_images pattern fs last_processed max_count)
          \/ List.length (get_newest_images pattern fs last_processed max_count)
             = batch_cap max_count).
Proof.
  split.
  - intros p Hin.
    destruct (get_newest_images_sound pattern fs last_processed max_count)
      as (sel & Heq & Hsub & Hall).
    rewrite Heq in Hin. split.
    + eapply Permutation_in; [apply list_sort_perm|].
      eapply subseq_In; eassumption.
    + rewrite Forall_forall in Hall. apply Hall, Hin.
  - intros Hpat Hread.
    pose proof (get_newest_images_complete _ _ last_processed max_count
                  Hpat Hread) as Heq.
    split; [exact Heq|].
    intros p Hin Hafter Hstable. rewrite Heq.
    set (ok := filter _ _).
    assert (Hok : In p ok).
    { apply filter_In. split.
      - eapply Permutation_in; [apply Permutation_sym, list_sort_perm|].
        exact Hin.
      - apply andb_true_intro. split.
        + apply after_cursorb_spec, Hafter.
        + apply stableb_spec, Hstable. }
    destruct (Nat.le_gt_cases (List.length ok) (batch_cap max_count)) as [Hle|Hgt].
    + left. rewrite firstn_all2; assumption.
    + right. rewrite length_firstn. lia.
Qed.

Lemma get_newest_images_filter_witness :
  get_newest_images (Some "cam1_*.jpg") folder_fresh_second None 3
  = ["cam1_0001.jpg"].
Proof.
  destruct (get_newest_images_filter (Some "cam1_*.jpg") folder_fresh_second
              None 3) as [_ H].
  destruct H as [Heq _].
  - discriminate.
  - repeat constructor; simpl; discriminate.
  - rewrite Heq. vm_compute. reflexivity.
Defined.

(** The age boundary is inclusive: a capture exactly half a second old and
    one byte over the size bound is selected. *)
Example scan_accepts_half_second_old :
  get_newest_images (Some "cam1_*.jpg")
                    (uniform_folder ["cam1_0001.jpg"] 100 99.5 3001) None 3
  = ["cam1_0001.jpg"].
Proof. reflexivity. Qed.

(** ** The delay staircase *)

(** C8, as the claim words it, fails for a short baseline: with
    [check_interval] 0.5 the delay after the first empty tick (0.15 s) is
    below the delay after activity (0.2 s), so the staircase is not
    monotone. *)
Lemma next_delay_not_monotone_at_half_second :
  (0 <= 1)%nat /\ ~ (next_delay 0.5 0 <= next_delay 0.5 1)%Q.
Proof.
  split; [lia|]. vm_compute. intros H. apply H. reflexivity.
Qed.

(** C8 (amended): the delay is 0.2 after 0 empty ticks, 0.3 x baseline
    after 1-2, the baseline after 3-9 and 1.2 x baseline from 10 on, the
    baseline being 1.5 when the configuration has none; it is non-decreasing
    in the counter whenever the baseline is at least 2/3 s, as the default
    is. *)
Theorem next_delay_staircase (baseline : Q) (n : nat) :
  (n = 0%nat -> next_delay baseline n = 0.2)
  /\ ((1 <= n <= 2)%nat -> next_delay baseline n = baseline * 0.3)
  /\ ((3 <= n <= 9)%nat -> next_delay baseline n = baseline)
  /\ ((10 <= n)%nat -> next_delay baseline n = baseline * 1.2)
  /\ (forall folder_path file_pattern,
         get_check_interval {| folder_path := folder_path;
                               file_pattern := file_pattern;
                               check_interval := None |} = 1.5)
  /\ ((2 # 3 <= baseline)%Q ->
      forall m, (n <= m)%nat ->
                (next_delay baseline n <= next_delay baseline m)%Q).
Proof.
  unfold next_delay. repeat split.
  - intros ->. reflexivity.
  - intros [H1 H2]. destruct n as [|[|[|n]]]; try lia; reflexivity.
  - intros [H1 H2].
    do 3 (destruct n as [|n]; [lia|]).
    do 7 (destruct n as [|n]; [reflexivity|]). lia.
  - intros H. do 10 (destruct n as [|n]; [lia|]). reflexivity.
  - intros Hci m Hnm.
    destruct (n =? 0)%nat eqn:En0; destruct (m =? 0)%nat eqn:Em0;
      destruct (n <? 3)%nat eqn:En3; destruct (m <? 3)%nat eqn:Em3;
      destruct (n <? 10)%nat eqn:En10; destruct (m <? 10)%nat eqn:Em10;
      repeat match goal with
             | H : (_ =? _)%nat = true |- _ => apply Nat.eqb_eq in H
             | H : (_ =? _)%nat = false |- _ => apply Nat.eqb_neq in H
             | H : (_ <? _)%nat = true |- _ => apply Nat.ltb_lt in H
             | H : (_ <? _)%nat = false |- _ => apply Nat.ltb_ge in H
             end;
      try lia; lra.
Qed.

Lemma next_delay_staircase_witness :
  (next_delay 1.5 0 <= next_delay 1.5 35)%Q.
Proof.
  destruct (next_delay_staircase 1.5 0) as (_ & _ & _ & _ & _ & Hmono).
  apply Hmono.
  - vm_compute. discriminate.
  - lia.
Defined.

(** ** The bounded history *)

Lemma append_and_limit_suffix (log : list HistoryEntry.t) (e : HistoryEntry.t) :
  exists evicted,
    log ++ [e] = evicted ++ append_and_limit log e
    /\ List.length evicted = (List.length log + 1 - 50)%nat.
Proof.
  unfold append_and_limit, last_n.
  destruct (50 <? List.length (log ++ [e]))%nat eqn:E.
  - exists (firstn (List.length (log ++ [e]) - 50) (log ++ [e])).
    rewrite firstn_skipn. split; [reflexivity|].
    rewrite length_firstn, length_app. simpl. lia.
  - exists []. apply Nat.ltb_ge in E. rewrite length_app in E. simpl in *.
    split; [reflexivity | lia].
Qed.

Lemma append_and_limit_length (log : list HistoryEntry.t) (e : HistoryEntry.t) :
  (List.length (append_and_limit log e) <= 50)%nat.
Proof.
  unfold append_and_limit, last_n.
  destruct (50 <? List.length (log ++ [e]))%nat eqn:E.
  - rewrite length_skipn. apply Nat.ltb_lt in E. lia.
  - apply Nat.ltb_ge in E. exact E.
Qed.

Lemma append_and_limit_newest (log : list HistoryEntry.t) (e : HistoryEntry.t) :
  exists kept,
    append_and_limit log e = kept ++ [e]
    /\ kept = skipn (List.length log + 1 - 50) log.
Proof.
  unfold append_and_limit, last_n.
  destruct (50 <? List.length (log ++ [e]))%nat eqn:E;
    rewrite length_app in *; simpl in *.
  - apply Nat.ltb_lt in E.
    exists (skipn (List.length log + 1 - 50) log). split; [|reflexivity].
    rewrite skipn_app.
    replace (List.length log + 1 - 50 - List.length log)%nat with 0%nat by lia.
    reflexivity.
  - apply Nat.ltb_ge in E. exists log. split; [reflexivity|].
    replace (List.length log + 1 - 50)%nat with 0%nat by lia. reflexivity.
Qed.

(** C5: when the history file can be read (or does not exist yet) and
    written, [save_to_history] returns and the history file then holds a log
    of at most 50 entries whose last element is the new entry and which is
    the old log plus the new entry with only its oldest entries removed:
    nothing is removed while the old log has fewer than 50 entries, and
    exactly the oldest one when it has 50.  Nothing else of the monitor's
    state is touched. *)
Theorem save_to_history_bounded camera_id env now filename recognized s :
  writable env = true ->
  recognition_results_json s <> Unreadable ->
  let old := entries_of (recognition_results_json s) in
  let entry := entry_of camera_id now filename recognized in
  let r := save_to_history camera_id env now filename recognized s in
  exists log kept evicted,
    fst r = Return tt
    /\ recognition_results_json (snd r) = Stored log
    /\ (List.length log <= 50)%nat
    /\ log = kept ++ [entry]
    /\ old = evicted ++ kept
    /\ List.length evicted = (List.length old + 1 - 50)%nat
    /\ ((List.length old < 50)%nat -> log = old ++ [entry])
    /\ (List.length old = 50%nat -> log = tl old ++ [entry])
    /\ last_processed (snd r) = last_processed s
    /\ is_busy (snd r) = is_busy s
    /\ live_status_json (snd r) = live_status_json s
    /\ published (snd r) = published s.
Proof.
  intros Hw Hr old entry r.
  destruct (append_and_limit_newest old entry) as (kept & Hlog & Hkept).
  exists (append_and_limit old entry), kept,
         (firstn (List.length old + 1 - 50) old).
  assert (Hrun : r = (Return tt,
                      {| last_processed := last_processed s;
                         is_busy := is_busy s;
                         live_status_json := live_status_json s;
                         recognition_results_json :=
                           Stored (append_and_limit old entry);
                         published := published s |})).
  { subst r old entry. unfold save_to_history, modify.
    destruct (recognition_results_json s); [| congruence |];
      rewrite Hw; reflexivity. }
  rewrite Hrun. cbn [fst snd recognition_results_json last_processed is_busy
                     live_status_json published].
  split; [reflexivity|]. split; [reflexivity|].
  split; [apply append_and_limit_length|].
  split; [exact Hlog|].
  split; [rewrite Hkept; symmetry; apply firstn_skipn|].
  split; [rewrite length_firstn; lia|].
  split.
  { intros Hlt. rewrite Hlog, Hkept.
    replace (List.length old + 1 - 50)%nat with 0%nat by lia. reflexivity. }
  split.
  { intros H50. rewrite Hlog, Hkept.
    replace (List.length old + 1 - 50)%nat with 1%nat by lia.
    destruct old; reflexivity. }
  repeat split.
Qed.

Lemma save_to_history_bounded_witness :
  recognition_results_json
    (snd (save_to_history "ESP32-001"
            (env_at 51 empty_folder (fun _ => PostTimeout)) 51 "new.jpg"
            ["bob"] (fresh_state (Stored fifty_entries))))
  = Stored (tl fifty_entries ++ [entry_of "ESP32-001" 51 "new.jpg" ["bob"]])
  /\ recognition_results_json
       (snd (save_to_history "ESP32-001"
               (env_at 51 empty_folder (fun _ => PostTimeout)) 51 "new.jpg"
               ["bob"] (fresh_state (Stored fifty_entries))))
     <> Stored fifty_entries.
Proof.
  destruct (save_to_history_bounded "ESP32-001"
              (env_at 51 empty_folder (fun _ => PostTimeout)) 51 "new.jpg"
              ["bob"] (fresh_state (Stored fifty_entries)))
    as (log & kept & evicted & _ & Hsave & _ & _ & _ & _ & _ & H50 & _).
  - reflexivity.
  - discriminate.
  - rewrite Hsave, (H50 eq_refl). split; [reflexivity|].
    intros H. vm_compute in H. discriminate H.
Defined.

(** ** Choosing the best subject *)

Lemma max_from_In (x : Subject) (xs : list Subject) :
  In (max_from x xs) (x :: xs).
Proof.
  revert x. induction xs as [|y ys IH]; intros x; simpl.
  - left. reflexivity.
  - destruct (negb (Qle_bool (get_similarity y) (get_similarity x))).
    + right. apply IH.
    + destruct (IH x) as [H | H]; [left | right; right]; assumption.
Qed.

Lemma max_from_ge_start (x : Subject) (xs : list Subject) :
  (get_similarity x <= get_similarity (max_from x xs))%Q.
Proof.
  revert x. induction xs as [|y ys IH]; intros x; simpl.
  - apply Qle_refl.
  - destruct (Qle_bool (get_similarity y) (get_similarity x)) eqn:E; simpl.
    + apply IH.
    + eapply Qle_trans; [|apply IH].
      destruct (Qlt_le_dec (get_similarity x) (get_similarity y)) as [H|H].
      * apply Qlt_le_weak, H.
      * apply Qle_bool_iff in H. congruence.
Qed.

Lemma max_from_ge (x : Subject) (xs : list Subject) (y : Subject) :
  In y (x :: xs) ->
  (get_similarity y <= get_similarity (max_from x xs))%Q.
Proof.
  revert x. induction xs as [|z zs IH]; intros x Hin.
  - destruct Hin as [<- | []]. apply Qle_refl.
  - simpl.
    destruct (Qle_bool (get_similarity z) (get_similarity x)) eqn:E; simpl.
    + destruct Hin as [<- | [<- | Hin]].
      * apply max_from_ge_start.
      * eapply Qle_trans; [apply Qle_bool_iff, E | apply max_from_ge_start].
      * apply IH. right. exact Hin.
    + destruct Hin as [<- | Hin].
      * eapply Qle_trans; [|apply max_from_ge_start].
        destruct (Qlt_le_dec (get_similarity x) (get_similarity z)) as [H|H].
        -- apply Qlt_le_weak, H.
        -- apply Qle_bool_iff in H. congruence.
      * apply IH. exact Hin.
Qed.

Lemma recognized_names_cons (face : Face) (rest : list Face) :
  recognized_names (face :: rest)
  = (if is_recognized face then best_name face else []) ++ recognized_names rest.
Proof.
  unfold recognized_names. simpl.
  destruct (is_recognized face); reflexivity.
Qed.

Lemma unknown_count_cons (face : Face) (rest : list Face) :
  unknown_count (face :: rest)
  = ((if is_recognized face then 0 else 1) + unknown_count rest)%nat.
Proof.
  unfold unknown_count. simpl.
  destruct (is_recognized face); reflexivity.
Qed.

Lemma faces_loop_spec (faces : list Face) :
  forall recognized unknown,
    names_present faces ->
    faces_loop faces recognized unknown
    = Return (recognized ++ recognized_names faces,
              (unknown + unknown_count faces)%nat).
Proof.
  induction faces as [|face rest IH]; intros recognized unknown Hnames.
  - simpl. rewrite app_nil_r. unfold unknown_count. simpl.
    rewrite Nat.add_0_r. reflexivity.
  - assert (Hrest : names_present rest).
    { intros f b Hin. apply Hnames. right. exact Hin. }
    specialize (Hnames face).
    rewrite recognized_names_cons, unknown_count_cons. simpl.
    unfold is_recognized, best_name, best_subject in *.
    destruct (get_subjects face) as [|x xs].
    + rewrite IH by exact Hrest. f_equal. f_equal. lia.
    + destruct (Qle_bool 0.7 (get_similarity (max_from x xs))) eqn:E.
      * destruct (subject (max_from x xs)) as [name|] eqn:Hname.
        -- rewrite IH by exact Hrest. rewrite <- app_assoc. reflexivity.
        -- exfalso. eapply (Hnames (max_from x xs)); try reflexivity.
           ++ left. reflexivity.
           ++ apply Qle_bool_iff, E.
           ++ exact Hname.
      * rewrite IH by exact Hrest. f_equal. f_equal. lia.
Qed.

(** C4: for each face with subjects the chosen subject is one of them and
    has the greatest similarity; over a reply whose chosen subjects carry
    their name, the loop appends the name of each face whose best
    similarity is at least 0.7, in order, and counts every other face as
    unknown: a face with subjects is recognized exactly when its best
    similarity is 0.7 or more, and unknown exactly when it is below 0.7. *)
Theorem faces_loop_threshold (faces : list Face) :
  (forall face best,
      In face faces -> best_subject face = Some best ->
      In best (get_subjects face)
      /\ (forall x, In x (get_subjects face) ->
                    (get_similarity x <= get_similarity best)%Q)
      /\ (is_recognized face = true <-> (0.7 <= get_similarity best)%Q)
      /\ (is_recognized face = false <-> (get_similarity best < 0.7)%Q))
  /\ (names_present faces ->
      forall recognized unknown,
        faces_loop faces recognized unknown
        = Return (recognized ++ recognized_names faces,
                  (unknown + unknown_count faces)%nat)).
Proof.
  split.
  - intros face best _ Hbest. unfold is_recognized. rewrite Hbest.
    unfold best_subject in Hbest.
    destruct (get_subjects face) as [|x xs]; [discriminate|].
    injection Hbest as <-. repeat split.
    + apply max_from_In.
    + intros y Hy. apply max_from_ge, Hy.
    + apply Qle_bool_iff.
    + apply Qle_bool_iff.
    + intros H. apply Qnot_le_lt. intros Hle.
      apply Qle_bool_iff in Hle. congruence.
    + intros H. destruct (Qle_bool 0.7 _) eqn:E; [|reflexivity].
      apply Qle_bool_iff in E. exfalso. eapply Qlt_not_le; eassumption.
  - intros Hnames recognized unknown. apply faces_loop_spec, Hnames.
Qed.

Lemma faces_loop_threshold_witness :
  faces_loop [face_of [("alice", 0.7)]; face_of [("bob", 0.6999)];
              face_of [("carol", 0.4); ("dave", 0.82)]] [] 0
  = Return (["alice"; "dave"], 1%nat).
Proof.
  destruct (faces_loop_threshold
              [face_of [("alice", 0.7)]; face_of [("bob", 0.6999)];
               face_of [("carol", 0.4); ("dave", 0.82)]]) as [_ H].
  rewrite H.
  - vm_compute. reflexivity.
  - intros face best Hin Hbest _.
    repeat (destruct Hin as [<- | Hin];
            [vm_compute in Hbest; injection Hbest as <-; simpl; discriminate|]).
    destruct Hin.
Defined.

(** ** Error messages that cannot mention a timeout *)

Lemma lacks_T_no_timeout (s : string) :
  lacks "T" s = true -> str_in "Timeout" s = false.
Proof.
  induction s as [|a rest IH]; intros H.
  - reflexivity.
  - cbn [lacks] in H. apply andb_prop in H as [Ha Hrest].
    cbn [str_in String.prefix].
    destruct (ascii_dec "T" a) as [<- | _].
    + discriminate.
    + simpl. apply IH, Hrest.
Qed.

Lemma lacks_T_uint (d : Decimal.uint) :
  lacks "T" (NilEmpty.string_of_uint d) = true.
Proof. induction d; simpl; auto. Qed.

Lemma lacks_T_str_of_int (n : Z) : lacks "T" (str_of_int n) = true.
Proof.
  unfold str_of_int, NilZero.string_of_int, NilZero.string_of_uint.
  destruct (Z.to_int n) as [d | d]; destruct d; simpl;
    try reflexivity; apply lacks_T_uint.
Qed.

Lemma http_error_no_timeout (status_code : Z) :
  str_in "Timeout" (String.append "HTTP " (str_of_int status_code)) = false.
Proof.
  cbn [String.append str_in String.prefix]. simpl.
  apply lacks_T_no_timeout, lacks_T_str_of_int.
Qed.

(** ** [process_image] *)

Lemma latest_color_publish (s : State) (st : LiveStatus.t)
      (l : list LiveStatus.t) (c : Color) :
  published s = l ++ [st] -> LiveStatus.status st = c ->
  latest_color s = Some c.
Proof.
  intros H <-. unfold latest_color, latest_status. rewrite H, map_app. simpl.
  rewrite last_last. reflexivity.
Qed.

Ltac published_last :=
  eapply latest_color_publish; [simpl; reflexivity | reflexivity].

(** After a failed request: two statuses are published, the second gray
    when the error text contains [Timeout] and red otherwise, and the cursor
    is the image. *)
Lemma process_image_failure camera_id env image_path s error :
  recognize_face (net env) image_path = Failure error ->
  exists s',
    process_image camera_id env image_path s = (Return tt, s')
    /\ last_processed s' = Some image_path
    /\ latest_color s'
       = Some (if str_in "Timeout" error then gray else red).
Proof.
  intros Hr. unfold process_image, bind. rewrite Hr.
  unfold update_live_status, modify. simpl.
  destruct (str_in "Timeout" error); simpl;
    eexists; repeat split;
    published_last.
Qed.

Lemma process_image_success camera_id env image_path s data no_face :
  recognize_face (net env) image_path = Success data no_face ->
  names_present (get_result data) ->
  exists s',
    process_image camera_id env image_path s = (Return tt, s')
    /\ last_processed s' = Some image_path
    /\ latest_color s'
       = Some (match get_result data with
               | [] => gray
               | faces =>
                   match recognized_names faces with
                   | [] => red
                   | _ => green
                   end
               end).
Proof.
  intros Hr Hnames. unfold process_image, bind. rewrite Hr.
  destruct (get_result data) as [|face rest] eqn:Hfaces.
  - unfold update_live_status, modify. simpl.
    eexists; repeat split. published_last.
  - unfold lift. rewrite (faces_loop_spec _ [] 0 Hnames). simpl app.
    destruct (recognized_names (face :: rest)) as [|name names];
      unfold update_live_status, save_to_history, modify; simpl.
    + eexists; repeat split. published_last.
    + destruct (recognition_results_json s); destruct (writable env); simpl;
        eexists; repeat split;
        published_last.
Qed.

(** C3: whatever the outcome of the request -- a transport failure, a
    timeout, an HTTP error, the no-face sentinel, an empty result, unknown
    faces or recognized faces (for every reply whose named subjects carry
    their name) -- [process_image] returns and leaves the cursor on the
    image it was given. *)
Theorem process_image_advances_cursor camera_id env image_path s :
  reply_well_formed (recognize_face (net env) image_path) ->
  exists s',
    process_image camera_id env image_path s = (Return tt, s')
    /\ last_processed s' = Some image_path.
Proof.
  intros Hwf.
  destruct (recognize_face (net env) image_path) as [data no_face | error] eqn:Hr.
  - destruct (process_image_success camera_id env image_path s data no_face Hr Hwf)
      as (s' & Hrun & Hcur & _).
    exists s'. split; assumption.
  - destruct (process_image_failure camera_id env image_path s error Hr)
      as (s' & Hrun & Hcur & _).
    exists s'. split; assumption.
Qed.

Lemma process_image_advances_cursor_witness :
  exists s',
    process_image "ESP32-001"
      (env_at 100 empty_folder (fun _ => PostRaises "Connection refused"))
      "/cam/esp32-001_0001.jpg" (fresh_state Absent)
    = (Return tt, s')
    /\ last_processed s' = Some "/cam/esp32-001_0001.jpg".
Proof.
  apply (process_image_advances_cursor "ESP32-001"
           (env_at 100 empty_folder (fun _ => PostRaises "Connection refused"))
           "/cam/esp32-001_0001.jpg" (fresh_state Absent)).
  simpl. exact I.
Defined.

(** ** Timeouts and service errors *)

(** C7, as the claim words it, fails for a non-success status that carries
    the no-face sentinel: status 400 with the text [No face is found] is a
    success without faces and is published gray, not a service error
    published red. *)
Lemma no_face_sentinel_is_not_an_error :
  let env := env_at 100 empty_folder (fun _ => no_face_reply) in
  net env "/cam/a.jpg" = Response 400 "No face is found in the given image"
                                  (Raise "not read")
  /\ (400 <> 200)%Z
  /\ success (recognize_face (net env) "/cam/a.jpg") = true
  /\ latest_color (snd (process_image "ESP32-001" env "/cam/a.jpg"
                                      (fresh_state Absent)))
     = Some gray
  /\ latest_color (snd (process_image "ESP32-001" env "/cam/a.jpg"
                                      (fresh_state Absent)))
     <> Some red.
Proof.
  vm_compute. repeat split; discriminate.
Qed.

(** C7 (amended): a request that exceeds the timeout gives the error
    [Timeout] and is published gray; a non-success status whose body lacks
    the no-face sentinel gives the error [HTTP <code>] and is published red;
    a failure to open the file or any other failure of the request whose
    message does not contain the text [Timeout] gives that message and is
    published red. *)
Theorem timeout_gray_error_red camera_id env image_path s :
  (net env image_path = PostTimeout ->
   recognize_face (net env) image_path = Failure "Timeout"
   /\ latest_color (snd (process_image camera_id env image_path s)) = Some gray)
  /\ (forall status_code text json,
         net env image_path = Response status_code text json ->
         status_code <> 200%Z ->
         str_in "No face is found" text = false ->
         recognize_face (net env) image_path
         = Failure (String.append "HTTP " (str_of_int status_code))
         /\ latest_color (snd (process_image camera_id env image_path s))
            = Some red)
  /\ (forall str_e,
         net env image_path = PostRaises str_e
         \/ net env image_path = OpenRaises str_e ->
         str_in "Timeout" str_e = false ->
         recognize_face (net env) image_path = Failure str_e
         /\ latest_color (snd (process_image camera_id env image_path s))
            = Some red).
Proof.
  assert (Hcolor : forall error,
             recognize_face (net env) image_path = Failure error ->
             latest_color (snd (process_image camera_id env image_path s))
             = Some (if str_in "Timeout" error then gray else red)).
  { intros error Hr.
    destruct (process_image_failure camera_id env image_path s error Hr)
      as (s' & Hrun & _ & Hc).
    rewrite Hrun. exact Hc. }
  assert (Hhttp : forall status_code text json,
             net env image_path = Response status_code text json ->
             status_code <> 200%Z ->
             str_in "No face is found" text = false ->
             recognize_face (net env) image_path
             = Failure (String.append "HTTP " (str_of_int status_code))).
  { intros status_code text json Hnet Hcode Htext.
    unfold recognize_face. rewrite Hnet.
    apply Z.eqb_neq in Hcode. rewrite Hcode, Htext. reflexivity. }
  split; [|split].
  - intros Hnet.
    assert (Hr : recognize_face (net env) image_path = Failure "Timeout").
    { unfold recognize_face. rewrite Hnet. reflexivity. }
    split; [exact Hr|]. rewrite (Hcolor _ Hr). reflexivity.
  - intros status_code text json Hnet Hcode Htext.
    pose proof (Hhttp _ _ _ Hnet Hcode Htext) as Hr.
    split; [exact Hr|]. rewrite (Hcolor _ Hr), http_error_no_timeout.
    reflexivity.
  - intros str_e Hnet Hmsg.
    assert (Hr : recognize_face (net env) image_path = Failure str_e).
    { unfold recognize_face. destruct Hnet as [-> | ->]; reflexivity. }
    split; [exact Hr|]. rewrite (Hcolor _ Hr), Hmsg. reflexivity.
Qed.

Lemma timeout_gray_error_red_witness :
  latest_color
    (snd (process_image "ESP32-001"
            (env_at 100 empty_folder (fun _ => Response 500 "oops" (Raise "")))
            "/cam/a.jpg" (fresh_state Absent)))
  = Some red
  /\ latest_color
       (snd (process_image "ESP32-001"
               (env_at 100 empty_folder (fun _ => PostTimeout))
               "/cam/a.jpg" (fresh_state Absent)))
     = Some gray
  /\ latest_color
       (snd (process_image "ESP32-001"
               (env_at 100 empty_folder (fun _ => PostRaises "Connection refused"))
               "/cam/a.jpg" (fresh_state Absent)))
     = Some red.
Proof.
  split; [|split].
  - destruct (timeout_gray_error_red "ESP32-001"
                (env_at 100 empty_folder (fun _ => Response 500 "oops" (Raise "")))
                "/cam/a.jpg" (fresh_state Absent)) as (_ & H & _).
    apply (H 500%Z "oops" (Raise "")).
    + reflexivity.
    + discriminate.
    + reflexivity.
  - destruct (timeout_gray_error_red "ESP32-001"
                (env_at 100 empty_folder (fun _ => PostTimeout))
                "/cam/a.jpg" (fresh_state Absent)) as (H & _).
    apply H. reflexivity.
  - destruct (timeout_gray_error_red "ESP32-001"
                (env_at 100 empty_folder (fun _ => PostRaises "Connection refused"))
                "/cam/a.jpg" (fresh_state Absent)) as (_ & _ & H).
    apply (H "Connection refused").
    + left. reflexivity.
    + reflexivity.
Defined.

(** ** A capture that vanished before it was opened *)

Lemma recognize_face_open_failure net image_path str_e :
  net image_path = OpenRaises str_e ->
  recognize_face net image_path = Failure str_e
  /\ success (recognize_face net image_path) = false.
Proof.
  intros H. unfold recognize_face. rewrite H. split; reflexivity.
Qed.

(** C9 at the failing input: the capture [/data/Timeout/esp32-001_0001.jpg]
    is gone when [recognize_face] opens it.  The call returns the failure
    record with the message of the [FileNotFoundError] and the cursor moves
    to the path, but the status published is the gray one of a slow service
    ([MsgApiSlow]), not the red one of a service error: the message quotes
    the path, and the path contains the text [Timeout]. *)
Theorem missing_file_under_timeout_folder_is_gray :
  let env := env_at 100 empty_folder (fun _ => OpenRaises missing_file_message) in
  recognize_face (net env) missing_file_path = Failure missing_file_message
  /\ success (recognize_face (net env) missing_file_path) = false
  /\ exists s',
      process_image "Timeout" env missing_file_path (fresh_state Absent)
      = (Return tt, s')
      /\ last_processed s' = Some missing_file_path
      /\ latest_color s' = Some gray
      /\ option_map LiveStatus.message (latest_status s')
         = Some (MsgApiSlow (duration env missing_file_path))
      /\ latest_color s' <> Some red.
Proof.
  intros env. split; [reflexivity|]. split; [reflexivity|].
  eexists. split; [vm_compute; reflexivity|].
  vm_compute. repeat split; discriminate.
Qed.

(** ** A pass of the loop that finds nothing *)

Lemma get_newest_images_empty_folder pattern last_processed max_count :
  get_newest_images pattern empty_folder last_processed max_count = [].
Proof. destruct pattern; reflexivity. Qed.

(** A pass with the lock and an empty scan: the counter grows by one, a
    heartbeat is published exactly when one is due, and nothing else
    changes. *)
Lemma tick_empty_scan camera_id config env l s :
  lock_acquired env = true ->
  is_busy s = false ->
  get_newest_images (file_pattern config) (folder env) (last_processed s) 3 = [] ->
  let count := (consecutive_empty l + 1)%nat in
  exists s',
    tick camera_id config env l s
    = ({| consecutive_empty := count;
          last_heartbeat := if heartbeat_due (current_time env) l
                            then current_time env else last_heartbeat l |},
       next_delay (get_check_interval config) count, s')
    /\ is_busy s' = false
    /\ last_processed s' = last_processed s
    /\ recognition_results_json s' = recognition_results_json s
    /\ published s'
       = published s ++ (if heartbeat_due (current_time env) l
                         then [heartbeat_status camera_id count] else []).
Proof.
  intros Hlock Hbusy Hscan count.
  unfold tick, iteration, bind, get, modify, ret. rewrite Hlock, Hbusy. simpl.
  rewrite Hscan. unfold heartbeat_due, update_live_status, modify.
  destruct (negb (Qle_bool (current_time env - last_heartbeat l) 30)); simpl;
    eexists; repeat split.
  rewrite app_nil_r. reflexivity.
Qed.

Lemma heartbeat_due_true (now : Q) (l : Locals) :
  heartbeat_due now l = true <-> (30 < now - last_heartbeat l)%Q.
Proof.
  unfold heartbeat_due. rewrite negb_true_iff. split.
  - intros H. apply Qnot_le_lt. intros Hle. apply Qle_bool_iff in Hle.
    congruence.
  - intros H. destruct (Qle_bool (now - last_heartbeat l) 30) eqn:E;
      [|reflexivity].
    apply Qle_bool_iff in E. exfalso. eapply Qlt_not_le; eassumption.
Qed.

Lemma heartbeat_due_false (now : Q) (l : Locals) :
  heartbeat_due now l = false <-> (now - last_heartbeat l <= 30)%Q.
Proof.
  unfold heartbeat_due. rewrite negb_false_iff. apply Qle_bool_iff.
Qed.

Lemma idle_heartbeats_due baseline n t count last :
  (30 < t - last)%Q ->
  idle_heartbeats baseline (S n) t
    {| consecutive_empty := count; last_heartbeat := last |}
  = (count + 1)%nat
    :: idle_heartbeats baseline n (t + next_delay baseline (count + 1))
         {| consecutive_empty := count + 1; last_heartbeat := t |}.
Proof.
  intros H. cbn [idle_heartbeats consecutive_empty last_heartbeat].
  rewrite (proj2 (heartbeat_due_true t _)) by exact H. reflexivity.
Qed.

Lemma idle_heartbeats_not_due baseline n t count last :
  (t - last <= 30)%Q ->
  idle_heartbeats baseline (S n) t
    {| consecutive_empty := count; last_heartbeat := last |}
  = idle_heartbeats baseline n (t + next_delay baseline (count + 1))
      {| consecutive_empty := count + 1; last_heartbeat := last |}.
Proof.
  intros H. cbn [idle_heartbeats consecutive_empty last_heartbeat].
  rewrite (proj2 (heartbeat_due_false t _)) by exact H. reflexivity.
Qed.

Ltac idle_pass :=
  first [ rewrite idle_heartbeats_due by lra
        | rewrite idle_heartbeats_not_due by lra ];
  cbn [Nat.add next_delay Nat.eqb Nat.ltb Nat.leb].

(** Thirty-five idle passes at the default baseline, from any clock reading
    above 30: a heartbeat on the first pass and one on the twenty-first. *)
Lemma idle_heartbeats_35 (t0 : Q) :
  (30 < t0)%Q ->
  idle_heartbeats 1.5 35 t0 initial_locals = [1; 21]%nat.
Proof.
  intros H. unfold initial_locals.
  do 35 idle_pass. reflexivity.
Qed.

Lemma run_loop_idle camera_id config (n : nat) :
  forall t l s,
    is_busy s = false ->
    published (snd (run_loop camera_id config n idle_world t l s))
    = published s
      ++ map (heartbeat_status camera_id)
             (idle_heartbeats (get_check_interval config) n t l).
Proof.
  induction n as [|n IH]; intros t l s Hbusy.
  - simpl. rewrite app_nil_r. reflexivity.
  - cbn [run_loop idle_heartbeats].
    destruct (tick_empty_scan camera_id config (idle_world t) l s eq_refl Hbusy
                (get_newest_images_empty_folder _ _ _))
      as (s1 & Htick & Hb & _ & _ & Hpub).
    rewrite Htick. rewrite IH by exact Hb. rewrite Hpub.
    change (current_time (idle_world t)) with t.
    destruct (heartbeat_due t l); simpl.
    + rewrite <- app_assoc. reflexivity.
    + rewrite app_nil_r. reflexivity.
Qed.

Lemma heartbeats_of_published (s s' : State) camera_id (counts : list nat) :
  published s' = published s ++ map (heartbeat_status camera_id) counts ->
  heartbeats_of s' = heartbeats_of s ++ counts.
Proof.
  intros H. unfold heartbeats_of. rewrite H, flat_map_app. f_equal.
  clear H. induction counts as [|c cs IH]; simpl; [reflexivity|].
  f_equal. exact IH.
Qed.

(** C1, as the claim words it, fails: started at a Unix time and left with
    an empty folder for 35 passes at the default baseline, the loop
    publishes two heartbeats, not one, and the first of them on the very
    first empty pass, not after 30 s of emptiness. *)
Lemma two_heartbeats_in_35_idle_ticks :
  let env := idle_world 1700000000 in
  let s := snd (run_loop "ESP32-001" default_config 35 idle_world 1700000000
                         initial_locals (start "ESP32-001" env (fresh_state Absent))) in
  heartbeats_of s = [1; 21]%nat
  /\ List.length (heartbeats_of s) <> 1%nat
  /\ heartbeats_of
       (snd (run_loop "ESP32-001" default_config 1 idle_world 1700000000
                      initial_locals (start "ESP32-001" env (fresh_state Absent))))
     = [1%nat].
Proof.
  vm_compute. repeat split. discriminate.
Qed.

(** C1 (amended): on a pass whose scan is empty a heartbeat is published
    exactly when more than 30 s lie between the clock and the previous
    heartbeat, whose time starts at 0 and is then the clock reading of the
    heartbeat; so over 35 passes with an empty folder at the default
    baseline, on a clock that starts above 30 and advances by the sleeps,
    exactly two heartbeats are published -- on the first pass and on the
    twenty-first, 31.2 s later -- and none on the passes in between. *)
Theorem heartbeat_30s_after_previous camera_id config :
  (forall env l s,
      lock_acquired env = true -> is_busy s = false ->
      get_newest_images (file_pattern config) (folder env)
                        (last_processed s) 3 = [] ->
      let r := tick camera_id config env l s in
      (heartbeat_due (current_time env) l = true
       <-> (30 < current_time env - last_heartbeat l)%Q)
      /\ published (snd r)
         = published s
           ++ (if heartbeat_due (current_time env) l
               then [heartbeat_status camera_id (consecutive_empty l + 1)]
               else [])
      /\ last_heartbeat (fst (fst r))
         = (if heartbeat_due (current_time env) l
            then current_time env else last_heartbeat l))
  /\ (forall t0 s,
         (30 < t0)%Q -> get_check_interval config = 1.5 ->
         is_busy s = false ->
         let s' := snd (run_loop camera_id config 35 idle_world t0
                                 initial_locals s) in
         published s'
         = published s ++ [heartbeat_status camera_id 1;
                           heartbeat_status camera_id 21]
         /\ heartbeats_of s' = heartbeats_of s ++ [1; 21]%nat).
Proof.
  split.
  - intros env l s Hlock Hbusy Hscan r. subst r.
    destruct (tick_empty_scan camera_id config env l s Hlock Hbusy Hscan)
      as (s' & Htick & _ & _ & _ & Hpub).
    rewrite Htick. simpl. repeat split.
    + apply heartbeat_due_true.
    + apply heartbeat_due_true.
    + exact Hpub.
  - intros t0 s Ht0 Hci Hbusy s'.
    assert (Hpub : published s'
                   = published s ++ map (heartbeat_status camera_id) [1; 21]%nat).
    { subst s'. rewrite run_loop_idle by exact Hbusy.
      rewrite Hci, idle_heartbeats_35 by exact Ht0. reflexivity. }
    split; [exact Hpub|].
    eapply heartbeats_of_published. exact Hpub.
Qed.

Lemma heartbeat_30s_after_previous_witness :
  heartbeats_of
    (snd (run_loop "ESP32-001" default_config 35 idle_world 1000
                   initial_locals (fresh_state Absent)))
  = [1; 21]%nat.
Proof.
  destruct (heartbeat_30s_after_previous "ESP32-001" default_config) as [_ H].
  destruct (H 1000 (fresh_state Absent)) as [_ Hh].
  - reflexivity.
  - reflexivity.
  - reflexivity.
  - exact Hh.
Defined.

(** ** A scan that fails *)

Lemma scan_fails_empty config env s :
  scan_fails config env s ->
  get_newest_images (file_pattern config) (folder env) (last_processed s) 3 = [].
Proof.
  intros [Hp | (e & He)]; unfold get_newest_images.
  - rewrite Hp. reflexivity.
  - destruct (file_pattern config); [|reflexivity]. cbv zeta.
    destruct (glob_glob (folder env)) eqn:Hg; [reflexivity|].
    rewrite He. reflexivity.
Qed.

Lemma tick_empty_scan_any_folder camera_id config env l s :
  get_newest_images (file_pattern config) (folder env) (last_processed s) 3 = [] ->
  tick camera_id config env l s
  = tick camera_id config (with_folder empty_folder env) l s.
Proof.
  intros Hscan. unfold tick, iteration, bind, get, modify, ret. simpl.
  destruct (lock_acquired env); [|reflexivity].
  destruct (is_busy s); [reflexivity|]. simpl.
  rewrite Hscan, get_newest_images_empty_folder. reflexivity.
Qed.

(** C10: when the scan fails inside -- the pattern is missing, or a stat
    raises on a file that was listed -- [get_newest_images] returns the
    empty list, and the pass is the pass over an empty folder: with the lock
    held and the monitor not busy the counter of empty passes grows by one
    and the only status that may be published is the gray heartbeat, when
    one is due. *)
Theorem scan_failure_counts_as_idle camera_id config env l s :
  scan_fails config env s ->
  get_newest_images (file_pattern config) (folder env) (last_processed s) 3 = []
  /\ tick camera_id config env l s
     = tick camera_id config (with_folder empty_folder env) l s
  /\ (lock_acquired env = true -> is_busy s = false ->
      let r := tick camera_id config env l s in
      consecutive_empty (fst (fst r)) = (consecutive_empty l + 1)%nat
      /\ published (snd r)
         = published s
           ++ (if heartbeat_due (current_time env) l
               then [heartbeat_status camera_id (consecutive_empty l + 1)]
               else [])
      /\ LiveStatus.status (heartbeat_status camera_id (consecutive_empty l + 1))
         = gray).
Proof.
  intros Hfail. pose proof (scan_fails_empty _ _ _ Hfail) as Hscan.
  split; [exact Hscan|]. split.
  - apply tick_empty_scan_any_folder, Hscan.
  - intros Hlock Hbusy r. subst r.
    destruct (tick_empty_scan camera_id config env l s Hlock Hbusy Hscan)
      as (s' & Htick & _ & _ & _ & Hpub).
    rewrite Htick. simpl. repeat split. exact Hpub.
Qed.

Lemma scan_failure_counts_as_idle_witness :
  let env := env_at 1700000000 folder_with_vanished_file (fun _ => alice_reply) in
  let r := tick "ESP32-001" default_config env
                {| consecutive_empty := 4; last_heartbeat := 1699999990 |}
                (fresh_state Absent) in
  consecutive_empty (fst (fst r)) = 5%nat
  /\ published (snd r) = [].
Proof.
  intros env r.
  destruct (scan_failure_counts_as_idle "ESP32-001" default_config env
              {| consecutive_empty := 4; last_heartbeat := 1699999990 |}
              (fresh_state Absent)) as (_ & _ & H).
  - right. exists "getmtime". reflexivity.
  - destruct H as (Hc & Hp & _); [reflexivity | reflexivity |].
    split; [exact Hc | exact Hp].
Defined.

(** ** The cursor never moves back *)

Lemma str_le_empty (p : string) : str_le EmptyString p.
Proof. destruct p; reflexivity. Qed.

Lemma str_le_refl (p : string) : str_le p p.
Proof. apply leb_iff. left. reflexivity. Qed.

Lemma cursor_le_refl (a : option string) : cursor_le a a.
Proof. destruct a; simpl; [apply str_le_refl | exact I]. Qed.

Lemma cursor_le_trans (a b c : option string) :
  cursor_le a b -> cursor_le b c -> cursor_le a c.
Proof.
  destruct a as [x|], b as [y|], c as [z|]; simpl; try tauto.
  apply leb_trans.
Qed.

Lemma after_cursor_le (a : option string) (p : string) :
  after_cursor a p -> cursor_le a (Some p).
Proof.
  intros [H | (c & -> & H)].
  - destruct a as [[|ch rest]|]; simpl in *; try discriminate.
    + apply str_le_empty.
    + exact I.
  - simpl. apply lt_le, H.
Qed.

Lemma cursor_step_le (a b : option string) : cursor_step a b -> cursor_le a b.
Proof.
  intros [-> | (p & -> & H)]; [apply cursor_le_refl | apply after_cursor_le, H].
Qed.

Lemma process_image_cursor camera_id env image_path s :
  let r := process_image camera_id env image_path s in
  (fst r = Return tt /\ last_processed (snd r) = Some image_path)
  \/ ((exists e, fst r = Raise e)
      /\ last_processed (snd r) = last_processed s).
Proof.
  unfold process_image, bind, update_live_status, save_to_history, modify, lift.
  simpl.
  destruct (recognize_face (net env) image_path) as [data no_face | error].
  - destruct (get_result data) as [|face rest]; [left; split; reflexivity|].
    destruct (faces_loop (face :: rest) [] 0) as [[recognized unknown] | e].
    + destruct recognized; left; split; reflexivity.
    + right. split; [exists e|]; reflexivity.
  - destruct (str_in "Timeout" error); left; split; reflexivity.
Qed.

Lemma batch_cursor camera_id env (images : list string) :
  forall s,
    StronglySorted str_lt images ->
    Forall (after_cursor (last_processed s)) images ->
    cursor_chain (last_processed s) (cursor_trace camera_id env images s)
    /\ cursor_le (last_processed s)
         (last_processed
            (snd (for_each (process_image camera_id env) images s))).
Proof.
  induction images as [|p rest IH]; intros s Hs Hall.
  - simpl. split; [exact I | apply cursor_le_refl].
  - inversion Hs as [|? ? Hs' Hlt]; subst.
    inversion Hall as [|? ? Hp Hall']; subst.
    cbn [cursor_trace for_each]. unfold bind.
    pose proof (process_image_cursor camera_id env p s) as Hstep.
    destruct (process_image camera_id env p s) as [r s1].
    cbn [fst snd] in Hstep.
    destruct Hstep as [[-> Hc] | [[e ->] Hc]].
    + assert (Hrest : Forall (after_cursor (last_processed s1)) rest).
      { rewrite Hc. eapply Forall_impl; [|exact Hlt].
        intros q Hq. right. exists p. split; [reflexivity | exact Hq]. }
      destruct (IH s1 Hs' Hrest) as [Hchain Hle].
      split.
      * split; [|exact Hchain].
        right. exists p. split; assumption.
      * eapply cursor_le_trans; [|exact Hle].
        rewrite Hc. apply after_cursor_le, Hp.
    + cbn [snd]. rewrite Hc. split.
      * split; [left; reflexivity | exact I].
      * apply cursor_le_refl.
Qed.

Lemma candidates_ascending pattern fs last_processed max_count :
  NoDup (glob_glob fs) ->
  StronglySorted str_lt (get_newest_images pattern fs last_processed max_count)
  /\ Forall (after_cursor last_processed)
            (get_newest_images pattern fs last_processed max_count).
Proof.
  intros Hnd.
  destruct (get_newest_images_sound pattern fs last_processed max_count)
    as (sel & -> & Hsub & Hall).
  split.
  - eapply subseq_sorted; [exact Hsub | apply list_sort_strict, Hnd].
  - eapply Forall_impl; [|exact Hall]. intros p [H _]. exact H.
Qed.

Lemma tick_cursor camera_id config env l s :
  NoDup (glob_glob (folder env)) ->
  cursor_le (last_processed s)
            (last_processed (snd (tick camera_id config env l s))).
Proof.
  intros Hnd.
  destruct (candidates_ascending (file_pattern config) (folder env)
              (last_processed s) 3 Hnd) as [Hsorted Hafter].
  pose proof (fun imgs => batch_cursor camera_id env imgs (set_is_busy true s))
    as Hbatch.
  cbn [set_is_busy last_processed] in Hbatch.
  specialize (Hbatch _ Hsorted Hafter). destruct Hbatch as [_ Hle].
  unfold tick, iteration, bind, get, modify, ret.
  destruct (lock_acquired env); [|apply cursor_le_refl].
  destruct (is_busy s); [apply cursor_le_refl|]. cbn [negb].
  destruct (get_newest_images (file_pattern config) (folder env)
              (last_processed s) 3) as [|p rest].
  - unfold update_live_status, modify.
    destruct (negb (Qle_bool (current_time env - last_heartbeat l) 30));
      apply cursor_le_refl.
  - destruct (for_each (process_image camera_id env) (p :: rest)
                (set_is_busy true s)) as [[u | e] s'];
      cbn [snd] in Hle; exact Hle.
Qed.

Lemma run_loop_cursor camera_id config world (n : nat) :
  (forall t, NoDup (glob_glob (folder (world t)))) ->
  forall t l s,
    cursor_le (last_processed s)
      (last_processed (snd (run_loop camera_id config n world t l s))).
Proof.
  intros Hnd. induction n as [|n IH]; intros t l s.
  - apply cursor_le_refl.
  - cbn [run_loop].
    pose proof (tick_cursor camera_id config (world t) l s (Hnd t)) as Hstep.
    destruct (tick camera_id config (world t) l s) as [[l' delay] s'].
    eapply cursor_le_trans; [exact Hstep | apply IH].
Qed.

(** C6: in a folder listing without repeated paths, every candidate of a
    scan sorts strictly after the cursor (or the cursor is unset) and the
    candidates ascend strictly; each call of [process_image] in the batch
    either raises and leaves the cursor alone or moves it to a path
    strictly after its previous value, a call that returns leaving it on its
    image; and over any number of passes of the loop the cursor never moves
    back. *)
Theorem cursor_never_rewound camera_id config :
  (forall env s,
      NoDup (glob_glob (folder env)) ->
      let candidates :=
        get_newest_images (file_pattern config) (folder env)
                          (last_processed s) 3 in
      Forall (after_cursor (last_processed s)) candidates
      /\ StronglySorted str_lt candidates
      /\ cursor_chain (last_processed s)
           (cursor_trace camera_id env candidates (set_is_busy true s)))
  /\ (forall env image_path s s',
         process_image camera_id env image_path s = (Return tt, s') ->
         last_processed s' = Some image_path)
  /\ (forall world n,
         (forall t, NoDup (glob_glob (folder (world t)))) ->
         forall t l s,
           cursor_le (last_processed s)
             (last_processed (snd (run_loop camera_id config n world t l s)))).
Proof.
  repeat split.
  - apply candidates_ascending. assumption.
  - apply candidates_ascending. assumption.
  - apply (batch_cursor camera_id env _ (set_is_busy true s));
      apply candidates_ascending; assumption.
  - intros env image_path s s' Hrun.
    pose proof (process_image_cursor camera_id env image_path s) as Hstep.
    rewrite Hrun in Hstep. cbn [fst snd] in Hstep.
    destruct Hstep as [[_ Hc] | [[e He] _]]; [exact Hc | discriminate].
  - intros world n Hnd t l s. apply run_loop_cursor, Hnd.
Qed.

Lemma cursor_never_rewound_witness :
  cursor_le (Some "/cam/c_0000.jpg")
    (last_processed
       (snd (run_loop "ESP32-001" default_config 2 world_of_three 100
                      initial_locals
                      (set_last_processed "/cam/c_0000.jpg" (fresh_state Absent)))))
  /\ last_processed
       (snd (run_loop "ESP32-001" default_config 2 world_of_three 100
                      initial_locals
                      (set_last_processed "/cam/c_0000.jpg" (fresh_state Absent))))
     = Some "/cam/c_0003.jpg".
Proof.
  split.
  - destruct (cursor_never_rewound "ESP32-001" default_config) as (_ & _ & H).
    refine (H world_of_three 2%nat _ 100 initial_locals
              (set_last_processed "/cam/c_0000.jpg" (fresh_state Absent))).
    intros t. simpl.
    repeat (constructor; [simpl; intuition discriminate|]). constructor.
  - vm_compute. reflexivity.
Defined.

(* ------------------------------------------------------------------ *)
(** * Further properties of the monitor *)

(** ** The batch cap *)

Lemma scan_loop_length fs last_processed max_count (files : list string) :
  forall new_files found out,
    scan_loop fs last_processed max_count files new_files found = Return out ->
    (List.length new_files < batch_cap max_count)%nat ->
    (List.length out <= batch_cap max_count)%nat.
Proof.
  induction files as [|p rest IH]; intros acc found out Hrun Hlen;
    simpl in Hrun.
  - injection Hrun as <-. lia.
  - destruct (is_last_processed last_processed p); [eauto|].
    destruct (is_new last_processed found p); [|eauto].
    destruct (getmtime fs p) as [mtime|]; [|discriminate].
    destruct (Qle_bool 0.5 (time_time fs p - mtime)); [|eauto].
    destruct (getsize fs p) as [size|]; [|discriminate].
    destruct (3000 <? size)%Z; [|eauto].
    rewrite length_app in Hrun. simpl in Hrun. unfold batch_cap in *.
    destruct (max_count <=? Z.of_nat (List.length acc + 1))%Z eqn:Hcap.
    + injection Hrun as <-. rewrite length_app. simpl. lia.
    + apply Z.leb_gt in Hcap. eapply IH; [exact Hrun|].
      rewrite length_app. simpl. lia.
Qed.

(** A scan never returns more than [max_count] paths, and never more than
    one when [max_count] is zero or negative; the monitor's own call, with
    3, returns at most three.  This holds whatever the folder holds and
    whichever stats fail. *)
Theorem get_newest_images_at_most_max_count pattern fs last_processed max_count :
  (List.length (get_newest_images pattern fs last_processed max_count)
   <= batch_cap max_count)%nat
  /\ (Z.of_nat (List.length
                  (get_newest_images pattern fs last_processed max_count))
      <= Z.max 1 max_count)%Z
  /\ (List.length (get_newest_images pattern fs last_processed 3) <= 3)%nat.
Proof.
  assert (H : forall mc,
             (List.length (get_newest_images pattern fs last_processed mc)
              <= batch_cap mc)%nat).
  { intros mc. unfold get_newest_images.
    destruct pattern; [|simpl; lia].
    destruct (glob_glob fs) as [|f files]; [simpl; lia|].
    destruct (scan_loop fs last_processed mc (list_sort (f :: files)) [] false)
      as [out|e] eqn:Hrun; [|simpl; lia].
    eapply scan_loop_length; [exact Hrun|].
    unfold batch_cap. simpl. lia. }
  split; [apply H|]. split.
  - specialize (H max_count). unfold batch_cap in H. lia.
  - apply (H 3%Z).
Qed.

(** ** Counting faces *)

(** Each face of a reply is counted exactly once: when the loop returns,
    the names it added and the unknown faces it counted are together as many
    as the faces, and what was there before is kept in front. *)
Theorem faces_loop_counts_each_face (faces : list Face) :
  forall recognized unknown recognized' unknown',
    faces_loop faces recognized unknown = Return (recognized', unknown') ->
    (List.length recognized' + unknown'
     = List.length recognized + unknown + List.length faces)%nat
    /\ (exists added, recognized' = recognized ++ added)
    /\ (unknown <= unknown')%nat.
Proof.
  induction faces as [|face rest IH];
    intros recognized unknown recognized' unknown' Hrun; simpl in Hrun.
  - injection Hrun as <- <-. simpl. split; [lia|]. split; [|lia].
    exists []. rewrite app_nil_r. reflexivity.
  - cbn [List.length]. destruct (get_subjects face) as [|x xs].
    + destruct (IH _ _ _ _ Hrun) as (Hlen & Hadd & Hunk).
      split; [|split]; [lia | exact Hadd | lia].
    + destruct (Qle_bool 0.7 (get_similarity (max_from x xs))).
      * destruct (subject (max_from x xs)) as [name|]; [|discriminate].
        destruct (IH _ _ _ _ Hrun) as (Hlen & (added & ->) & Hunk).
        rewrite !length_app in Hlen |- *. cbn [List.length] in Hlen |- *.
        split; [|split]; [lia | | lia].
        exists (name :: added). rewrite <- app_assoc. reflexivity.
      * destruct (IH _ _ _ _ Hrun) as (Hlen & Hadd & Hunk).
        split; [|split]; [lia | exact Hadd | lia].
Qed.

Lemma faces_loop_counts_each_face_witness :
  (2 + 1 = 0 + 0 + 3)%nat.
Proof.
  destruct (faces_loop_counts_each_face
              [face_of [("alice", 0.7)]; face_of [("bob", 0.6999)];
               face_of [("carol", 0.4); ("dave", 0.82)]]
              [] 0%nat ["alice"; "dave"] 1%nat) as (H & _).
  - vm_compute. reflexivity.
  - exact H.
Defined.

(** ** Ties between subjects *)

(** [max] returns the first subject of greatest similarity: every subject
    listed before the chosen one is strictly less similar, every subject
    after it at most as similar. *)
Theorem max_from_first_maximum (x : Subject) (xs : list Subject) :
  exists before after,
    x :: xs = before ++ max_from x xs :: after
    /\ Forall (fun y => (get_similarity y
                         < get_similarity (max_from x xs))%Q) before
    /\ Forall (fun y => (get_similarity y
                         <= get_similarity (max_from x xs))%Q) after.
Proof.
  revert x. induction xs as [|y ys IH]; intros x.
  - exists [], []. simpl. repeat split; constructor.
  - simpl.
    destruct (Qle_bool (get_similarity y) (get_similarity x)) eqn:E; simpl.
    + apply Qle_bool_iff in E.
      destruct (IH x) as (before & after & Heq & Hb & Ha).
      remember (max_from x ys) as best eqn:Hbest.
      destruct before as [|b before'].
      * simpl in Heq. injection Heq as Hx Hys.
        exists [], (y :: after). simpl. repeat split.
        -- rewrite <- Hx, Hys. reflexivity.
        -- constructor.
        -- constructor; [rewrite <- Hx; exact E | exact Ha].
      * simpl in Heq. injection Heq as Hx Hys. subst b.
        exists (x :: y :: before'), after. simpl. repeat split.
        -- rewrite Hys. reflexivity.
        -- inversion Hb as [|? ? Hxb Hb']; subst.
           constructor; [exact Hxb|].
           constructor; [|exact Hb'].
           eapply Qle_lt_trans; eassumption.
        -- exact Ha.
    + assert (Hlt : (get_similarity x < get_similarity y)%Q).
      { apply Qnot_le_lt. intros Hle. apply Qle_bool_iff in Hle. congruence. }
      destruct (IH y) as (before & after & Heq & Hb & Ha).
      exists (x :: before), after. simpl. repeat split.
      * f_equal. exact Heq.
      * constructor; [|exact Hb].
        eapply Qlt_le_trans; [exact Hlt | apply max_from_ge_start].
      * exact Ha.
Qed.

(** ** File names *)

Lemma append_assoc (a b c : string) :
  String.append (String.append a b) c = String.append a (String.append b c).
Proof. induction a as [|ch a IH]; simpl; [reflexivity | rewrite IH; reflexivity]. Qed.

Lemma append_empty_r (a : string) : String.append a EmptyString = a.
Proof. induction a as [|ch a IH]; simpl; [reflexivity | rewrite IH; reflexivity]. Qed.

Lemma basename_from_after_sep (a b : string) :
  forall acc,
    basename_from acc (String.append a (String "/" b))
    = basename_from EmptyString b.
Proof.
  induction a as [|c a IH]; intros acc; simpl.
  - reflexivity.
  - destruct (Ascii.eqb c "/"); apply IH.
Qed.

Lemma ends_with_sep_split (a : string) :
  ends_with_sep a = true ->
  exists a', a = String.append a' (String "/" EmptyString).
Proof.
  induction a as [|c a IH]; intros H; [discriminate|].
  destruct a as [|c' a'].
  - simpl in H. apply Ascii.eqb_eq in H. subst. exists EmptyString. reflexivity.
  - destruct (IH H) as (pre & Hpre). exists (String c pre).
    simpl. rewrite <- Hpre. reflexivity.
Qed.

Lemma basename_from_no_sep (b : string) :
  forall acc, lacks "/" b = true -> basename_from acc b = String.append acc b.
Proof.
  induction b as [|c b IH]; intros acc H; simpl.
  - rewrite append_empty_r. reflexivity.
  - simpl in H. apply andb_prop in H as [Hc Hb].
    apply negb_true_iff in Hc. rewrite Hc.
    rewrite IH by exact Hb. rewrite append_assoc. reflexivity.
Qed.

(** The file name the monitor reports for a capture is the name the
    producer gave the file: [basename] undoes [os.path.join] with any
    folder, for every name that contains no [/]. *)
Theorem basename_of_joined_path (folder_path filename : string) :
  basename (path_join folder_path filename) = basename filename
  /\ (lacks "/" filename = true ->
      basename (path_join folder_path filename) = filename).
Proof.
  assert (H : basename (path_join folder_path filename) = basename filename).
  { unfold path_join, basename.
    destruct (starts_with_sep filename); [reflexivity|].
    destruct folder_path as [|c rest]; [reflexivity|].
    destruct (ends_with_sep (String c rest)) eqn:E.
    - destruct (ends_with_sep_split _ E) as (pre & ->).
      rewrite append_assoc. simpl String.append at 2.
      apply basename_from_after_sep.
    - apply basename_from_after_sep. }
  split; [exact H|].
  intros Hno. rewrite H. unfold basename.
  rewrite basename_from_no_sep by exact Hno. reflexivity.
Qed.

Lemma basename_of_joined_path_witness :
  basename (path_join "/home/pi/pull-api/camera_images/ESP32-001"
                      "esp32-001_20250101_120000_123.jpg")
  = "esp32-001_20250101_120000_123.jpg".
Proof.
  apply (basename_of_joined_path "/home/pi/pull-api/camera_images/ESP32-001"
                                 "esp32-001_20250101_120000_123.jpg").
  reflexivity.
Defined.

(** ** What a processed image leaves behind *)

Lemma latest_color_last (s : State) (st : LiveStatus.t)
      (l : list LiveStatus.t) :
  published s = l ++ [st] ->
  latest_status s = Some st.
Proof.
  intros H. unfold latest_status. rewrite H, map_app. simpl.
  apply last_last.
Qed.

(** The no-face sentinel is handled like an empty result: a reply with a
    status other than 200 whose text contains [No face is found] leaves the
    monitor and its files exactly as a 200 reply with an empty [result]
    list does, with a gray status and the cursor on the image. *)
Theorem no_face_sentinel_like_empty_result camera_id env image_path s
        status_code text json :
  net env image_path = Response status_code text json ->
  status_code <> 200%Z ->
  str_in "No face is found" text = true ->
  process_image camera_id env image_path s
  = process_image camera_id (with_net (fun _ => empty_result_reply) env)
                  image_path s
  /\ fst (process_image camera_id env image_path s) = Return tt
  /\ latest_color (snd (process_image camera_id env image_path s)) = Some gray
  /\ last_processed (snd (process_image camera_id env image_path s))
     = Some image_path
  /\ recognition_results_json (snd (process_image camera_id env image_path s))
     = recognition_results_json s.
Proof.
  intros Hnet Hcode Htext.
  assert (Hr : recognize_face (net env) image_path
               = Success {| result := Some [] |} true).
  { unfold recognize_face. rewrite Hnet.
    apply Z.eqb_neq in Hcode. rewrite Hcode, Htext. reflexivity. }
  unfold process_image, bind. rewrite Hr.
  unfold update_live_status, modify. simpl.
  repeat split. published_last.
Qed.

Lemma no_face_sentinel_like_empty_result_witness :
  latest_color
    (snd (process_image "ESP32-001"
            (env_at 100 empty_folder (fun _ => no_face_reply))
            "/cam/a.jpg" (fresh_state Absent)))
  = Some gray.
Proof.
  apply (no_face_sentinel_like_empty_result "ESP32-001"
           (env_at 100 empty_folder (fun _ => no_face_reply))
           "/cam/a.jpg" (fresh_state Absent) 400%Z
           "No face is found in the given image" (Raise "not read")).
  - reflexivity.
  - discriminate.
  - reflexivity.
Defined.

Ltac last_published_in H :=
  match type of H with
  | latest_color ?s = _ =>
      erewrite (latest_color_publish s) in H;
      [| simpl; reflexivity | reflexivity]
  end.

(** The history changes only for a recognition: if [process_image] alters
    [recognition_results.json], the status it published last is green; and
    whenever that status is green it carries at least one name and the
    history is what [save_to_history] makes of it with the file name of the
    image and those names. *)
Theorem history_only_on_recognition camera_id env image_path s :
  let s' := snd (process_image camera_id env image_path s) in
  (recognition_results_json s' <> recognition_results_json s ->
   latest_color s' = Some green)
  /\ (latest_color s' = Some green ->
      exists name names,
        option_map LiveStatus.recognized (latest_status s')
        = Some (name :: names)
        /\ recognition_results_json s'
           = recognition_results_json
               (snd (save_to_history camera_id env
                       (datetime_now env image_path) (basename image_path)
                       (name :: names) s))).
Proof.
  unfold process_image, bind, lift.
  destruct (recognize_face (net env) image_path) as [data no_face | error].
  - destruct (get_result data) as [|face rest].
    + unfold update_live_status, modify. simpl. split.
      * intros H. congruence.
      * intros H. last_published_in H. discriminate.
    + destruct (faces_loop (face :: rest) [] 0) as [[recognized unknown] | e].
      * destruct recognized as [|name names].
        -- unfold update_live_status, modify. simpl. split.
           ++ intros H. congruence.
           ++ intros H. last_published_in H. discriminate.
        -- unfold update_live_status, save_to_history, modify. simpl. split.
           ++ intros _.
              destruct (recognition_results_json s); destruct (writable env);
                simpl; published_last.
           ++ intros _. exists name, names. split.
              ** destruct (recognition_results_json s); destruct (writable env);
                   simpl;
                   (erewrite latest_color_last by (simpl; reflexivity);
                    reflexivity).
              ** destruct (recognition_results_json s) eqn:Hh;
                   destruct (writable env); simpl; rewrite ?Hh; reflexivity.
      * unfold update_live_status, modify. simpl. split.
        -- intros H. congruence.
        -- intros H. last_published_in H. discriminate.
  - unfold update_live_status, modify.
    destruct (str_in "Timeout" error); simpl; split;
      try (intros H; congruence);
      intros H; last_published_in H; discriminate.
Qed.

Lemma history_only_on_recognition_witness :
  latest_color
    (snd (process_image "ESP32-001" (world_of_three 100) "/cam/c_0001.jpg"
                        (fresh_state Absent)))
  = Some green
  /\ exists name names,
       option_map LiveStatus.recognized
         (latest_status
            (snd (process_image "ESP32-001" (world_of_three 100)
                                "/cam/c_0001.jpg" (fresh_state Absent))))
       = Some (name :: names).
Proof.
  destruct (history_only_on_recognition "ESP32-001" (world_of_three 100)
              "/cam/c_0001.jpg" (fresh_state Absent)) as (Hchanged & Hgreen).
  assert (Hcolor :
            latest_color
              (snd (process_image "ESP32-001" (world_of_three 100)
                                  "/cam/c_0001.jpg" (fresh_state Absent)))
            = Some green).
  { apply Hchanged. vm_compute. discriminate. }
  split; [exact Hcolor|].
  destruct (Hgreen Hcolor) as (name & names & Hnames & _).
  exists name, names. exact Hnames.
Defined.

(** ** What [process_image] keeps *)

Lemma process_image_frame camera_id env image_path s :
  let s' := snd (process_image camera_id env image_path s) in
  is_busy s' = is_busy s
  /\ (writable env = true -> file_is_current s')
  /\ exists final,
      published s'
      = published s
        ++ {| LiveStatus.camera_id := camera_id;
              LiveStatus.status := processing;
              LiveStatus.message := MsgProcessing (basename image_path);
              LiveStatus.recognized := [];
              LiveStatus.image_file := Some (basename image_path) |}
        :: final
      /\ Forall (fun st => match LiveStatus.message st with
                            | MsgProcessing _ => False
                            | _ => True
                            end) final
      /\ (List.length final <= 1)%nat.
Proof.
  unfold file_is_current, process_image, bind, lift, update_live_status,
    save_to_history, modify.
  destruct (recognize_face (net env) image_path) as [data no_face | error].
  - destruct (get_result data) as [|face rest].
    + simpl. split; [reflexivity|]. split.
      * intros ->. symmetry. eapply latest_color_last. reflexivity.
      * eexists [_]. rewrite <- app_assoc. split; [reflexivity|].
        split; [constructor; [exact I | constructor] | simpl; lia].
    + destruct (faces_loop (face :: rest) [] 0) as [[recognized unknown] | e].
      * destruct recognized as [|name names]; simpl.
        -- split; [reflexivity|]. split.
           ++ intros ->. symmetry. eapply latest_color_last. reflexivity.
           ++ eexists [_]. rewrite <- app_assoc. split; [reflexivity|].
              split; [constructor; [exact I | constructor] | simpl; lia].
        -- split;
             [destruct (recognition_results_json s); destruct (writable env);
              reflexivity|].
           split.
           ++ intros ->. destruct (recognition_results_json s); simpl;
                symmetry; eapply latest_color_last; reflexivity.
           ++ eexists [_]. split.
              { destruct (recognition_results_json s); destruct (writable env);
                  simpl; rewrite <- app_assoc; reflexivity. }
              split; [constructor; [exact I | constructor] | simpl; lia].
      * simpl. split; [reflexivity|]. split.
        -- intros ->. symmetry. eapply latest_color_last. reflexivity.
        -- exists []. split; [reflexivity|]. split; [constructor | simpl; lia].
  - destruct (str_in "Timeout" error); simpl;
      (split; [reflexivity|]; split;
       [intros ->; symmetry; eapply latest_color_last; reflexivity|];
       eexists [_]; rewrite <- app_assoc; split; [reflexivity|];
       split; [constructor; [exact I | constructor] | simpl; lia]).
Qed.

Lemma announced_app (s s' : State) (news : list LiveStatus.t) :
  published s' = published s ++ news ->
  announced s'
  = announced s
    ++ flat_map (fun st => match LiveStatus.message st with
                           | MsgProcessing filename => [filename]
                           | _ => []
                           end) news.
Proof. intros H. unfold announced. rewrite H. apply flat_map_app. Qed.

Lemma process_image_announces camera_id env image_path s :
  announced (snd (process_image camera_id env image_path s))
  = announced s ++ [basename image_path].
Proof.
  destruct (process_image_frame camera_id env image_path s)
    as (_ & _ & final & Hpub & Hfinal & _).
  rewrite (announced_app _ _ _ Hpub). f_equal. simpl. f_equal.
  clear Hpub. induction Hfinal as [|st rest Hst _ IH]; [reflexivity|].
  simpl. rewrite IH. destruct (LiveStatus.message st); try reflexivity.
  destruct Hst.
Qed.

Lemma last_cons_default {A : Type} (l : list A) :
  forall a d, List.last (a :: l) d = List.last l a.
Proof.
  induction l as [|b l IH]; intros a d; [reflexivity|].
  change (List.last (a :: b :: l) d) with (List.last (b :: l) d).
  rewrite !IH. reflexivity.
Qed.

(** The batch loop: it keeps [is_busy], announces each image it calls
    [process_image] on, and either works through the whole batch, leaving
    the cursor on its last image, or stops at the call that raises. *)
Lemma batch_summary camera_id env (images : list string) :
  forall s,
    let r := for_each (process_image camera_id env) images s in
    let calls := batch_calls camera_id env images s in
    is_busy (snd r) = is_busy s
    /\ (writable env = true -> images <> [] -> file_is_current (snd r))
    /\ announced (snd r) = announced s ++ map basename calls
    /\ (exists rest, images = calls ++ rest)
    /\ ((fst r = Return tt /\ calls = images
         /\ last_processed (snd r)
            = List.last (map Some images) (last_processed s))
        \/ (exists e, fst r = Raise e)).
Proof.
  induction images as [|p rest IH]; intros s.
  - simpl. repeat split.
    + intros _ H. congruence.
    + rewrite app_nil_r. reflexivity.
    + exists []. reflexivity.
    + left. repeat split.
  - cbn [for_each batch_calls]. unfold bind.
    pose proof (process_image_frame camera_id env p s) as (Hbusy & Hfile & _).
    pose proof (process_image_announces camera_id env p s) as Hann.
    pose proof (process_image_cursor camera_id env p s) as Hcur.
    destruct (process_image camera_id env p s) as [r1 s1].
    cbn [fst snd] in *.
    destruct Hcur as [[-> Hc] | [[e ->] Hc]].
    + specialize (IH s1). cbv zeta in IH.
      destruct IH as (IHbusy & IHfile & IHann & (rest' & IHpre) & IHend).
      split; [congruence|]. split.
      { intros Hw _. destruct rest as [|q rest''].
        - simpl. apply Hfile, Hw.
        - apply IHfile; [exact Hw | discriminate]. }
      split.
      { rewrite IHann, Hann, <- app_assoc. reflexivity. }
      split.
      { exists rest'. simpl. f_equal. exact IHpre. }
      destruct IHend as [(Hr & Hcalls & Hlast) | (e & Hr)].
      * left. split; [exact Hr|]. split; [f_equal; exact Hcalls|].
        rewrite Hlast, Hc. cbn [map]. rewrite last_cons_default. reflexivity.
      * right. exists e. exact Hr.
    + split; [exact Hbusy|]. split; [intros Hw _; apply Hfile, Hw|].
      split; [exact Hann|]. split; [exists rest; reflexivity|].
      right. exists e. reflexivity.
Qed.

(** ** The three kinds of pass *)

Lemma tick_skipped camera_id config env l s :
  lock_acquired env = false \/ is_busy s = true ->
  tick camera_id config env l s
  = (l, next_delay (get_check_interval config) (consecutive_empty l), s).
Proof.
  intros H. unfold tick, iteration, bind, get, modify, ret.
  destruct (lock_acquired env); [|reflexivity].
  destruct H as [H | H]; [discriminate|]. rewrite H. reflexivity.
Qed.

Lemma tick_batch camera_id config env l s (p : string) (rest : list string) :
  lock_acquired env = true ->
  is_busy s = false ->
  get_newest_images (file_pattern config) (folder env) (last_processed s) 3
  = p :: rest ->
  let r := for_each (process_image camera_id env) (p :: rest)
                    (set_is_busy true s) in
  tick camera_id config env l s
  = match fst r with
    | Return _ =>
        ({| consecutive_empty := 0; last_heartbeat := last_heartbeat l |},
         next_delay (get_check_interval config) 0,
         set_is_busy false (snd r))
    | Raise e =>
        (l, get_check_interval config,
         snd (update_live_status camera_id env red (MsgSystemError e) []
                                 None (snd r)))
    end.
Proof.
  intros Hlock Hbusy Hscan r. subst r.
  unfold tick, iteration, bind, get, modify, ret.
  rewrite Hlock, Hbusy. cbn [negb]. rewrite Hscan.
  destruct (for_each (process_image camera_id env) (p :: rest)
              (set_is_busy true s)) as [[u | e] s']; reflexivity.
Qed.

Lemma process_image_returns camera_id env image_path s :
  reply_well_formed (recognize_face (net env) image_path) ->
  fst (process_image camera_id env image_path s) = Return tt.
Proof.
  intros Hwf.
  destruct (recognize_face (net env) image_path) as [data no_face | error] eqn:Hr.
  - destruct (process_image_success camera_id env image_path s data no_face
                Hr Hwf) as (s' & -> & _). reflexivity.
  - destruct (process_image_failure camera_id env image_path s error Hr)
      as (s' & -> & _). reflexivity.
Qed.

Lemma for_each_returns camera_id env (images : list string) :
  forall s,
    Forall (fun p => reply_well_formed (recognize_face (net env) p)) images ->
    fst (for_each (process_image camera_id env) images s) = Return tt.
Proof.
  induction images as [|p rest IH]; intros s Hall; [reflexivity|].
  inversion Hall as [|? ? Hp Hrest]; subst.
  cbn [for_each]. unfold bind.
  pose proof (process_image_returns camera_id env p s Hp) as Hret.
  destruct (process_image camera_id env p s) as [r s1]. cbn [fst] in Hret.
  subst r. apply IH, Hrest.
Qed.

(** A pass that finds candidates and gets an answer for each: every
    candidate is announced and processed in order, the cursor ends on the
    last of them, the counter of empty passes is back at 0, the next sleep
    is 0.2 s whatever the baseline, the time of the last heartbeat is kept
    and the monitor is not busy afterwards. *)
Theorem pass_with_candidates camera_id config env l s :
  lock_acquired env = true ->
  is_busy s = false ->
  let images := get_newest_images (file_pattern config) (folder env)
                                  (last_processed s) 3 in
  images <> [] ->
  Forall (fun p => reply_well_formed (recognize_face (net env) p)) images ->
  exists s',
    tick camera_id config env l s
    = ({| consecutive_empty := 0; last_heartbeat := last_heartbeat l |},
       0.2, s')
    /\ last_processed s' = List.last (map Some images) None
    /\ is_busy s' = false
    /\ announced s' = announced s ++ map basename images
    /\ pass_calls camera_id config env s = images.
Proof.
  intros Hlock Hbusy images Hne Hwf.
  destruct images as [|p rest] eqn:Himages; [congruence|].
  pose proof (tick_batch camera_id config env l s p rest Hlock Hbusy Himages)
    as Htick. cbv zeta in Htick.
  pose proof (for_each_returns camera_id env (p :: rest) (set_is_busy true s) Hwf)
    as Hret.
  pose proof (batch_summary camera_id env (p :: rest) (set_is_busy true s))
    as (_ & _ & Hann & _ & Hend). 
  rewrite Hret in Htick.
  destruct Hend as [(_ & Hcalls & Hlast) | (e & He)]; [|congruence].
  eexists. split; [exact Htick|]. cbn [set_is_busy last_processed is_busy].
  split.
  { rewrite Hlast. cbn [map]. rewrite !last_cons_default. reflexivity. }
  split; [reflexivity|]. split.
  { unfold announced in *. cbn [published set_is_busy] in *.
    rewrite Hann, Hcalls. reflexivity. }
  unfold pass_calls. rewrite Hlock, Hbusy. cbn [negb andb].
  fold images. rewrite Himages. exact Hcalls.
Qed.

Lemma pass_with_candidates_witness :
  exists s',
    tick "ESP32-001" default_config (world_of_three 100) initial_locals
         (fresh_state Absent)
    = ({| consecutive_empty := 0; last_heartbeat := 0 |}, 0.2, s')
    /\ last_processed s' = Some "/cam/c_0003.jpg".
Proof.
  assert (Himg : get_newest_images (file_pattern default_config)
                   (folder (world_of_three 100))
                   (last_processed (fresh_state Absent)) 3
                 = ["/cam/c_0001.jpg"; "/cam/c_0002.jpg"; "/cam/c_0003.jpg"])
    by (vm_compute; reflexivity).
  destruct (pass_with_candidates "ESP32-001" default_config (world_of_three 100)
              initial_locals (fresh_state Absent))
    as (s' & Htick & Hlast & _).
  - reflexivity.
  - reflexivity.
  - rewrite Himg. discriminate.
  - rewrite Himg.
    repeat (constructor;
            [intros face best Hin Hbest _;
             destruct Hin as [<- | []];
             vm_compute in Hbest; injection Hbest as <-; discriminate|]).
    constructor.
  - exists s'. split; [exact Htick|]. rewrite Hlast, Himg. reflexivity.
Defined.

(** ** A pass that raises *)

Lemma run_loop_busy camera_id config world (n : nat) :
  forall t l s,
    is_busy s = true ->
    snd (run_loop camera_id config n world t l s) = s
    /\ fst (fst (run_loop camera_id config n world t l s)) = l
    /\ run_calls camera_id config n world t l s = [].
Proof.
  induction n as [|n IH]; intros t l s Hbusy.
  - repeat split.
  - cbn [run_loop run_calls].
    rewrite (tick_skipped camera_id config (world t) l s (or_intror Hbusy)).
    unfold pass_calls. rewrite Hbusy, andb_false_r. simpl app.
    apply IH, Hbusy.
Qed.

(** An exception inside a pass stops the monitor for good.  When
    [process_image] raises, the handler publishes a red status with the
    message of the exception and sleeps the baseline interval, but
    [is_busy] stays set: from then on no pass scans the folder, calls
    [process_image], publishes anything or moves the cursor, whatever
    arrives in the folder. *)
Theorem raising_pass_stops_monitor camera_id config env l s e :
  fst (iteration camera_id config env l s) = Raise e ->
  let s1 := snd (tick camera_id config env l s) in
  fst (tick camera_id config env l s) = (l, get_check_interval config)
  /\ is_busy s1 = true
  /\ option_map LiveStatus.status (latest_status s1) = Some red
  /\ option_map LiveStatus.message (latest_status s1)
     = Some (MsgSystemError e)
  /\ forall n world t l',
      snd (run_loop camera_id config n world t l' s1) = s1
      /\ fst (fst (run_loop camera_id config n world t l' s1)) = l'
      /\ run_calls camera_id config n world t l' s1 = [].
Proof.
  intros Hraise s1.
  assert (H : fst (tick camera_id config env l s) = (l, get_check_interval config)
              /\ is_busy s1 = true
              /\ option_map LiveStatus.status (latest_status s1) = Some red
              /\ option_map LiveStatus.message (latest_status s1)
                 = Some (MsgSystemError e)).
  { subst s1. unfold tick.
    destruct (iteration camera_id config env l s) as [[[l' d] | e'] s'] eqn:Hit;
      cbn [fst] in Hraise; [discriminate|]. injection Hraise as ->.
    cbn [fst snd]. split; [reflexivity|].
    assert (Hbusy : is_busy s' = true).
    { revert Hit. unfold iteration, bind, get, modify, ret.
      destruct (lock_acquired env); [|discriminate].
      destruct (is_busy s); [discriminate|]. cbn [negb].
      destruct (get_newest_images (file_pattern config) (folder env)
                  (last_processed s) 3) as [|p rest].
      - unfold update_live_status, modify.
        destruct (negb (Qle_bool (current_time env - last_heartbeat l) 30));
          discriminate.
      - pose proof (batch_summary camera_id env (p :: rest) (set_is_busy true s))
          as (Hb & _).
        destruct (for_each (process_image camera_id env) (p :: rest)
                    (set_is_busy true s)) as [[u | e''] s''];
          [discriminate|].
        intros Heq. injection Heq as _ <-. exact Hb. }
    unfold update_live_status, modify. cbn [snd is_busy].
    split; [exact Hbusy|].
    split; (erewrite latest_color_last by (simpl; reflexivity); reflexivity). }
  destruct H as (H1 & H2 & H3 & H4).
  repeat split; try assumption; apply run_loop_busy; exact H2.
Qed.

Lemma raising_pass_stops_monitor_witness :
  let s1 := snd (tick "ESP32-001" default_config (world_of_nameless 100)
                      initial_locals (fresh_state Absent)) in
  is_busy s1 = true
  /\ last_processed
       (snd (run_loop "ESP32-001" default_config 10 world_of_three 101
                      initial_locals s1))
     = None.
Proof.
  intros s1. subst s1.
  destruct (raising_pass_stops_monitor "ESP32-001" default_config
              (world_of_nameless 100) initial_locals (fresh_state Absent)
              "KeyError: 'subject'") as (_ & Hbusy & _ & _ & Hrun).
  - vm_compute. reflexivity.
  - split; [exact Hbusy|].
    destruct (Hrun 10%nat world_of_three 101 initial_locals) as (-> & _).
    vm_compute. reflexivity.
Defined.

(** ** No image is processed twice *)

Lemma sorted_app {A : Type} (R : A -> A -> Prop) (l1 l2 : list A) :
  StronglySorted R l1 -> StronglySorted R l2 ->
  (forall a b, In a l1 -> In b l2 -> R a b) ->
  StronglySorted R (l1 ++ l2).
Proof.
  induction l1 as [|x l1 IH]; intros H1 H2 H12; simpl; [exact H2|].
  inversion H1 as [|? ? Hs Hall]; subst. constructor.
  - apply IH; [exact Hs | exact H2 |].
    intros a b Ha Hb. apply H12; [right; exact Ha | exact Hb].
  - apply Forall_app. split; [exact Hall|].
    apply Forall_forall. intros b Hb. apply H12; [left; reflexivity | exact Hb].
Qed.

Lemma sorted_prefix {A : Type} (R : A -> A -> Prop) (l1 l2 : list A) :
  StronglySorted R (l1 ++ l2) -> StronglySorted R l1.
Proof.
  induction l1 as [|x l1 IH]; intros H; [constructor|].
  simpl in H. inversion H as [|? ? Hs Hall]; subst. constructor; [auto|].
  apply Forall_app in Hall. apply Hall.
Qed.

Lemma strictly_sorted_NoDup (l : list string) :
  StronglySorted str_lt l -> NoDup l.
Proof.
  induction 1 as [|x l Hs IH Hall]; constructor; [|exact IH].
  intros Hin. rewrite Forall_forall in Hall.
  apply (lt_neq x x); [apply Hall, Hin | reflexivity].
Qed.

Lemma strictly_sorted_last_ge (l : list string) (d : string) :
  StronglySorted str_lt l ->
  forall o, In o l -> str_le o (List.last l d).
Proof.
  induction 1 as [|x l Hs IH Hall]; intros o Hin; [destruct Hin|].
  rewrite last_cons_default. destruct l as [|y l'].
  - destruct Hin as [<- | []]. apply str_le_refl.
  - rewrite (last_cons_default l' y x), <- (last_cons_default l' y d).
    destruct Hin as [<- | Hin].
    + eapply leb_trans; [apply lt_le; apply (Forall_inv Hall)|].
      apply IH. left. reflexivity.
    + apply IH, Hin.
Qed.

Lemma candidates_listed pattern fs last_processed max_count (p : string) :
  In p (get_newest_images pattern fs last_processed max_count) ->
  In p (glob_glob fs).
Proof.
  intros Hin.
  destruct (get_newest_images_sound pattern fs last_processed max_count)
    as (sel & Heq & Hsub & _).
  rewrite Heq in Hin.
  eapply Permutation_in; [apply list_sort_perm|].
  eapply subseq_In; eassumption.
Qed.

Lemma announced_heartbeat (s s' : State) camera_id (b : bool) (n : nat) :
  published s'
  = published s ++ (if b then [heartbeat_status camera_id n] else []) ->
  announced s' = announced s.
Proof.
  intros H. rewrite (announced_app _ _ _ H).
  destruct b; simpl; apply app_nil_r.
Qed.

Lemma last_map_Some (l : list string) :
  forall x d,
    List.last (map Some (x :: l)) d = Some (List.last (x :: l) x).
Proof.
  induction l as [|y l IH]; intros x d; [reflexivity|].
  change (List.last (map Some (x :: y :: l)) d)
    with (List.last (map Some (y :: l)) d).
  rewrite IH. f_equal.
  change (List.last (x :: y :: l) x) with (List.last (y :: l) x).
  rewrite !last_cons_default. reflexivity.
Qed.

(** One pass keeps the calls so far strictly ascending and behind the
    cursor. *)
Lemma pass_step camera_id config env l s (prev : list string) :
  NoDup (glob_glob (folder env)) ->
  ~ In EmptyString (glob_glob (folder env)) ->
  StronglySorted str_lt prev ->
  calls_behind_cursor s prev ->
  let calls := pass_calls camera_id config env s in
  let s' := snd (tick camera_id config env l s) in
  StronglySorted str_lt (prev ++ calls)
  /\ calls_behind_cursor s' (prev ++ calls)
  /\ announced s' = announced s ++ map basename calls.
Proof.
  intros Hnd Hne Hprev Hinv calls s'. subst calls s'. unfold pass_calls.
  destruct (lock_acquired env) eqn:Hlock;
    [|rewrite tick_skipped by (left; exact Hlock);
      cbn [andb snd map]; rewrite !app_nil_r; auto].
  destruct (is_busy s) eqn:Hbusy;
    [rewrite tick_skipped by (right; exact Hbusy);
     cbn [andb negb snd map]; rewrite !app_nil_r; auto|].
  cbn [andb negb].
  destruct Hinv as [Hinv | Hinv]; [congruence|].
  destruct (candidates_ascending (file_pattern config) (folder env)
              (last_processed s) 3 Hnd) as [Hsorted Hafter].
  pose proof (candidates_listed (file_pattern config) (folder env)
                (last_processed s) 3) as Hlisted.
  destruct (get_newest_images (file_pattern config) (folder env)
              (last_processed s) 3) as [|p rest] eqn:Hscan.
  - destruct (tick_empty_scan camera_id config env l s Hlock Hbusy Hscan)
      as (s' & Htick & Hb & Hlp & _ & Hpub).
    rewrite Htick. cbn [batch_calls snd map]. rewrite !app_nil_r.
    split; [exact Hprev|]. split.
    + right. rewrite Hlp. exact Hinv.
    + eapply announced_heartbeat. exact Hpub.
  - pose proof (tick_batch camera_id config env l s p rest Hlock Hbusy Hscan)
      as Htick. cbv zeta in Htick.
    pose proof (batch_summary camera_id env (p :: rest) (set_is_busy true s))
      as (Hb & _ & Hann & (more & Hpre) & Hend). cbv zeta in *.
    set (calls := batch_calls camera_id env (p :: rest) (set_is_busy true s))
      in *.
    assert (Hcalls_sorted : StronglySorted str_lt calls).
    { apply (sorted_prefix _ calls more). rewrite <- Hpre. exact Hsorted. }
    assert (Hcross : forall a b, In a prev -> In b calls -> str_lt a b).
    { intros a b Ha Hb'.
      assert (Hbin : In b (p :: rest)).
      { rewrite Hpre. apply in_or_app. left. exact Hb'. }
      rewrite Forall_forall in Hinv, Hafter.
      destruct (Hinv a Ha) as (c & Hc & Hcne & Hle).
      destruct (Hafter b Hbin) as [Hfalsy | (c' & Hc' & Hlt)].
      - rewrite Hc in Hfalsy. destruct c; [congruence | discriminate].
      - rewrite Hc in Hc'. injection Hc' as <-.
        apply leb_iff in Hle. destruct Hle as [-> | Hle]; [exact Hlt|].
        eapply ltb_trans; eassumption. }
    split; [apply sorted_app; assumption|].
    destruct Hend as [(Hr & Hall & Hlast) | (e & Hr)].
    + rewrite Hr in Htick. rewrite Htick. cbn [snd]. split.
      * right. cbn [set_is_busy last_processed].
        rewrite Hlast. cbn [set_is_busy last_processed].
        rewrite last_map_Some.
        assert (Hlast_in : In (List.last (p :: rest) p) (p :: rest)).
        { destruct (exists_last (l := p :: rest)) as (front & z & Hz);
            [discriminate|].
          rewrite Hz, last_last. apply in_or_app. right. left. reflexivity. }
        assert (Hlast_ne : List.last (p :: rest) p <> EmptyString).
        { intros Hempty. apply Hne. apply Hlisted. rewrite <- Hempty.
          exact Hlast_in. }
        apply Forall_app. split.
        -- apply Forall_forall. intros a Ha.
           exists (List.last (p :: rest) p). repeat split; [exact Hlast_ne|].
           apply lt_le. apply Hcross; [exact Ha|]. rewrite Hall.
           exact Hlast_in.
        -- rewrite Hall. apply Forall_forall. intros a Ha.
           exists (List.last (p :: rest) p). repeat split; [exact Hlast_ne|].
           apply strictly_sorted_last_ge; assumption.
      * unfold announced in *. cbn [published set_is_busy] in *. exact Hann.
    + rewrite Hr in Htick. rewrite Htick. cbn [snd]. split.
      * left. unfold update_live_status, modify. cbn [snd is_busy].
        rewrite Hb. reflexivity.
      * unfold update_live_status, modify. cbn [snd].
        erewrite announced_app by (cbn [published]; reflexivity).
        cbn [flat_map LiveStatus.message app]. rewrite app_nil_r.
        unfold announced in *. cbn [published set_is_busy] in *. exact Hann.
Qed.

Lemma run_calls_ascending camera_id config world (n : nat) :
  (forall t, NoDup (glob_glob (folder (world t)))) ->
  (forall t, ~ In EmptyString (glob_glob (folder (world t)))) ->
  forall t l s prev,
    StronglySorted str_lt prev ->
    calls_behind_cursor s prev ->
    StronglySorted str_lt
      (prev ++ run_calls camera_id config n world t l s)
    /\ announced (snd (run_loop camera_id config n world t l s))
       = announced s ++ map basename (run_calls camera_id config n world t l s).
Proof.
  intros Hnd Hne. induction n as [|n IH]; intros t l s prev Hprev Hinv.
  - simpl. rewrite !app_nil_r. split; [exact Hprev | reflexivity].
  - cbn [run_loop run_calls].
    pose proof (pass_step camera_id config (world t) l s prev (Hnd t) (Hne t)
                  Hprev Hinv) as (Hsorted & Hinv' & Hann).
    destruct (tick camera_id config (world t) l s) as [[l' delay] s'].
    cbn [snd] in Hinv', Hann.
    destruct (IH (t + delay)%Q l' s' _ Hsorted Hinv') as (Hs & Ha).
    rewrite app_assoc. split; [exact Hs|].
    rewrite Ha, Hann, map_app, app_assoc. reflexivity.
Qed.

(** No image is processed twice.  In a world whose listings name no path
    twice and no empty path, the images handed to [process_image] over any
    number of passes, from any state of the monitor, are strictly ascending
    in path order, hence pairwise different, and they are exactly the images
    the [processing] statuses announce, in that order. *)
Theorem no_image_processed_twice camera_id config world :
  (forall t, NoDup (glob_glob (folder (world t)))) ->
  (forall t, ~ In EmptyString (glob_glob (folder (world t)))) ->
  forall n t l s,
    StronglySorted str_lt (run_calls camera_id config n world t l s)
    /\ NoDup (run_calls camera_id config n world t l s)
    /\ announced (snd (run_loop camera_id config n world t l s))
       = announced s ++ map basename (run_calls camera_id config n world t l s).
Proof.
  intros Hnd Hne n t l s.
  destruct (run_calls_ascending camera_id config world n Hnd Hne t l s [])
    as (Hs & Ha).
  - constructor.
  - right. constructor.
  - simpl in Hs. split; [exact Hs|]. split; [|exact Ha].
    apply strictly_sorted_NoDup, Hs.
Qed.

Lemma no_image_processed_twice_witness :
  run_calls "ESP32-001" default_config 3 world_of_three 100 initial_locals
            (fresh_state Absent)
  = ["/cam/c_0001.jpg"; "/cam/c_0002.jpg"; "/cam/c_0003.jpg"]
  /\ NoDup (run_calls "ESP32-001" default_config 3 world_of_three 100
                      initial_locals (fresh_state Absent)).
Proof.
  split; [vm_compute; reflexivity|].
  apply (no_image_processed_twice "ESP32-001" default_config world_of_three).
  - intros t. simpl.
    repeat (constructor; [simpl; intuition discriminate|]). constructor.
  - intros t. simpl. intuition discriminate.
Defined.

(** ** Captures the cursor has passed *)

(** A capture the cursor has passed is never processed.  In a world whose
    listings name no path twice and no empty path, once the cursor is on a
    path, no path that sorts at or before it is handed to [process_image]
    in any later pass.  So a capture that was too young or too small when a
    capture sorting after it was processed is skipped for good, even when it
    is old and large enough later. *)
Theorem capture_behind_cursor_never_processed camera_id config world :
  (forall t, NoDup (glob_glob (folder (world t)))) ->
  (forall t, ~ In EmptyString (glob_glob (folder (world t)))) ->
  forall n t l s c p,
    last_processed s = Some c ->
    c <> EmptyString ->
    str_le p c ->
    ~ In p (run_calls camera_id config n world t l s).
Proof.
  intros Hnd Hne n t l s c p Hcur Hc Hle Hin.
  destruct (run_calls_ascending camera_id config world n Hnd Hne t l s [p])
    as [Hsorted _].
  - repeat constructor.
  - right. constructor; [|constructor]. exists c. auto.
  - cbn [app] in Hsorted. inversion Hsorted as [|? ? _ Hall]; subst.
    rewrite Forall_forall in Hall. specialize (Hall p Hin).
    apply (lt_neq p p Hall). reflexivity.
Qed.

Lemma capture_behind_cursor_never_processed_witness :
  run_calls "ESP32-001" default_config 6 late_world 100 initial_locals
            (fresh_state Absent)
  = ["/cam/c_0002.jpg"; "/cam/c_0003.jpg"; "/cam/c_0004.jpg"]
  /\ stableb (late_folder 101) "/cam/c_0001.jpg" = true
  /\ forall n t l,
      ~ In "/cam/c_0001.jpg"
           (run_calls "ESP32-001" default_config n late_world t l
              (snd (run_loop "ESP32-001" default_config 1 late_world 100
                             initial_locals (fresh_state Absent)))).
Proof.
  split; [vm_compute; reflexivity|]. split; [vm_compute; reflexivity|].
  intros n t l.
  apply (capture_behind_cursor_never_processed "ESP32-001" default_config
           late_world) with (c := "/cam/c_0004.jpg").
  - intros t'. simpl.
    repeat (constructor; [simpl; intuition discriminate|]). constructor.
  - intros t'. simpl. intuition discriminate.
  - vm_compute. reflexivity.
  - discriminate.
  - vm_compute. reflexivity.
Defined.

(** ** Working off a backlog *)

Lemma tick_batch_all_return camera_id config env l s (images : list string) :
  lock_acquired env = true ->
  is_busy s = false ->
  get_newest_images (file_pattern config) (folder env) (last_processed s) 3
  = images ->
  images <> [] ->
  (forall p, reply_well_formed (recognize_face (net env) p)) ->
  let s' := snd (tick camera_id config env l s) in
  pass_calls camera_id config env s = images
  /\ is_busy s' = false
  /\ last_processed s' = List.last (map Some images) None.
Proof.
  intros Hlock Hbusy Hscan Hne Hwf s'. subst s'.
  destruct images as [|p rest]; [congruence|].
  pose proof (tick_batch camera_id config env l s p rest Hlock Hbusy Hscan)
    as Htick. cbv zeta in Htick.
  assert (Hall : Forall (fun q => reply_well_formed (recognize_face (net env) q))
                        (p :: rest)).
  { apply Forall_forall. intros q _. apply Hwf. }
  rewrite (for_each_returns camera_id env (p :: rest) (set_is_busy true s) Hall)
    in Htick.
  pose proof (batch_summary camera_id env (p :: rest) (set_is_busy true s))
    as (_ & _ & _ & _ & Hend). cbv zeta in Hend.
  destruct Hend as [(_ & Hcalls & Hlast) | (e & He)].
  - rewrite Htick. cbn [snd set_is_busy is_busy last_processed].
    unfold pass_calls. rewrite Hlock, Hbusy, Hscan. cbn [andb negb].
    split; [exact Hcalls|]. split; [reflexivity|].
    rewrite Hlast. rewrite !last_map_Some. reflexivity.
  - rewrite (for_each_returns camera_id env (p :: rest) (set_is_busy true s) Hall)
      in He. discriminate.
Qed.

Lemma filter_andb {A : Type} (f g : A -> bool) (l : list A) :
  filter (fun x => f x && g x) l = filter f (filter g l).
Proof.
  induction l as [|x l IH]; simpl; [reflexivity|].
  destruct (g x); simpl.
  - rewrite andb_true_r. destruct (f x); rewrite IH; reflexivity.
  - rewrite andb_false_r. exact IH.
Qed.

Lemma sorted_app_inv {A : Type} (R : A -> A -> Prop) (l1 l2 : list A) :
  StronglySorted R (l1 ++ l2) ->
  forall a b, In a l1 -> In b l2 -> R a b.
Proof.
  induction l1 as [|x l1 IH]; intros H a b Ha Hb; [destruct Ha|].
  simpl in H. inversion H as [|? ? Hs Hall]; subst.
  destruct Ha as [<- | Ha].
  - rewrite Forall_forall in Hall. apply Hall, in_or_app. right. exact Hb.
  - apply IH; assumption.
Qed.

Lemma filter_all {A : Type} (f : A -> bool) (l : list A) :
  (forall x, In x l -> f x = true) -> filter f l = l.
Proof.
  induction l as [|x l IH]; intros H; simpl; [reflexivity|].
  rewrite (H x) by (left; reflexivity). f_equal. apply IH.
  intros y Hy. apply H. right. exact Hy.
Qed.

Lemma filter_none {A : Type} (f : A -> bool) (l : list A) :
  (forall x, In x l -> f x = false) -> filter f l = [].
Proof.
  induction l as [|x l IH]; intros H; simpl; [reflexivity|].
  rewrite (H x) by (left; reflexivity). apply IH.
  intros y Hy. apply H. right. exact Hy.
Qed.

(** In a strictly ascending list cut after the cursor, the paths after the
    cursor are those behind the cut. *)
Lemma filter_after_cursor (done todo : list string) :
  StronglySorted str_lt (done ++ todo) ->
  ~ In EmptyString (done ++ todo) ->
  filter (after_cursorb (List.last (map Some done) None)) (done ++ todo) = todo.
Proof.
  intros Hs Hne. destruct done as [|x done'].
  - simpl. apply filter_all. intros p _. reflexivity.
  - rewrite last_map_Some. set (c := List.last (x :: done') x).
    assert (Hc : In c (x :: done')).
    { subst c. destruct (exists_last (l := x :: done')) as (front & z & Hz);
        [discriminate|].
      rewrite Hz, last_last. apply in_or_app. right. left. reflexivity. }
    assert (Htruthy : truthy (Some c) = true).
    { destruct c; [|reflexivity]. exfalso. apply Hne.
      apply in_or_app. left. exact Hc. }
    rewrite filter_app.
    rewrite (filter_none _ (x :: done')), (filter_all _ todo); [reflexivity | |].
    + intros p Hp. unfold after_cursorb, gt_last_processed.
      rewrite Htruthy. simpl.
      apply (sorted_app_inv _ _ _ Hs); assumption.
    + intros p Hp. unfold after_cursorb, gt_last_processed.
      rewrite Htruthy. simpl.
      destruct (String.ltb c p) eqn:E; [|reflexivity]. exfalso.
      pose proof (strictly_sorted_last_ge (x :: done') x
                    (sorted_prefix _ _ _ Hs) p Hp) as Hle.
      fold c in Hle. apply leb_iff in Hle.
      destruct Hle as [-> | Hlt].
      * rewrite ltb_irrefl in E. discriminate.
      * apply (lt_neq c c); [|reflexivity].
        eapply ltb_trans; [exact E | exact Hlt].
Qed.

Lemma subseq_filter {A : Type} (f : A -> bool) (l : list A) :
  subseq (filter f l) l.
Proof.
  induction l as [|x l IH]; simpl; [constructor|].
  destruct (f x); [apply subseq_take | apply subseq_skip]; exact IH.
Qed.

Lemma firstn_add {A : Type} (a b : nat) (l : list A) :
  firstn (a + b) l = firstn a l ++ firstn b (skipn a l).
Proof.
  revert l. induction a as [|a IH]; intros l; [reflexivity|].
  destruct l as [|x l]; simpl.
  - rewrite firstn_nil. reflexivity.
  - rewrite IH. reflexivity.
Qed.

Lemma last_app_nonempty {A : Type} (l1 l2 : list A) (d d' : A) :
  l2 <> [] -> List.last (l1 ++ l2) d = List.last l2 d'.
Proof.
  intros H. destruct (exists_last H) as (front & z & ->).
  rewrite app_assoc, !last_last. reflexivity.
Qed.

Lemma tick_batch_delay camera_id config env l s (images : list string) :
  lock_acquired env = true ->
  is_busy s = false ->
  get_newest_images (file_pattern config) (folder env) (last_processed s) 3
  = images ->
  images <> [] ->
  (forall p, reply_well_formed (recognize_face (net env) p)) ->
  snd (fst (tick camera_id config env l s)) = 0.2.
Proof.
  intros Hlock Hbusy Hscan Hne Hwf.
  destruct images as [|p rest]; [congruence|].
  pose proof (tick_batch camera_id config env l s p rest Hlock Hbusy Hscan)
    as Htick. cbv zeta in Htick.
  assert (Hall : Forall (fun q => reply_well_formed (recognize_face (net env) q))
                        (p :: rest)).
  { apply Forall_forall. intros q _. apply Hwf. }
  rewrite (for_each_returns camera_id env (p :: rest) (set_is_busy true s) Hall)
    in Htick.
  rewrite Htick. reflexivity.
Qed.

Lemma next_delay_nonneg (baseline : Q) (n : nat) :
  (0 <= baseline)%Q -> (0 <= next_delay baseline n)%Q.
Proof.
  intros H. unfold next_delay.
  destruct (n =? 0)%nat; [discriminate|].
  destruct (n <? 3)%nat; [lra|].
  destruct (n <? 10)%nat; lra.
Qed.

Section Backlog.

Variable camera_id : string.
Variable config : Config.
Variable world : Q -> Env.
Variable files : list string.
Variable ok : string -> bool.
Variable t0 : Q.

Hypothesis pattern_set : file_pattern config <> None.
Hypothesis interval_nonneg : (0 <= get_check_interval config)%Q.
Hypothesis same_listing :
  forall t, (t0 <= t)%Q -> glob_glob (folder (world t)) = files.
Hypothesis same_stability :
  forall t p, (t0 <= t)%Q -> In p files ->
              readable (folder (world t)) p
              /\ stableb (folder (world t)) p = ok p.
Hypothesis lock_free : forall t, (t0 <= t)%Q -> lock_acquired (world t) = true.
Hypothesis answers :
  forall t p, (t0 <= t)%Q ->
              reply_well_formed (recognize_face (net (world t)) p).
Hypothesis listing_nodup : NoDup files.
Hypothesis listing_nonempty_paths : ~ In EmptyString files.

Lemma backlog_sorted : StronglySorted str_lt (filter ok (list_sort files)).
Proof.
  eapply subseq_sorted; [apply subseq_filter|].
  apply list_sort_strict, listing_nodup.
Qed.

Lemma backlog_nonempty_paths : ~ In EmptyString (filter ok (list_sort files)).
Proof.
  intros H. apply listing_nonempty_paths.
  apply filter_In in H as [H _].
  eapply Permutation_in; [apply list_sort_perm | exact H].
Qed.

Lemma stable_files_backlog (t : Q) :
  (t0 <= t)%Q -> stable_files (folder (world t)) = filter ok (list_sort files).
Proof.
  intros Ht. unfold stable_files. rewrite (same_listing t Ht).
  apply filter_ext_in. intros p Hp. apply same_stability; [exact Ht|].
  eapply Permutation_in; [apply list_sort_perm | exact Hp].
Qed.

Lemma scan_of_backlog (t : Q) (done todo : list string) :
  (t0 <= t)%Q ->
  filter ok (list_sort files) = done ++ todo ->
  get_newest_images (file_pattern config) (folder (world t))
                    (List.last (map Some done) None) 3
  = firstn 3 todo.
Proof.
  intros Ht Hsplit.
  rewrite get_newest_images_complete.
  - rewrite filter_andb. fold (stable_files (folder (world t))).
    rewrite (stable_files_backlog t Ht), Hsplit.
    rewrite filter_after_cursor; [reflexivity | |].
    + rewrite <- Hsplit. apply backlog_sorted.
    + rewrite <- Hsplit. apply backlog_nonempty_paths.
  - exact pattern_set.
  - rewrite (same_listing t Ht). apply Forall_forall.
    intros p Hp. apply (same_stability t p Ht Hp).
Qed.

Lemma backlog_run (n : nat) :
  forall done todo t l s,
    (t0 <= t)%Q ->
    filter ok (list_sort files) = done ++ todo ->
    is_busy s = false ->
    last_processed s = List.last (map Some done) None ->
    run_calls camera_id config n world t l s = firstn (3 * n) todo
    /\ is_busy (snd (run_loop camera_id config n world t l s)) = false
    /\ last_processed (snd (run_loop camera_id config n world t l s))
       = List.last (map Some (done ++ firstn (3 * n) todo)) None.
Proof.
  induction n as [|n IH]; intros done todo t l s Ht Hsplit Hbusy Hcur.
  - simpl. rewrite app_nil_r. auto.
  - cbn [run_loop run_calls].
    replace (3 * S n)%nat with (3 + 3 * n)%nat by lia.
    pose proof (scan_of_backlog t done todo Ht Hsplit) as Hscan.
    rewrite <- Hcur in Hscan.
    destruct (firstn 3 todo) as [|p rest] eqn:Hbatch.
    + assert (Htodo : todo = []).
      { destruct todo; [reflexivity | discriminate]. }
      destruct (tick_empty_scan camera_id config (world t) l s (lock_free t Ht)
                  Hbusy Hscan) as (s' & Htick & Hb & Hlp & _).
      unfold pass_calls. rewrite (lock_free t Ht), Hbusy, Hscan.
      cbn [andb negb]. rewrite Htick. cbn [batch_calls app].
      destruct (IH done todo (t + next_delay (get_check_interval config)
                                             (consecutive_empty l + 1))%Q
                   {| consecutive_empty := consecutive_empty l + 1;
                      last_heartbeat :=
                        if heartbeat_due (current_time (world t)) l
                        then current_time (world t) else last_heartbeat l |}
                   s') as (Hc & Hb' & Hl'); try assumption.
      { pose proof (next_delay_nonneg (get_check_interval config)
                      (consecutive_empty l + 1) interval_nonneg). lra. }
      { rewrite Hlp. exact Hcur. }
      rewrite Hc, Hb', Hl'. subst todo. rewrite !firstn_nil. auto.
    + pose proof (tick_batch_all_return camera_id config (world t) l s
                    (p :: rest) (lock_free t Ht) Hbusy Hscan) as Hpass.
      destruct Hpass as (Hcalls & Hb & Hlp);
        [discriminate | intros q; apply answers, Ht |].
      pose proof (tick_batch_delay camera_id config (world t) l s (p :: rest)
                    (lock_free t Ht) Hbusy Hscan) as Hdelay.
      rewrite Hcalls.
      destruct (tick camera_id config (world t) l s) as [[l' delay] s'].
      cbn [fst snd] in Hb, Hlp, Hdelay.
      destruct (IH (done ++ p :: rest) (skipn 3 todo) (t + delay)%Q l' s')
        as (Hc & Hb' & Hl').
      { rewrite Hdelay; [lra | discriminate | intros q; apply answers, Ht]. }
      { rewrite Hsplit, <- Hbatch, <- app_assoc, firstn_skipn. reflexivity. }
      { exact Hb. }
      { rewrite Hlp, map_app.
        symmetry. apply last_app_nonempty. discriminate. }
      rewrite Hc, Hb', Hl', firstn_add, Hbatch, <- app_assoc.
      auto.
Qed.

End Backlog.

(** A backlog is worked off three captures per pass, oldest first.  From
    time [t0] on let the listing be the same [files], each named once, let
    every listed file be stat-able and keep its verdict [ok] of being old
    and large enough (a finished capture stays old enough as the clock
    advances, one that is too small stays too small), let the lock be free
    and the service answer every request, and let the baseline interval not
    be negative.  Then a monitor that starts at [t0] with the cursor unset
    has, after [n] passes, processed exactly the first [3 * n] of the [ok]
    files of the sorted listing, in that order, and its cursor is on the
    last of them; once [3 * n] reaches their number, every such file has
    been processed. *)
Theorem backlog_three_per_pass camera_id config world files ok (t0 : Q) :
  file_pattern config <> None ->
  (0 <= get_check_interval config)%Q ->
  (forall t, (t0 <= t)%Q -> glob_glob (folder (world t)) = files) ->
  (forall t p, (t0 <= t)%Q -> In p files ->
               readable (folder (world t)) p
               /\ stableb (folder (world t)) p = ok p) ->
  (forall t, (t0 <= t)%Q -> lock_acquired (world t) = true) ->
  (forall t p, (t0 <= t)%Q ->
               reply_well_formed (recognize_face (net (world t)) p)) ->
  NoDup files ->
  ~ In EmptyString files ->
  forall n l s,
    is_busy s = false ->
    last_processed s = None ->
    run_calls camera_id config n world t0 l s
    = firstn (3 * n) (filter ok (list_sort files))
    /\ last_processed (snd (run_loop camera_id config n world t0 l s))
       = List.last (map Some (firstn (3 * n) (filter ok (list_sort files))))
                   None
    /\ ((List.length (filter ok (list_sort files)) <= 3 * n)%nat ->
        run_calls camera_id config n world t0 l s
        = filter ok (list_sort files)).
Proof.
  intros Hpat Hint Hlist Hstab Hlock Hans Hnd Hne n l s Hbusy Hcur.
  destruct (backlog_run camera_id config world files ok t0 Hpat Hint Hlist
              Hstab Hlock Hans Hnd Hne n [] (filter ok (list_sort files))
              t0 l s (Qle_refl t0) eq_refl Hbusy Hcur)
    as (Hcalls & _ & Hlast).
  split; [exact Hcalls|]. split; [exact Hlast|].
  intros Hlen. rewrite Hcalls. apply firstn_all2, Hlen.
Qed.

Lemma backlog_three_per_pass_witness :
  run_calls "ESP32-001" default_config 1 aging_world 100 initial_locals
            (fresh_state Absent)
  = ["/cam/c_0001.jpg"; "/cam/c_0002.jpg"; "/cam/c_0004.jpg"]
  /\ run_calls "ESP32-001" default_config 2 aging_world 100 initial_locals
               (fresh_state Absent)
     = ["/cam/c_0001.jpg"; "/cam/c_0002.jpg"; "/cam/c_0004.jpg";
        "/cam/c_0005.jpg"]
  /\ last_processed
       (snd (run_loop "ESP32-001" default_config 2 aging_world 100
                      initial_locals (fresh_state Absent)))
     = Some "/cam/c_0005.jpg".
Proof.
  assert (H : forall n,
             run_calls "ESP32-001" default_config n aging_world 100
                       initial_locals (fresh_state Absent)
             = firstn (3 * n)
                 (filter large_enough (list_sort (glob_glob (aging_folder 100))))
             /\ last_processed
                  (snd (run_loop "ESP32-001" default_config n aging_world
                                 100 initial_locals (fresh_state Absent)))
                = List.last
                    (map Some
                       (firstn (3 * n)
                          (filter large_enough
                             (list_sort (glob_glob (aging_folder 100))))))
                    None).
  { intros n.
    destruct (backlog_three_per_pass "ESP32-001" default_config aging_world
                (glob_glob (aging_folder 100)) large_enough 100)
      with (n := n) (l := initial_locals) (s := fresh_state Absent)
      as (Hcalls & Hlast & _).
    - discriminate.
    - vm_compute. discriminate.
    - intros t _. reflexivity.
    - intros t p Ht Hp.
      assert (Hage : Qle_bool 0.5 (t - 99) = true)
        by (apply Qle_bool_iff; lra).
      split.
      + split; simpl; [discriminate|].
        destruct (String.eqb p "/cam/c_0003.jpg"); discriminate.
      + unfold stableb, large_enough. cbn [aging_world env_at folder aging_folder
                                            getmtime getsize time_time].
        rewrite Hage.
        destruct (String.eqb p "/cam/c_0003.jpg"); reflexivity.
    - intros t _. reflexivity.
    - intros t p _ face best Hin Hbest _.
      destruct Hin as [<- | []].
      vm_compute in Hbest. injection Hbest as <-. discriminate.
    - repeat constructor; simpl; intuition discriminate.
    - simpl. intuition discriminate.
    - reflexivity.
    - reflexivity.
    - split; assumption. }
  split; [|split].
  - rewrite (proj1 (H 1%nat)). vm_compute. reflexivity.
  - rewrite (proj1 (H 2%nat)). vm_compute. reflexivity.
  - rewrite (proj2 (H 2%nat)). vm_compute. reflexivity.
Defined.

(* ------------------------------------------------------------------ *)
(** * Properties of the downloader *)

(** ** Validating a configuration *)

Lemma validate_cameras_ok (cameras : list Pull.yaml) :
  forall i,
    Pull.validate_cameras i cameras = Return tt
    <-> Forall camera_described cameras.
Proof.
  unfold camera_described, camera_mentions.
  induction cameras as [|camera rest IH]; intros i; simpl.
  - split; [constructor | reflexivity].
  - destruct (Pull.contains "name" camera) as [[|] | e] eqn:Hn;
      [destruct (Pull.contains "ip" camera) as [[|] | e] eqn:Hi|..].
    + rewrite IH. split.
      * intros H. constructor; [split; assumption | exact H].
      * intros H. inversion H; assumption.
    + split; [discriminate|].
      intros H. inversion H as [|? ? [_ Hip] _]. congruence.
    + split; [discriminate|].
      intros H. inversion H as [|? ? [_ Hip] _]. congruence.
    + split; [discriminate|].
      intros H. inversion H as [|? ? [Hname _] _]. congruence.
    + split; [discriminate|].
      intros H. inversion H as [|? ? [Hname _] _]. congruence.
Qed.

Lemma validate_cameras_first (good : list Pull.yaml) :
  forall i bad rest,
    Forall camera_described good ->
    Pull.validate_cameras i (good ++ bad :: rest)
    = Pull.validate_cameras (i + Z.of_nat (List.length good)) (bad :: rest).
Proof.
  induction good as [|camera good IH]; intros i bad rest Hgood.
  - simpl. rewrite Z.add_0_r. reflexivity.
  - inversion Hgood as [|? ? [Hname Hip] Hgood']; subst.
    unfold camera_mentions in *.
    replace (i + Z.of_nat (List.length (camera :: good)))%Z
      with (i + 1 + Z.of_nat (List.length good))%Z
      by (cbn [List.length]; rewrite Nat2Z.inj_succ; lia).
    rewrite <- IH by exact Hgood'.
    cbn [app Pull.validate_cameras]. rewrite Hname, Hip. reflexivity.
Qed.

(** [_validate_config] returns exactly for a [dict] whose ['cameras'] is a
    non-empty list of entries that each mention ['name'] and ['ip'] (as a
    key of a [dict], an element of a [list] or a part of a [str]: the entry
    need not be a [dict]); and when an entry of the list fails a test while
    all entries before it pass, the error names that entry, counted from 1,
    and reports a missing ['name'] before a missing ['ip']. *)
Theorem validate_config_accepts (config : Pull.yaml) :
  (Pull._validate_config config = Return tt
   <-> exists entries cameras,
        config = Pull.YDict entries
        /\ Pull.dict_get "cameras" entries = Some (Pull.YList cameras)
        /\ cameras <> []
        /\ Forall camera_described cameras)
  /\ (forall entries good bad rest,
         config = Pull.YDict entries ->
         Pull.dict_get "cameras" entries
         = Some (Pull.YList (good ++ bad :: rest)) ->
         Forall camera_described good ->
         (Pull.contains "name" bad = Return false ->
          Pull._validate_config config
          = Raise (missing_key_message (List.length good) "name"))
         /\ (Pull.contains "name" bad = Return true ->
             Pull.contains "ip" bad = Return false ->
             Pull._validate_config config
             = Raise (missing_key_message (List.length good) "ip"))).
Proof.
  split.
  - split.
    + unfold Pull._validate_config.
      destruct config as [| | | | | |entries]; try discriminate.
      destruct (Pull.dict_get "cameras" entries) as [v|] eqn:Hget;
        [|discriminate].
      destruct v as [| | | | |cameras|]; try discriminate.
      destruct cameras as [|camera rest]; [discriminate|].
      intros H. exists entries, (camera :: rest).
      repeat split; [exact Hget | discriminate |].
      apply (validate_cameras_ok _ 0%Z), H.
    + intros (entries & cameras & -> & Hget & Hne & Hall).
      unfold Pull._validate_config. rewrite Hget.
      destruct cameras as [|camera rest]; [congruence|].
      apply validate_cameras_ok, Hall.
  - intros entries good bad rest -> Hget Hgood.
    unfold Pull._validate_config. rewrite Hget.
    assert (Hshape : exists c cs, good ++ bad :: rest = c :: cs).
    { destruct good; simpl; eauto. }
    destruct Hshape as (c & cs & Hshape). rewrite Hshape, <- Hshape.
    rewrite validate_cameras_first by exact Hgood.
    unfold missing_key_message. cbn [Pull.validate_cameras]. split.
    + intros ->. reflexivity.
    + intros -> ->. reflexivity.
Qed.

Lemma validate_config_accepts_witness :
  Pull._validate_config
    (Pull.YDict [(Pull.YStr "cameras",
                  Pull.YList [Pull.YStr "name ip";
                              Pull.YDict [(Pull.YStr "name", Pull.YStr "x")]])])
  = Raise "Kamera 2: 'ip' fehlt".
Proof.
  destruct (validate_config_accepts
              (Pull.YDict [(Pull.YStr "cameras",
                  Pull.YList [Pull.YStr "name ip";
                              Pull.YDict [(Pull.YStr "name", Pull.YStr "x")]])]))
    as [_ H].
  destruct (H [(Pull.YStr "cameras",
                Pull.YList [Pull.YStr "name ip";
                            Pull.YDict [(Pull.YStr "name", Pull.YStr "x")]])]
              [Pull.YStr "name ip"]
              (Pull.YDict [(Pull.YStr "name", Pull.YStr "x")]) [])
    as [_ Hip].
  - reflexivity.
  - reflexivity.
  - constructor; [split; reflexivity | constructor].
  - apply Hip; reflexivity.
Defined.

(** ** The simple configuration *)

Lemma to_int_not_nil (n : Z) :
  Z.to_int n <> Decimal.Pos Decimal.Nil /\ Z.to_int n <> Decimal.Neg Decimal.Nil.
Proof.
  destruct n as [|p|p]; simpl; split; try discriminate;
    intros H; injection H as H; exact (DecimalPos.Unsigned.to_uint_nonnil p H).
Qed.

Lemma str_of_int_inj (a b : Z) : str_of_int a = str_of_int b -> a = b.
Proof.
  unfold str_of_int. intros H.
  apply DecimalZ.to_int_inj.
  destruct (to_int_not_nil a) as [Ha1 Ha2].
  destruct (to_int_not_nil b) as [Hb1 Hb2].
  pose proof (NilZero.isi _ Ha1 Ha2) as Ia.
  pose proof (NilZero.isi _ Hb1 Hb2) as Ib.
  rewrite H in Ia. rewrite Ia in Ib. injection Ib as Ib. exact Ib.
Qed.

Lemma append_inj_l (p a b : string) :
  String.append p a = String.append p b -> a = b.
Proof.
  induction p as [|c p IH]; simpl; intros H; [exact H|].
  injection H as H. apply IH, H.
Qed.

Lemma simple_cameras_fields (cameras_ips : list Pull.yaml) :
  forall i,
    Forall camera_described (Pull.simple_cameras i cameras_ips)
    /\ map (camera_field "ip") (Pull.simple_cameras i cameras_ips)
       = map Some cameras_ips
    /\ (forall key prefix,
           (key = "name" /\ prefix = "Kamera_")
           \/ (key = "folder" /\ prefix = "camera_") ->
           forall v,
             In v (map (camera_field key) (Pull.simple_cameras i cameras_ips)) ->
             exists k, (i <= k)%Z
                       /\ v = Some (Pull.YStr (String.append prefix (str_of_int k)))).
Proof.
  induction cameras_ips as [|ip rest IH]; intros i.
  - simpl. repeat split; [constructor|]. intros key prefix _ v [].
  - destruct (IH (i + 1)%Z) as (Hdesc & Hips & Hnames).
    cbn [Pull.simple_cameras map]. repeat split.
    + constructor; [split; reflexivity | exact Hdesc].
    + rewrite Hips. reflexivity.
    + intros key prefix Hkey v [Hv | Hv].
      * exists i. split; [lia|].
        destruct Hkey as [[-> ->] | [-> ->]]; rewrite <- Hv; reflexivity.
      * destruct (Hnames key prefix Hkey v Hv) as (k & Hk & ->).
        exists k. split; [lia | reflexivity].
Qed.

Lemma simple_cameras_distinct (key prefix : string)
      (cameras_ips : list Pull.yaml) :
  (key = "name" /\ prefix = "Kamera_")
  \/ (key = "folder" /\ prefix = "camera_") ->
  forall i,
    NoDup (map (camera_field key) (Pull.simple_cameras i cameras_ips)).
Proof.
  intros Hkey. induction cameras_ips as [|ip rest IH]; intros i.
  - constructor.
  - cbn [Pull.simple_cameras map]. constructor; [|apply IH].
    intros Hin.
    destruct (simple_cameras_fields rest (i + 1)%Z) as (_ & _ & Hnames).
    destruct (Hnames key prefix Hkey _ Hin) as (k & Hk & Heq).
    assert (Hi : camera_field key (Pull.simple_camera i ip)
                 = Some (Pull.YStr (String.append prefix (str_of_int i)))).
    { destruct Hkey as [[-> ->] | [-> ->]]; reflexivity. }
    rewrite Hi in Heq. injection Heq as Heq.
    apply append_inj_l, str_of_int_inj in Heq. lia.
Qed.

(** The configuration [create_simple_config] builds passes
    [_validate_config] exactly when at least one address is given; it has
    one camera per address, in order, and no two of its cameras share a
    name or a folder. *)
Theorem simple_config_valid (cameras_ips : list Pull.yaml) :
  (Pull._validate_config (Pull.create_simple_config cameras_ips) = Return tt
   <-> cameras_ips <> [])
  /\ (cameras_ips = [] ->
      Pull._validate_config (Pull.create_simple_config cameras_ips)
      = Raise "Mindestens eine Kamera muss konfiguriert sein")
  /\ map (camera_field "ip") (Pull.simple_cameras 1 cameras_ips)
     = map Some cameras_ips
  /\ NoDup (map (camera_field "name") (Pull.simple_cameras 1 cameras_ips))
  /\ NoDup (map (camera_field "folder") (Pull.simple_cameras 1 cameras_ips)).
Proof.
  destruct (simple_cameras_fields cameras_ips 1%Z) as (Hdesc & Hips & _).
  split; [|split; [|split; [exact Hips|split]]].
  - unfold Pull._validate_config, Pull.create_simple_config.
    cbn [Pull.dict_get String.eqb Ascii.eqb Bool.eqb].
    destruct cameras_ips as [|ip rest].
    + simpl. split; [discriminate | congruence].
    + split; [discriminate|]. intros _.
      cbn [Pull.simple_cameras].
      apply (validate_cameras_ok _ 0%Z). exact Hdesc.
  - intros ->. reflexivity.
  - apply (simple_cameras_distinct "name" "Kamera_"). left. split; reflexivity.
  - apply (simple_cameras_distinct "folder" "camera_"). right. split; reflexivity.
Qed.

Lemma simple_config_valid_witness :
  Pull._validate_config
    (Pull.create_simple_config
       [Pull.YStr "192.168.4.40"; Pull.YStr "192.168.4.41"])
  = Return tt.
Proof.
  destruct (simple_config_valid
              [Pull.YStr "192.168.4.40"; Pull.YStr "192.168.4.41"])
    as [H _].
  apply H. discriminate.
Defined.

(** ** Removing old images *)

Section Cleanup.

Variable str_lower : string -> string.
Variable dir : Pull.Directory.
Variable folder_path : string.

Lemma collect_images_spec (files : list string) :
  forall acc out,
    Pull.collect_images str_lower dir folder_path files acc = Return out ->
    exists added,
      out = acc ++ added
      /\ map fst added = image_paths str_lower folder_path files
      /\ Forall (fun pt => Pull.getctime dir (fst pt) = Some (snd pt)) added.
Proof.
  unfold image_paths.
  induction files as [|file rest IH]; intros acc out Hrun; simpl in Hrun.
  - injection Hrun as <-. exists []. rewrite app_nil_r.
    repeat split. constructor.
  - simpl. destruct (Pull.is_image str_lower file).
    + destruct (Pull.getctime dir (path_join folder_path file)) as [t|] eqn:Ht;
        [|discriminate].
      destruct (IH _ _ Hrun) as (added & -> & Hpaths & Hall).
      exists ((path_join folder_path file, t) :: added).
      rewrite <- app_assoc. repeat split.
      * simpl. rewrite Hpaths. reflexivity.
      * constructor; [exact Ht | exact Hall].
    + apply IH, Hrun.
Qed.

Lemma collect_images_returns (files : list string) :
  (forall p, In p (image_paths str_lower folder_path files) ->
             Pull.getctime dir p <> None) ->
  forall acc,
    exists out,
      Pull.collect_images str_lower dir folder_path files acc = Return out.
Proof.
  unfold image_paths.
  induction files as [|file rest IH]; intros Hok acc; simpl.
  - eexists. reflexivity.
  - simpl in Hok. destruct (Pull.is_image str_lower file).
    + destruct (Pull.getctime dir (path_join folder_path file)) as [t|] eqn:Ht.
      * apply IH. intros p Hp. apply Hok. right. exact Hp.
      * exfalso. apply (Hok (path_join folder_path file));
          [left; reflexivity | exact Ht].
    + apply IH, Hok.
Qed.

Lemma insert_newest_first_perm (x : string * Q) (l : list (string * Q)) :
  Permutation (Pull.insert_newest_first x l) (x :: l).
Proof.
  induction l as [|y l IH]; simpl; [apply Permutation_refl|].
  destruct (Qle_bool (snd y) (snd x)); [apply Permutation_refl|].
  eapply Permutation_trans; [apply perm_skip, IH | apply perm_swap].
Qed.

Lemma sort_newest_first_perm (l : list (string * Q)) :
  Permutation (Pull.sort_newest_first l) l.
Proof.
  induction l as [|x l IH]; simpl; [constructor|].
  eapply Permutation_trans; [apply insert_newest_first_perm|].
  apply perm_skip, IH.
Qed.

Lemma insert_newest_first_sorted (x : string * Q) (l : list (string * Q)) :
  StronglySorted (fun a b => (snd b <= snd a)%Q) l ->
  StronglySorted (fun a b => (snd b <= snd a)%Q) (Pull.insert_newest_first x l).
Proof.
  induction 1 as [|y l Hs IH Hall]; simpl.
  - constructor; constructor.
  - destruct (Qle_bool (snd y) (snd x)) eqn:E.
    + apply Qle_bool_iff in E. constructor.
      * constructor; assumption.
      * constructor; [exact E|].
        eapply Forall_impl; [|exact Hall].
        intros z Hz. simpl in Hz. eapply Qle_trans; eassumption.
    + constructor; [exact IH|].
      eapply Permutation_Forall;
        [apply Permutation_sym, insert_newest_first_perm|].
      constructor; [|exact Hall].
      simpl. apply Qlt_le_weak, Qnot_le_lt. intros Hle.
      apply Qle_bool_iff in Hle. congruence.
Qed.

Lemma sort_newest_first_sorted (l : list (string * Q)) :
  StronglySorted (fun a b => (snd b <= snd a)%Q) (Pull.sort_newest_first l).
Proof.
  induction l as [|x l IH]; simpl; [constructor|].
  apply insert_newest_first_sorted, IH.
Qed.

Lemma remove_all_prefix (l : list (string * Q)) :
  (exists rest, map fst l = Pull.remove_all dir l ++ rest)
  /\ (Forall (fun pt => Pull.removable dir (fst pt) = true) l ->
      Pull.remove_all dir l = map fst l).
Proof.
  induction l as [|[p t] l [[rest Hrest] Hall]]; simpl.
  - split; [exists []; reflexivity | reflexivity].
  - destruct (Pull.removable dir p) eqn:Hp; split.
    + exists rest. simpl. rewrite Hrest. reflexivity.
    + intros H. inversion H; subst. rewrite Hall by assumption. reflexivity.
    + eexists. reflexivity.
    + intros H. inversion H as [|? ? Hp' _]; subst. simpl in Hp'. congruence.
Qed.

Lemma slice_from_split {A : Type} (k : Z) (l : list A) :
  exists front,
    l = front ++ Pull.slice_from k l
    /\ Z.of_nat (List.length front)
       = (if (k <? 0)%Z then Z.max 0 (Z.of_nat (List.length l) + k)
          else Z.min k (Z.of_nat (List.length l))).
Proof.
  unfold Pull.slice_from.
  set (start := if (k <? 0)%Z then Z.max 0 (Z.of_nat (List.length l) + k)
                else Z.min k (Z.of_nat (List.length l))).
  exists (firstn (Z.to_nat start) l). split.
  - symmetry. apply firstn_skipn.
  - assert (0 <= start <= Z.of_nat (List.length l))%Z.
    { subst start. destruct (k <? 0)%Z eqn:E.
      - apply Z.ltb_lt in E. lia.
      - apply Z.ltb_ge in E. lia. }
    rewrite length_firstn. lia.
Qed.

End Cleanup.

Lemma remove_all_In (dir : Pull.Directory) (l : list (string * Q)) (p : string) :
  In p (Pull.remove_all dir l) ->
  Pull.removable dir p = true /\ In p (map fst l).
Proof.
  induction l as [|[q t] l IH]; simpl; [intros []|].
  destruct (Pull.removable dir q) eqn:Hq; [|intros []].
  intros [<- | Hin]; [split; [exact Hq | left; reflexivity]|].
  destruct (IH Hin) as [Hr Hl]. split; [exact Hr | right; exact Hl].
Qed.

(** What the cleanup run amounts to when it gets as far as deleting: the
    sorted images, and the cut in front of the ones to delete. *)
Lemma cleanup_run str_lower dir folder_path max_images files image_files :
  Pull.listdir dir = Some files ->
  Pull.collect_images str_lower dir folder_path files [] = Return image_files ->
  let sorted := Pull.sort_newest_first image_files in
  Permutation (map fst sorted) (image_paths str_lower folder_path files)
  /\ Forall (fun pt => Pull.getctime dir (fst pt) = Some (snd pt)) sorted
  /\ StronglySorted (fun a b => (snd b <= snd a)%Q) sorted
  /\ Pull._cleanup_old_images str_lower dir folder_path max_images
     = if (max_images <=? Z.of_nat (List.length sorted))%Z
       then Pull.remove_all dir (Pull.slice_from (max_images - 1) sorted)
       else [].
Proof.
  intros Hlist Hcollect sorted.
  destruct (collect_images_spec str_lower dir folder_path files [] image_files
              Hcollect) as (added & Hout & Hpaths & Htimes).
  simpl in Hout. subst added.
  repeat split.
  - rewrite <- Hpaths. apply Permutation_map, sort_newest_first_perm.
  - eapply Permutation_Forall;
      [apply Permutation_sym, sort_newest_first_perm | exact Htimes].
  - apply sort_newest_first_sorted.
  - unfold Pull._cleanup_old_images. rewrite Hlist, Hcollect. reflexivity.
Qed.

(** The cleanup touches nothing but the folder's own images, and only once
    there are [max_images] of them: every path it removes is the path of a
    listed file whose lower-cased name ends in [.jpg], [.jpeg] or [.png],
    and at the time the folder lists at least [max_images] such files. *)
Theorem cleanup_removes_only_listed_images str_lower dir folder_path
        max_images (p : string) :
  In p (Pull._cleanup_old_images str_lower dir folder_path max_images) ->
  exists files file,
    Pull.listdir dir = Some files
    /\ In file files
    /\ Pull.is_image str_lower file = true
    /\ p = path_join folder_path file
    /\ (max_images
        <= Z.of_nat (List.length (image_paths str_lower folder_path files)))%Z.
Proof.
  intros Hin.
  destruct (Pull.listdir dir) as [files|] eqn:Hlist;
    [|unfold Pull._cleanup_old_images in Hin; rewrite Hlist in Hin;
      destruct Hin].
  destruct (Pull.collect_images str_lower dir folder_path files [])
    as [image_files|e] eqn:Hcollect;
    [|unfold Pull._cleanup_old_images in Hin;
      rewrite Hlist, Hcollect in Hin; destruct Hin].
  destruct (cleanup_run str_lower dir folder_path max_images files image_files
              Hlist Hcollect) as (Hperm & _ & _ & Hrun).
  rewrite Hrun in Hin.
  destruct (max_images
            <=? Z.of_nat (List.length (Pull.sort_newest_first image_files)))%Z
    eqn:Hmax; [|destruct Hin].
  apply remove_all_In in Hin as [_ Hin].
  destruct (slice_from_split (max_images - 1)
              (Pull.sort_newest_first image_files)) as (front & Hsplit & _).
  assert (Hp : In p (image_paths str_lower folder_path files)).
  { eapply Permutation_in; [exact Hperm|].
    rewrite Hsplit, map_app. apply in_or_app. right. exact Hin. }
  unfold image_paths in Hp. apply in_map_iff in Hp as (file & Hfile & Hf).
  apply filter_In in Hf as [Hf Himg].
  exists files, file. repeat split; auto.
  apply Z.leb_le in Hmax.
  rewrite <- (Permutation_length Hperm), length_map. exact Hmax.
Qed.

Lemma cleanup_removes_only_listed_images_witness :
  exists files file,
    Pull.listdir directory_of_four = Some files
    /\ In file files
    /\ Pull.is_image (fun s => s) file = true
    /\ "cam/c1.jpg" = path_join "cam" file
    /\ (3 <= Z.of_nat (List.length (image_paths (fun s => s) "cam" files)))%Z.
Proof.
  apply (cleanup_removes_only_listed_images (fun s => s) directory_of_four
           "cam" 3 "cam/c1.jpg").
  vm_compute. right. left. reflexivity.
Defined.

(** The cleanup keeps the newest images.  When every image of the listing
    has a creation time and can be removed, the images fall into those kept
    and those removed, no kept image was created before a removed one, and:
    with fewer than [max_images] images nothing is removed; with
    [1 <= max_images] and at least [max_images] images exactly
    [max_images - 1] are kept, so that the download that follows brings the
    folder to [max_images] at most; with [max_images] zero or negative the
    [1 - max_images] oldest images are removed (all of them if there are
    fewer) and the rest is kept. *)
Theorem cleanup_keeps_newest str_lower dir folder_path max_images files :
  Pull.listdir dir = Some files ->
  cleanup_unhindered str_lower dir folder_path files ->
  let removed :=
    Pull._cleanup_old_images str_lower dir folder_path max_images in
  let count :=
    Z.of_nat (List.length (image_paths str_lower folder_path files)) in
  exists kept,
    Permutation (kept ++ removed) (image_paths str_lower folder_path files)
    /\ (forall k r, In k kept -> In r removed -> created_no_earlier dir k r)
    /\ ((count < max_images)%Z -> removed = [])
    /\ ((1 <= max_images <= count)%Z ->
        Z.of_nat (List.length kept) = (max_images - 1)%Z)
    /\ ((max_images <= 0)%Z ->
        Z.of_nat (List.length removed) = Z.min count (1 - max_images)).
Proof.
  intros Hlist Hok removed count.
  destruct (collect_images_returns str_lower dir folder_path files
              (fun p Hp => proj1 (Hok p Hp)) []) as (image_files & Hcollect).
  destruct (cleanup_run str_lower dir folder_path max_images files image_files
              Hlist Hcollect) as (Hperm & Htimes & Hsorted & Hrun).
  set (sorted := Pull.sort_newest_first image_files) in *.
  assert (Hcount : count = Z.of_nat (List.length sorted)).
  { subst count. rewrite <- (Permutation_length Hperm), length_map.
    reflexivity. }
  assert (Hremovable :
            forall l, (exists front, sorted = front ++ l) ->
                      Pull.remove_all dir l = map fst l).
  { intros l (front & Hfront). apply remove_all_prefix.
    apply Forall_forall. intros pt Hpt. apply Hok.
    eapply Permutation_in; [exact Hperm|]. apply in_map.
    rewrite Hfront. apply in_or_app. right. exact Hpt. }
  subst removed. rewrite Hrun.
  destruct (max_images <=? Z.of_nat (List.length sorted))%Z eqn:Hmax.
  - apply Z.leb_le in Hmax.
    destruct (slice_from_split (max_images - 1) sorted)
      as (front & Hsplit & Hfront).
    rewrite (Hremovable _ (ex_intro _ front Hsplit)).
    exists (map fst front). repeat split.
    + rewrite <- map_app, <- Hsplit. exact Hperm.
    + intros k r Hk Hr tk tr Htk Htr.
      apply in_map_iff in Hk as (a & <- & Ha).
      apply in_map_iff in Hr as (b & <- & Hb).
      rewrite Forall_forall in Htimes.
      rewrite (Htimes a) in Htk
        by (rewrite Hsplit; apply in_or_app; left; exact Ha).
      rewrite (Htimes b) in Htr
        by (rewrite Hsplit; apply in_or_app; right; exact Hb).
      injection Htk as <-. injection Htr as <-.
      rewrite Hsplit in Hsorted.
      apply (sorted_app_inv _ _ _ Hsorted a b Ha Hb).
    + lia.
    + intros Hrange. rewrite length_map, Hfront.
      destruct (max_images - 1 <? 0)%Z eqn:E;
        [apply Z.ltb_lt in E | apply Z.ltb_ge in E]; lia.
    + intros Hneg. rewrite length_map.
      assert (Hlen : (Z.of_nat (List.length sorted)
                      = Z.of_nat (List.length front)
                        + Z.of_nat (List.length
                                      (Pull.slice_from (max_images - 1) sorted)))%Z).
      { rewrite Hsplit at 1. rewrite length_app. lia. }
      rewrite Hfront in Hlen.
      destruct (max_images - 1 <? 0)%Z eqn:E;
        [apply Z.ltb_lt in E | apply Z.ltb_ge in E]; lia.
  - apply Z.leb_gt in Hmax.
    exists (map fst sorted). rewrite app_nil_r. repeat split.
    + exact Hperm.
    + intros k r _ [].
    + lia.
    + simpl. lia.
Qed.

Lemma cleanup_keeps_newest_witness :
  Pull._cleanup_old_images (fun s => s) directory_of_four "cam" 3
  = ["cam/c2.jpg"; "cam/c1.jpg"]
  /\ exists kept,
      Permutation
        (kept ++ Pull._cleanup_old_images (fun s => s) directory_of_four "cam" 3)
        (image_paths (fun s => s) "cam"
           ["c2.jpg"; "notes.txt"; "c4.jpg"; "c1.jpg"; "c3.png"])
      /\ Z.of_nat (List.length kept) = 2%Z.
Proof.
  split; [vm_compute; reflexivity|].
  destruct (cleanup_keeps_newest (fun s => s) directory_of_four "cam" 3
              ["c2.jpg"; "notes.txt"; "c4.jpg"; "c1.jpg"; "c3.png"])
    as (kept & Hperm & _ & _ & Hkept & _).
  - reflexivity.
  - intros p Hp. split; [|reflexivity].
    vm_compute in Hp.
    repeat (destruct Hp as [<- | Hp]; [vm_compute; discriminate|]).
    destruct Hp.
  - exists kept. split; [exact Hperm|]. apply Hkept. vm_compute.
    split; discriminate.
Defined.

(** ** File names sort by time *)

Lemma ascii_compare_refl (c : ascii) : Ascii.compare c c = Eq.
Proof. unfold Ascii.compare. apply N.compare_refl. Qed.

Lemma compare_app_prefix (p a b : string) :
  String.compare (String.append p a) (String.append p b) = String.compare a b.
Proof.
  induction p as [|c p IH]; simpl; [reflexivity|].
  rewrite ascii_compare_refl. exact IH.
Qed.

Lemma compare_app_same_length (a : string) :
  forall b x y,
    String.length a = String.length b ->
    String.compare (String.append a x) (String.append b y)
    = match String.compare a b with
      | Eq => String.compare x y
      | c => c
      end.
Proof.
  induction a as [|c a IH]; intros [|d b] x y Hlen; simpl in *;
    try discriminate; [reflexivity|].
  destruct (Ascii.compare c d); try reflexivity.
  apply IH. lia.
Qed.

Lemma length_append (a b : string) :
  String.length (String.append a b) = (String.length a + String.length b)%nat.
Proof. induction a as [|c a IH]; simpl; [reflexivity | rewrite IH; reflexivity]. Qed.

Lemma zero_padded_length (w : nat) :
  forall n, String.length (Pull.zero_padded w n) = w.
Proof.
  induction w as [|w IH]; intros n; simpl; [reflexivity|].
  rewrite length_append, IH. simpl. lia.
Qed.

Lemma digit_compare (a b : N) :
  (a < 10)%N -> (b < 10)%N ->
  Ascii.compare (Pull.digit a) (Pull.digit b) = (a ?= b)%N.
Proof.
  intros Ha Hb. unfold Ascii.compare, Pull.digit.
  rewrite !N_ascii_embedding by lia.
  destruct (N.compare_spec (48 + a) (48 + b));
    destruct (N.compare_spec a b); try reflexivity; lia.
Qed.

Lemma compare_by_tens (n m : N) :
  (n ?= m)%N
  = match (n / 10 ?= m / 10)%N with
    | Eq => (n mod 10 ?= m mod 10)%N
    | c => c
    end.
Proof.
  pose proof (N.div_mod' n 10) as Hn. pose proof (N.div_mod' m 10) as Hm.
  assert (Hn' : (n mod 10 < 10)%N) by (apply N.mod_lt; discriminate).
  assert (Hm' : (m mod 10 < 10)%N) by (apply N.mod_lt; discriminate).
  revert Hn Hm Hn' Hm'.
  generalize (n / 10)%N (m / 10)%N (n mod 10)%N (m mod 10)%N.
  intros qn qm rn rm Hn Hm Hn' Hm'.
  destruct (N.compare_spec qn qm); destruct (N.compare_spec rn rm);
    destruct (N.compare_spec n m); try reflexivity; lia.
Qed.

Lemma zero_padded_compare (w : nat) :
  forall n m,
    (n < 10 ^ N.of_nat w)%N -> (m < 10 ^ N.of_nat w)%N ->
    String.compare (Pull.zero_padded w n) (Pull.zero_padded w m)
    = (n ?= m)%N.
Proof.
  induction w as [|w IH]; intros n m Hn Hm.
  - simpl in *. assert (n = 0%N) by lia. assert (m = 0%N) by lia. subst.
    reflexivity.
  - rewrite Nnat.Nat2N.inj_succ, N.pow_succ_r' in Hn, Hm.
    cbn [Pull.zero_padded].
    rewrite compare_app_same_length by (rewrite !zero_padded_length; reflexivity).
    rewrite IH by (apply N.Div0.div_lt_upper_bound; assumption).
    rewrite (compare_by_tens n m).
    destruct (n / 10 ?= m / 10)%N; try reflexivity.
    simpl. rewrite digit_compare by (apply N.mod_lt; discriminate).
    destruct (n mod 10 ?= m mod 10)%N; reflexivity.
Qed.

Lemma substring_prefix (a b : string) :
  String.substring 0 (String.length a) (String.append a b) = a.
Proof.
  induction a as [|c a IH]; simpl.
  - destruct b; reflexivity.
  - rewrite IH. reflexivity.
Qed.

Lemma drop_last_app (a b : string) (n : nat) :
  String.length b = n -> Pull.drop_last n (String.append a b) = a.
Proof.
  intros <-. unfold Pull.drop_last. rewrite length_append.
  replace (String.length a + String.length b - String.length b)%nat
    with (String.length a) by lia.
  apply substring_prefix.
Qed.

Lemma drop_last_cons (c : ascii) (b : string) (n : nat) :
  (n <= String.length b)%nat ->
  Pull.drop_last n (String c b) = String c (Pull.drop_last n b).
Proof.
  intros H. unfold Pull.drop_last. cbn [String.length].
  replace (S (String.length b) - n)%nat with (S (String.length b - n)) by lia.
  reflexivity.
Qed.

Lemma drop_last_append (a b : string) (n : nat) :
  (n <= String.length b)%nat ->
  Pull.drop_last n (String.append a b)
  = String.append a (Pull.drop_last n b).
Proof.
  intros H. induction a as [|c a IH]; simpl; [reflexivity|].
  rewrite drop_last_cons by (rewrite length_append; lia).
  rewrite IH. reflexivity.
Qed.

Lemma zero_padded_last_three (w : nat) (n : N) :
  Pull.zero_padded (S (S (S w))) n
  = String.append (Pull.zero_padded w (n / 10 / 10 / 10)%N)
      (String (Pull.digit ((n / 10 / 10) mod 10)%N)
         (String (Pull.digit ((n / 10) mod 10)%N)
            (String (Pull.digit (n mod 10)%N) EmptyString))).
Proof. cbn [Pull.zero_padded]. rewrite !append_assoc. reflexivity. Qed.

Ltac long_enough :=
  repeat (rewrite length_append || rewrite zero_padded_length
          || cbn [String.length]);
  lia.

(** The time stamp of a file name: the date, the time of day and the
    milliseconds, each with its fixed number of digits. *)
Lemma timestamp_shape (now : Pull.datetime) :
  Pull.drop_last 3 (Pull.strftime now)
  = String.append (Pull.zero_padded 4 (Pull.year now))
      (String.append (Pull.zero_padded 2 (Pull.month now))
         (String.append (Pull.zero_padded 2 (Pull.day now))
            (String "_"
               (String.append (Pull.zero_padded 2 (Pull.hour now))
                  (String.append (Pull.zero_padded 2 (Pull.minute now))
                     (String.append (Pull.zero_padded 2 (Pull.second now))
                        (String "_"
                           (Pull.zero_padded 3
                              (Pull.microsecond now / 1000)))))))))%N.
Proof.
  unfold Pull.strftime.
  set (us := Pull.microsecond now).
  assert (Hus : Pull.drop_last 3 (Pull.zero_padded 6 us)
                = Pull.zero_padded 3 (us / 1000)%N).
  { replace (us / 1000)%N with (us / 10 / 10 / 10)%N
      by (rewrite !N.Div0.div_div; reflexivity).
    rewrite (zero_padded_last_three 3 us).
    apply drop_last_app. reflexivity. }
  do 3 (rewrite drop_last_append by long_enough).
  rewrite drop_last_cons by long_enough.
  do 3 (rewrite drop_last_append by long_enough).
  rewrite drop_last_cons by long_enough.
  rewrite Hus. reflexivity.
Qed.

Lemma compare_cons (c : ascii) (a b : string) :
  String.compare (String c a) (String c b) = String.compare a b.
Proof. simpl. rewrite ascii_compare_refl. reflexivity. Qed.

Lemma powers_of_ten :
  (10 ^ N.of_nat 2 = 100 /\ 10 ^ N.of_nat 3 = 1000
   /\ 10 ^ N.of_nat 4 = 10000)%N.
Proof. repeat split. Qed.

Lemma path_join_same_prefix (folder_path safe_name : string) (c : ascii)
      (x y : string) :
  exists prefix,
    path_join folder_path (String.append safe_name (String c x))
    = String.append prefix (String.append safe_name (String c x))
    /\ path_join folder_path (String.append safe_name (String c y))
       = String.append prefix (String.append safe_name (String c y)).
Proof.
  unfold path_join.
  assert (Hs : starts_with_sep (String.append safe_name (String c x))
               = starts_with_sep (String.append safe_name (String c y))).
  { destruct safe_name; reflexivity. }
  rewrite <- Hs.
  destruct (starts_with_sep (String.append safe_name (String c x))).
  - exists EmptyString. split; reflexivity.
  - destruct folder_path as [|ch rest].
    + exists EmptyString. split; reflexivity.
    + destruct (ends_with_sep (String ch rest)).
      * exists (String ch rest). split; reflexivity.
      * exists (String.append (String ch rest) "/").
        rewrite !append_assoc. split; reflexivity.
Qed.

Ltac same_width :=
  repeat (rewrite length_append || rewrite zero_padded_length
          || cbn [String.length]);
  reflexivity.

(** File names sort by time.  For two captures of one camera, taken at
    valid times with a four-digit year, the generated file names compare as
    strings exactly as the times compare by date, time of day and
    millisecond, and so do the paths of the two files in one folder: the
    scan's sorted listing is chronological.  Two captures within the same
    millisecond get the same file name. *)
Theorem filenames_sort_by_time str_lower camera_name folder_path
        (d1 d2 : Pull.datetime) :
  valid_datetime d1 ->
  valid_datetime d2 ->
  let f1 := Pull._generate_filename str_lower camera_name d1 in
  let f2 := Pull._generate_filename str_lower camera_name d2 in
  String.compare f1 f2 = lex_compare (stamp_key d1) (stamp_key d2)
  /\ String.compare (path_join folder_path f1) (path_join folder_path f2)
     = lex_compare (stamp_key d1) (stamp_key d2)
  /\ (stamp_key d1 = stamp_key d2 -> f1 = f2).
Proof.
  intros (Hy1 & Hm1 & Hd1 & Hh1 & Hmi1 & Hs1 & Hu1)
         (Hy2 & Hm2 & Hd2 & Hh2 & Hmi2 & Hs2 & Hu2) f1 f2.
  subst f1 f2. unfold Pull._generate_filename. cbv zeta.
  set (safe := Pull.replace Pull.u_umlaut "ue" _).
  rewrite !timestamp_shape.
  destruct powers_of_ten as (P2 & P3 & P4).
  assert (Hms1 : (Pull.microsecond d1 / 1000 < 1000)%N)
    by (apply N.Div0.div_lt_upper_bound; lia).
  assert (Hms2 : (Pull.microsecond d2 / 1000 < 1000)%N)
    by (apply N.Div0.div_lt_upper_bound; lia).
  match goal with
  | |- String.compare ?a ?b = ?c /\ _ =>
      assert (Hcmp : String.compare a b = c)
  end.
  { rewrite compare_app_prefix, compare_cons.
    rewrite compare_app_same_length by same_width.
    do 3 (rewrite compare_app_same_length by same_width).
    rewrite compare_cons.
    do 3 (rewrite compare_app_same_length by same_width).
    rewrite compare_cons.
    rewrite (zero_padded_compare 4) by (rewrite P4; lia).
    rewrite !(zero_padded_compare 2) by (rewrite P2; lia).
    rewrite (zero_padded_compare 3) by (rewrite P3; assumption).
    unfold stamp_key. cbn [lex_compare].
    repeat match goal with
           | |- context [(?a ?= ?b)%N] => destruct (a ?= b)%N
           end; reflexivity. }
  split; [exact Hcmp|]. split.
  - match goal with
    | |- String.compare (path_join _ (String.append _ (String _ ?x)))
                        (path_join _ (String.append _ (String _ ?y))) = _ =>
        destruct (path_join_same_prefix folder_path safe "_" x y)
          as (prefix & -> & ->)
    end.
    rewrite compare_app_prefix. exact Hcmp.
  - intros Hkey. unfold stamp_key in Hkey.
    injection Hkey as -> -> -> -> -> -> ->. reflexivity.
Qed.

Lemma filenames_sort_by_time_witness :
  str_lt (path_join "camera_images/main_camera"
            (Pull._generate_filename (fun s => s) "hauptkamera"
                                     last_second_2024))
         (path_join "camera_images/main_camera"
            (Pull._generate_filename (fun s => s) "hauptkamera"
                                     new_year_2025)).
Proof.
  destruct (filenames_sort_by_time (fun s => s) "hauptkamera"
              "camera_images/main_camera" last_second_2024 new_year_2025)
    as (_ & H & _).
  - vm_compute. repeat split; discriminate.
  - vm_compute. repeat split; discriminate.
  - unfold str_lt, String.ltb. rewrite H. reflexivity.
Defined.

(* ------------------------------------------------------------------ *)
(** * The statuses of one image *)

(** Two statuses per image.  A call of [process_image] that returns has
    published exactly two statuses: the [processing] announcement of the image
    and then one result, which carries the camera and the file name of the
    image, is green, gray or red, and names somebody exactly when it is
    green.  A call that raises (a chosen subject without a name) has
    published the announcement only and has left the cursor and the history
    as they were. *)
Theorem process_image_publishes_two camera_id env image_path s :
  let r := process_image camera_id env image_path s in
  match fst r with
  | Return _ =>
      exists final,
        published (snd r)
        = published s ++ [processing_status camera_id image_path; final]
        /\ LiveStatus.camera_id final = camera_id
        /\ LiveStatus.image_file final = Some (basename image_path)
        /\ LiveStatus.status final <> processing
        /\ (LiveStatus.recognized final <> []
            <-> LiveStatus.status final = green)
  | Raise _ =>
      published (snd r) = published s ++ [processing_status camera_id image_path]
      /\ last_processed (snd r) = last_processed s
      /\ recognition_results_json (snd r) = recognition_results_json s
  end.
Proof.
  assert (Hgo : forall (st : LiveStatus.t) (l : list LiveStatus.t) x,
             (l ++ [x]) ++ [st] = l ++ [x; st])
    by (intros; rewrite <- app_assoc; reflexivity).
  unfold process_image, bind, lift, processing_status. cbv zeta.
  destruct (recognize_face (net env) image_path) as [data no_face | error].
  - destruct (get_result data) as [|face rest].
    + unfold update_live_status, modify. simpl.
      eexists. split; [apply Hgo|]. simpl.
      repeat split; try discriminate; intros H; congruence.
    + destruct (faces_loop (face :: rest) [] 0) as [[recognized unknown] | e].
      * destruct recognized as [|name names].
        -- unfold update_live_status, modify. simpl.
           eexists. split; [apply Hgo|]. simpl.
           repeat split; try discriminate; intros H; congruence.
        -- unfold update_live_status, save_to_history, modify. simpl.
           eexists. split.
           ++ destruct (recognition_results_json s); destruct (writable env);
                simpl; apply Hgo.
           ++ simpl. repeat split; try discriminate.
      * unfold update_live_status, modify. simpl. repeat split.
  - unfold update_live_status, modify.
    destruct (str_in "Timeout" error); simpl;
      (eexists; split; [apply Hgo|]; simpl;
       repeat split; try discriminate; intros H; congruence).
Qed.

(* ------------------------------------------------------------------ *)
(** * The history over a run *)













(* ------------------------------------------------------------------ *)
(** * The endpoint of the recognition service *)

Lemma rstrip_slashes (n : nat) : rstrip "/" (slashes n) = EmptyString.
Proof. induction n as [|n IH]; simpl; [|rewrite IH]; reflexivity. Qed.

Lemma rstrip_base (base : string) (m : nat) :
  ends_with_sep base = false ->
  rstrip "/" (String.append base (slashes m)) = base.
Proof.
  induction base as [|a rest IH]; intros Hsep.
  - apply rstrip_slashes.
  - cbn [String.append rstrip]. destruct rest as [|b rest].
    + cbn [String.append]. rewrite rstrip_slashes.
      cbn [ends_with_sep] in Hsep. rewrite Hsep. reflexivity.
    + rewrite IH by exact Hsep. reflexivity.
Qed.

Lemma rstrip_split (s : string) :
  exists n,
    s = String.append (rstrip "/" s) (slashes n)
    /\ ends_with_sep (rstrip "/" s) = false.
Proof.
  induction s as [|a rest (n & Hn & Hsep)]; [exists 0%nat; split; reflexivity|].
  cbn [rstrip]. destruct (rstrip "/" rest) as [|b stripped] eqn:Hr.
  - destruct (Ascii.eqb a "/") eqn:Ha.
    + apply Ascii.eqb_eq in Ha. subst a. exists (S n).
      split; [|reflexivity]. cbn [String.append slashes]. f_equal. exact Hn.
    + exists n. split; [|cbn [ends_with_sep]; exact Ha].
      cbn [String.append]. f_equal. exact Hn.
  - exists n. split; [|exact Hsep].
    cbn [String.append] in *. f_equal. exact Hn.
Qed.

(** Trailing slashes of the configured address do not matter.  Every
    address is a base that does not end in a slash followed by some number
    of slashes; the endpoint is that base followed by
    [/api/v1/recognition/recognize], whatever the number of slashes, so it
    never has a double slash at the joint. *)
Theorem endpoint_ignores_trailing_slashes (api_url : string) :
  exists base n,
    api_url = String.append base (slashes n)
    /\ ends_with_sep base = false
    /\ endpoint api_url = String.append base "/api/v1/recognition/recognize"
    /\ forall m, endpoint (String.append base (slashes m)) = endpoint api_url.
Proof.
  destruct (rstrip_split api_url) as (n & Hn & Hsep).
  exists (rstrip "/" api_url), n. repeat split; try assumption.
  intros m. unfold endpoint. cbv zeta.
  rewrite rstrip_base by exact Hsep. reflexivity.
Qed.
